(** * RiveFileService: a reference-counted cache of Rive files

    Shallow embedding of [RiveFileService] (the version of
    [rive-file.service.ts] that keeps a [pendingLoads] table and a
    [bufferIdCounter]) and proofs about its cache discipline.

    The service is single-threaded JavaScript.  Its three public methods run
    to completion, and the only asynchrony is the delivery of the [load] /
    [loaderror] notifications of a [RiveFile].  The embedding is therefore a
    state-and-exception monad over a [World] that holds the service's fields
    together with the part of the JavaScript heap the service touches
    (signals, promises, the [__riveBufferId] expando of buffers, the
    listeners registered through [file.on]) and a trace of the calls made
    into the Rive runtime and the console. *)

From stdpp Require Import base option list strings numbers pretty gmap.

Set Default Proof Using "Type".
Open Scope string_scope.
Open Scope list_scope.
Open Scope nat_scope.

(** ** JavaScript [Map<string, V>]

    A [Map] iterates in insertion order, and [set] on an existing key keeps
    the key's position; an association list with unique keys models both. *)
Module JsMap.
Section JsMap.
Context {V : Type}.

Definition t := list (string * V).

Definition empty : t := [].

Fixpoint get (k : string) (m : t) : option V :=
  match m with
  | [] => None
  | (k', v) :: m' => if decide (k' = k) then Some v else get k m'
  end.

Fixpoint set (k : string) (v : V) (m : t) : t :=
  match m with
  | [] => [(k, v)]
  | (k', v') :: m' =>
      if decide (k' = k) then (k, v) :: m' else (k', v') :: set k v m'
  end.

Fixpoint delete (k : string) (m : t) : t :=
  match m with
  | [] => []
  | (k', v') :: m' =>
      if decide (k' = k) then delete k m' else (k', v') :: delete k m'
  end.

Definition values (m : t) : list V := m.*2.

Definition keys (m : t) : list string := m.*1.
End JsMap.
Global Arguments t : clear implicits.
End JsMap.


(** ** Data model *)

(** [FileStatus = 'idle' | 'loading' | 'success' | 'failed'] *)
Inductive FileStatus := idle | loading | success | failed.

(** Objects of the Rive runtime and of the JavaScript heap are known to the
    service by identity only.  A [RiveFile] is the number of the object in
    construction order; a signal and a promise are their index in the heap.
    [stateSignal.asReadonly()] is memoised per signal by Angular, so the
    read-only view handed to callers is identified with the signal. *)
Definition RiveFile := nat.
Definition SignalRef := nat.
Definition PromiseRef := nat.

(** [RiveFileState] *)
Record RiveFileState := {
  riveFile : option RiveFile;
  status : FileStatus;
}.

(** An [ArrayBuffer] as a call receives it: an object identity, its bytes,
    and whether the object is extensible at the time of the call (it is not
    after [Object.preventExtensions], [Object.seal] or [Object.freeze]).
    The expando property [__riveBufferId] lives in the heap, indexed by
    [addr]. *)
Record ArrayBuffer := {
  addr : nat;
  bytes : list N;
  extensible : bool;
}.

(** [RiveFileParams] *)
Record RiveFileParams := {
  src : option string;
  buffer : option ArrayBuffer;
}.

(** [CacheEntry] *)
Record CacheEntry := {
  file : RiveFile;
  state : SignalRef;
  refCount : Z;
}.

(** [PendingLoad] *)
Record PendingLoad := {
  stateSignal : SignalRef;
  promise : PromiseRef;
}.

Inductive PromiseState := PromisePending | PromiseFulfilled | PromiseRejected.

(** [EventType.Load] and [EventType.LoadError] *)
Inductive EventType := Load | LoadError.

(** A handler registered with [file.on]: the event it listens to and the
    variables its closure captures. *)
Record Listener := {
  l_file : RiveFile;
  l_type : EventType;
  l_stateSignal : SignalRef;
  l_cacheKey : string;
  l_resolve : PromiseRef;
}.

(** Calls that leave the service, with their outcome, and the notifications
    the runtime delivers. *)
Inductive Call :=
| NewRiveFile (params : RiveFileParams) (result : option RiveFile)
| Init (f : RiveFile) (ok : bool)
| On (f : RiveFile) (ty : EventType)
| GetInstance (f : RiveFile)
| Cleanup (f : RiveFile) (ok : bool)
| ConsoleWarn
| ConsoleError
| Notified (f : RiveFile) (ty : EventType).

Global Instance FileStatus_eq_dec : EqDecision FileStatus.
Proof. solve_decision. Defined.
Global Instance RiveFileState_eq_dec : EqDecision RiveFileState.
Proof. solve_decision. Defined.
Global Instance EventType_eq_dec : EqDecision EventType.
Proof. solve_decision. Defined.
Global Instance PromiseState_eq_dec : EqDecision PromiseState.
Proof. solve_decision. Defined.

(** The state: the three private fields of [RiveFileService], then the heap
    and the trace.  [bufferIdCounter] is a JavaScript number that only ever
    grows by one from 0; it is exact, and so a natural number, below 2^53. *)
Record World := {
  cache : JsMap.t CacheEntry;
  pendingLoads : JsMap.t PendingLoad;
  bufferIdCounter : N;
  signals : list RiveFileState;
  promises : list PromiseState;
  riveBufferId : gmap nat N;
  listeners : list Listener;
  filesConstructed : nat;
  trace : list Call;
}.

Definition initial : World := {|
  cache := JsMap.empty;
  pendingLoads := JsMap.empty;
  bufferIdCounter := 0;
  signals := [];
  promises := [];
  riveBufferId := ∅;
  listeners := [];
  filesConstructed := 0;
  trace := [];
|}.

Definition with_cache (f : JsMap.t CacheEntry → JsMap.t CacheEntry) (w : World) :=
  {| cache := f (cache w); pendingLoads := pendingLoads w;
     bufferIdCounter := bufferIdCounter w; signals := signals w;
     promises := promises w; riveBufferId := riveBufferId w;
     listeners := listeners w; filesConstructed := filesConstructed w;
     trace := trace w |}.

Definition with_pendingLoads (f : JsMap.t PendingLoad → JsMap.t PendingLoad) (w : World) :=
  {| cache := cache w; pendingLoads := f (pendingLoads w);
     bufferIdCounter := bufferIdCounter w; signals := signals w;
     promises := promises w; riveBufferId := riveBufferId w;
     listeners := listeners w; filesConstructed := filesConstructed w;
     trace := trace w |}.

Definition with_bufferId (c : N) (ids : gmap nat N) (w : World) :=
  {| cache := cache w; pendingLoads := pendingLoads w;
     bufferIdCounter := c; signals := signals w;
     promises := promises w; riveBufferId := ids;
     listeners := listeners w; filesConstructed := filesConstructed w;
     trace := trace w |}.

Definition with_signals (f : list RiveFileState → list RiveFileState) (w : World) :=
  {| cache := cache w; pendingLoads := pendingLoads w;
     bufferIdCounter := bufferIdCounter w; signals := f (signals w);
     promises := promises w; riveBufferId := riveBufferId w;
     listeners := listeners w; filesConstructed := filesConstructed w;
     trace := trace w |}.

Definition with_promises (f : list PromiseState → list PromiseState) (w : World) :=
  {| cache := cache w; pendingLoads := pendingLoads w;
     bufferIdCounter := bufferIdCounter w; signals := signals w;
     promises := f (promises w); riveBufferId := riveBufferId w;
     listeners := listeners w; filesConstructed := filesConstructed w;
     trace := trace w |}.

Definition with_listeners (f : list Listener → list Listener) (w : World) :=
  {| cache := cache w; pendingLoads := pendingLoads w;
     bufferIdCounter := bufferIdCounter w; signals := signals w;
     promises := promises w; riveBufferId := riveBufferId w;
     listeners := f (listeners w); filesConstructed := filesConstructed w;
     trace := trace w |}.

Definition with_filesConstructed (n : nat) (w : World) :=
  {| cache := cache w; pendingLoads := pendingLoads w;
     bufferIdCounter := bufferIdCounter w; signals := signals w;
     promises := promises w; riveBufferId := riveBufferId w;
     listeners := listeners w; filesConstructed := n;
     trace := trace w |}.

Definition with_trace (f : list Call → list Call) (w : World) :=
  {| cache := cache w; pendingLoads := pendingLoads w;
     bufferIdCounter := bufferIdCounter w; signals := signals w;
     promises := promises w; riveBufferId := riveBufferId w;
     listeners := listeners w; filesConstructed := filesConstructed w;
     trace := f (trace w) |}.

(** ** The monad: state and exceptions *)

Inductive Exn := ConstructError | InitError | CleanupError | TypeError.

Inductive Completion (A : Type) :=
| Normal (a : A)
| Throw (e : Exn).
Global Arguments Normal {A} a.
Global Arguments Throw {A} e.

Definition M (A : Type) : Type := World → Completion A * World.

Global Instance M_ret : MRet M := λ A a w, (Normal a, w).

Global Instance M_bind : MBind M := λ A B k c w,
  match c w with
  | (Normal a, w') => k a w'
  | (Throw e, w') => (Throw e, w')
  end.

Definition throw {A} (e : Exn) : M A := λ w, (Throw e, w).

(** [try { body } catch (error) { handler }] *)
Definition try_catch {A} (body : M A) (handler : Exn → M A) : M A := λ w,
  match body w with
  | (Normal a, w') => (Normal a, w')
  | (Throw e, w') => handler e w'
  end.

Definition gets {A} (f : World → A) : M A := λ w, (Normal (f w), w).
Definition modify (f : World → World) : M unit := λ w, (Normal (), f w).
Definition call (c : Call) : M unit := modify (with_trace (λ t, t ++ [c])).

(** [for (x of xs) body(x)] *)
Fixpoint for_each {A} (xs : list A) (body : A → M unit) : M unit :=
  match xs with
  | [] => mret ()
  | x :: xs' => body x ;; for_each xs' body
  end.

(** ** The heap and the Rive runtime

    What the runtime does is not the service's to decide: whether
    [new RiveFile(params)] or [file.init()] throws, and whether
    [file.cleanup()] throws, are inputs of the operations below.  [file.on],
    [file.getInstance] and the console do not throw. *)

Inductive SetupOutcome := SetupOk | ConstructorThrows | InitThrows.

(** [signal<RiveFileState>(v)] *)
Definition new_signal (v : RiveFileState) : M SignalRef := λ w,
  (Normal (length (signals w)), with_signals (λ l, l ++ [v]) w).

(** [stateSignal.set(v)] *)
Definition signal_set (s : SignalRef) (v : RiveFileState) : M unit :=
  modify (with_signals (λ l, <[s := v]> l)).

(** Reading a signal, [state()] *)
Definition signal_get (s : SignalRef) (w : World) : option RiveFileState :=
  signals w !! s.

Definition new_promise : M PromiseRef := λ w,
  (Normal (length (promises w)), with_promises (λ l, l ++ [PromisePending]) w).

Definition settle (st : PromiseState) : PromiseState :=
  match st with
  | PromisePending => PromiseFulfilled
  | _ => st
  end.

(** [resolve()]: fulfils a pending promise, does nothing to a settled one *)
Definition resolve (p : PromiseRef) : M unit :=
  modify (with_promises (alter settle p)).

(** [new RiveFile(params)] *)
Definition new_RiveFile (params : RiveFileParams) (o : SetupOutcome) : M RiveFile := λ w,
  match o with
  | ConstructorThrows =>
      (Throw ConstructError, with_trace (λ t, t ++ [NewRiveFile params None]) w)
  | _ =>
      let f := filesConstructed w in
      (Normal f,
       with_trace (λ t, t ++ [NewRiveFile params (Some f)])
         (with_filesConstructed (S f) w))
  end.

(** [file.init()] *)
Definition file_init (f : RiveFile) (o : SetupOutcome) : M unit :=
  match o with
  | InitThrows => call (Init f false) ;; throw InitError
  | _ => call (Init f true)
  end.

(** [file.on(ty, handler)] *)
Definition file_on (l : Listener) : M unit :=
  call (On (l_file l) (l_type l)) ;;
  modify (with_listeners (λ ls, ls ++ [l])).

(** [file.getInstance()] *)
Definition file_getInstance (f : RiveFile) : M unit := call (GetInstance f).

(** [file.cleanup()] *)
Definition file_cleanup (f : RiveFile) (throws : bool) : M unit :=
  if throws then call (Cleanup f false) ;; throw CleanupError
  else call (Cleanup f true).

(** ** [RiveFileService] *)

Definition truthy (s : option string) : option string :=
  match s with
  | Some s => if decide (s = "") then None else Some s
  | None => None
  end.

(** [bufferWithId.__riveBufferId = ++this.bufferIdCounter]: the counter is
    incremented first; the assignment then adds the property, or throws a
    [TypeError] when the buffer is not extensible (class bodies are strict
    code).  The counter is taken to stay below 2^53, where [++] is exact. *)
Definition assignBufferId (b : ArrayBuffer) : M N := λ w,
  let c := (bufferIdCounter w + 1)%N in
  if extensible b then
    (Normal c, with_bufferId c (<[addr b := c]> (riveBufferId w)) w)
  else
    (Throw TypeError, with_bufferId c (riveBufferId w) w).

(** [private getCacheKey(params)] *)
Definition getCacheKey (params : RiveFileParams) : M string :=
  match truthy (src params) with
  | Some s => mret ("src:" +:+ s)
  | None =>
      match buffer params with
      | Some b =>
          id ← gets (λ w, riveBufferId w !! addr b);
          id' ← match id with
                | Some n => if decide (n = 0%N) then assignBufferId b else mret n
                | None => assignBufferId b
                end;
          mret ("buffer:" +:+ pretty id')
      | None => mret "unknown"
      end
  end.

(** The handler of [EventType.Load] *)
Definition onLoad (l : Listener) : M unit :=
  file_getInstance (l_file l) ;;
  signal_set (l_stateSignal l) {| riveFile := Some (l_file l); status := success |} ;;
  modify (with_cache (JsMap.set (l_cacheKey l)
    {| file := l_file l; state := l_stateSignal l; refCount := 1 |})) ;;
  modify (with_pendingLoads (JsMap.delete (l_cacheKey l))) ;;
  resolve (l_resolve l).

(** The handler of [EventType.LoadError] *)
Definition onLoadError (l : Listener) : M unit :=
  signal_set (l_stateSignal l) {| riveFile := None; status := failed |} ;;
  modify (with_pendingLoads (JsMap.delete (l_cacheKey l))) ;;
  resolve (l_resolve l).

Definition handler (l : Listener) : M unit :=
  match l_type l with
  | Load => onLoad l
  | LoadError => onLoadError l
  end.

(** [private loadRiveFile(params, stateSignal, cacheKey)]: the executor of
    [new Promise] runs before the promise is returned. *)
Definition loadRiveFile (params : RiveFileParams) (stateSignal : SignalRef)
    (cacheKey : string) (o : SetupOutcome) : M PromiseRef :=
  p ← new_promise;
  try_catch
    (f ← new_RiveFile params o;
     file_init f o ;;
     file_on {| l_file := f; l_type := Load; l_stateSignal := stateSignal;
                l_cacheKey := cacheKey; l_resolve := p |} ;;
     file_on {| l_file := f; l_type := LoadError; l_stateSignal := stateSignal;
                l_cacheKey := cacheKey; l_resolve := p |})
    (λ _,
     call ConsoleError ;;
     signal_set stateSignal {| riveFile := None; status := failed |} ;;
     modify (with_pendingLoads (JsMap.delete cacheKey)) ;;
     resolve p) ;;
  mret p.

(** [public loadFile(params)] *)
Definition loadFile (params : RiveFileParams) (o : SetupOutcome) : M SignalRef :=
  cacheKey ← getCacheKey params;
  cached ← gets (λ w, JsMap.get cacheKey (cache w));
  match cached with
  | Some c =>
      modify (with_cache (JsMap.set cacheKey
        {| file := file c; state := state c; refCount := refCount c + 1 |})) ;;
      mret (state c)
  | None =>
      pending ← gets (λ w, JsMap.get cacheKey (pendingLoads w));
      match pending with
      | Some p => mret (stateSignal p)
      | None =>
          s ← new_signal {| riveFile := None; status := loading |};
          pr ← loadRiveFile params s cacheKey o;
          modify (with_pendingLoads (JsMap.set cacheKey
            {| stateSignal := s; promise := pr |})) ;;
          mret s
      end
  end.

(** [public releaseFile(params)] *)
Definition releaseFile (params : RiveFileParams) (cleanupThrows : bool) : M unit :=
  cacheKey ← getCacheKey params;
  cached ← gets (λ w, JsMap.get cacheKey (cache w));
  match cached with
  | Some c =>
      let c' := {| file := file c; state := state c; refCount := refCount c - 1 |} in
      modify (with_cache (JsMap.set cacheKey c')) ;;
      if decide (refCount c' ≤ 0)%Z then
        try_catch (file_cleanup (file c') cleanupThrows) (λ _, call ConsoleWarn) ;;
        modify (with_cache (JsMap.delete cacheKey))
      else mret ()
  | None => mret ()
  end.

(** [public clearCache()] *)
Definition clearCache (cleanupThrows : RiveFile → bool) : M unit :=
  entries ← gets (λ w, JsMap.values (cache w));
  for_each entries (λ entry,
    try_catch (file_cleanup (file entry) (cleanupThrows (file entry)))
      (λ _, call ConsoleWarn)) ;;
  modify (with_cache (λ _, JsMap.empty)).

(** The runtime delivers the notification [ty] of [f]: the handlers
    registered for it run in registration order. *)
Definition notify (f : RiveFile) (ty : EventType) : M unit :=
  call (Notified f ty) ;;
  ls ← gets listeners;
  for_each (filter (λ l, l_file l = f ∧ l_type l = ty) ls) handler.

(** The earlier [getCacheKey], of the copy of the service kept in
    [services/rive-file.service.ts]: a buffer is keyed by its length. *)
Definition getCacheKey_byLength (params : RiveFileParams) : string :=
  match truthy (src params) with
  | Some s => "src:" +:+ s
  | None =>
      match buffer params with
      | Some b => "buffer:" +:+ pretty (N.of_nat (length (bytes b)))
      | None => "unknown"
      end
  end.

(** ** The service as a transition system

    Callers invoke the three public methods in any order; the runtime
    delivers at most one notification per file, and only for a file it has
    constructed.  Each step runs to completion before the next starts. *)

Inductive Action :=
| LoadFile (params : RiveFileParams) (o : SetupOutcome)
| ReleaseFile (params : RiveFileParams) (cleanupThrows : bool)
| ClearCache (cleanupThrows : RiveFile → bool)
| Notify (f : RiveFile) (ty : EventType).

Definition exec (a : Action) : M unit :=
  match a with
  | LoadFile params o => loadFile params o ;; mret ()
  | ReleaseFile params thr => releaseFile params thr
  | ClearCache thr => clearCache thr
  | Notify f ty => notify f ty
  end.

Definition unsettled (f : RiveFile) (w : World) : Prop :=
  f < filesConstructed w ∧ ∀ ty, Notified f ty ∉ trace w.

Definition enabled (a : Action) (w : World) : Prop :=
  match a with
  | Notify f _ => unsettled f w
  | _ => True
  end.

Inductive reachable : World → Prop :=
| reachable_initial : reachable initial
| reachable_step w a : reachable w → enabled a w → reachable (exec a w).2.

(** Several steps in a row *)
Inductive steps : World → World → Prop :=
| steps_refl w : steps w w
| steps_step w a w' : enabled a w → steps (exec a w).2 w' → steps w w'.

(** No key is both cached and pending *)
Definition exclusive (w : World) : Prop :=
  ∀ k, is_Some (JsMap.get k (cache w)) → JsMap.get k (pendingLoads w) = None.

(** The states the service reaches when nothing is assumed of the runtime:
    any notification may come at any time, any number of times. *)
Inductive reachable_any : World → Prop :=
| reachable_any_initial : reachable_any initial
| reachable_any_step w a : reachable_any w → reachable_any (exec a w).2.

(** ** Observations on a trace *)

Definition cleanups (t : list Call) : list RiveFile :=
  omap (λ c, match c with Cleanup f _ => Some f | _ => None end) t.

Definition constructions (t : list Call) : list (option RiveFile) :=
  omap (λ c, match c with NewRiveFile _ r => Some r | _ => None end) t.

Definition inits (t : list Call) : list RiveFile :=
  omap (λ c, match c with Init f _ => Some f | _ => None end) t.

(** ** The outcomes of the operations

    Each operation ends in one of a few ways.  The worlds it ends in are
    written out here; the lemmas of the second part show that the operations
    reach them. *)

Definition run {A} (m : M A) (w : World) : World := (m w).2.

(** The world after [getCacheKey] has tagged buffer [b] *)
Definition tagBuffer (b : ArrayBuffer) (w : World) : World :=
  with_bufferId (bufferIdCounter w + 1)
    (<[addr b := (bufferIdCounter w + 1)%N]> (riveBufferId w)) w.

(** A buffer carries no usable id: the property is missing, or is 0 *)
Definition untagged (b : ArrayBuffer) (w : World) : Prop :=
  riveBufferId w !! addr b = None ∨ riveBufferId w !! addr b = Some 0%N.

(** The world after [getCacheKey] has failed to tag a buffer: the counter
    has moved, no buffer carries the new number *)
Definition skipId (w : World) : World :=
  with_bufferId (bufferIdCounter w + 1) (riveBufferId w) w.

(** [getCacheKey] throws: no [src], and a buffer that carries no id and
    cannot be given one *)
Definition unkeyable (params : RiveFileParams) (w : World) : Prop :=
  truthy (src params) = None ∧
  ∃ b, buffer params = Some b ∧ untagged b w ∧ extensible b = false.

(** The four ways [getCacheKey] returns *)
Inductive KeyCase (params : RiveFileParams) (w : World) : string → World → Prop :=
| KeySrc s :
    truthy (src params) = Some s →
    KeyCase params w ("src:" +:+ s) w
| KeyUnknown :
    truthy (src params) = None → buffer params = None →
    KeyCase params w "unknown" w
| KeyTagged b n :
    truthy (src params) = None → buffer params = Some b →
    riveBufferId w !! addr b = Some n → n ≠ 0%N →
    KeyCase params w ("buffer:" +:+ pretty n) w
| KeyFresh b :
    truthy (src params) = None → buffer params = Some b →
    untagged b w → extensible b = true →
    KeyCase params w ("buffer:" +:+ pretty (bufferIdCounter w + 1)%N) (tagBuffer b w).

(** [loadFile] after the key is computed *)
Definition loadFile_at (cacheKey : string) (params : RiveFileParams)
    (o : SetupOutcome) : M SignalRef :=
  cached ← gets (λ w, JsMap.get cacheKey (cache w));
  match cached with
  | Some c =>
      modify (with_cache (JsMap.set cacheKey
        {| file := file c; state := state c; refCount := refCount c + 1 |})) ;;
      mret (state c)
  | None =>
      pending ← gets (λ w, JsMap.get cacheKey (pendingLoads w));
      match pending with
      | Some p => mret (stateSignal p)
      | None =>
          s ← new_signal {| riveFile := None; status := loading |};
          pr ← loadRiveFile params s cacheKey o;
          modify (with_pendingLoads (JsMap.set cacheKey
            {| stateSignal := s; promise := pr |})) ;;
          mret s
      end
  end.

(** [releaseFile] after the key is computed *)
Definition releaseFile_at (cacheKey : string) (cleanupThrows : bool) : M unit :=
  cached ← gets (λ w, JsMap.get cacheKey (cache w));
  match cached with
  | Some c =>
      let c' := {| file := file c; state := state c; refCount := refCount c - 1 |} in
      modify (with_cache (JsMap.set cacheKey c')) ;;
      if decide (refCount c' ≤ 0)%Z then
        try_catch (file_cleanup (file c') cleanupThrows) (λ _, call ConsoleWarn) ;;
        modify (with_cache (JsMap.delete cacheKey))
      else mret ()
  | None => mret ()
  end.

(** *** [loadFile] *)

Definition bump (c : CacheEntry) : CacheEntry :=
  {| file := file c; state := state c; refCount := refCount c + 1 |}.

Definition listenerOf (w : World) (cacheKey : string) (ty : EventType) : Listener :=
  {| l_file := filesConstructed w; l_type := ty;
     l_stateSignal := length (signals w); l_cacheKey := cacheKey;
     l_resolve := length (promises w) |}.

(** A miss whose set-up succeeds *)
Definition started (cacheKey : string) (params : RiveFileParams) (w : World) : World :=
  {| cache := cache w;
     pendingLoads :=
       JsMap.set cacheKey
         {| stateSignal := length (signals w); promise := length (promises w) |}
         (pendingLoads w);
     bufferIdCounter := bufferIdCounter w;
     signals := signals w ++ [{| riveFile := None; status := loading |}];
     promises := promises w ++ [PromisePending];
     riveBufferId := riveBufferId w;
     listeners :=
       listeners w ++ [listenerOf w cacheKey Load; listenerOf w cacheKey LoadError];
     filesConstructed := S (filesConstructed w);
     trace :=
       trace w ++ [NewRiveFile params (Some (filesConstructed w));
                   Init (filesConstructed w) true;
                   On (filesConstructed w) Load;
                   On (filesConstructed w) LoadError] |}.

(** A miss whose set-up throws: the [catch] block runs inside the executor,
    and [loadFile] registers the PendingLoad afterwards *)
Definition failedSetup (cacheKey : string) (params : RiveFileParams)
    (ctor : bool) (w : World) : World :=
  {| cache := cache w;
     pendingLoads :=
       JsMap.set cacheKey
         {| stateSignal := length (signals w); promise := length (promises w) |}
         (JsMap.delete cacheKey (pendingLoads w));
     bufferIdCounter := bufferIdCounter w;
     signals := signals w ++ [{| riveFile := None; status := failed |}];
     promises := promises w ++ [PromiseFulfilled];
     riveBufferId := riveBufferId w;
     listeners := listeners w;
     filesConstructed :=
       if ctor then filesConstructed w else S (filesConstructed w);
     trace :=
       trace w ++
         (if ctor then [NewRiveFile params None; ConsoleError]
          else [NewRiveFile params (Some (filesConstructed w));
                Init (filesConstructed w) false; ConsoleError]) |}.

(** *** [releaseFile] *)

Definition unbump (c : CacheEntry) : CacheEntry :=
  {| file := file c; state := state c; refCount := refCount c - 1 |}.

(** What one guarded [cleanup()] leaves in the trace *)
Definition cleanupCalls (f : RiveFile) (throws : bool) : list Call :=
  if throws then [Cleanup f false; ConsoleWarn] else [Cleanup f true].

(** *** Notifications *)

(** The [load] handler of listener [l] has run *)
Definition loaded (l : Listener) (w : World) : World :=
  {| cache :=
       JsMap.set (l_cacheKey l)
         {| file := l_file l; state := l_stateSignal l; refCount := 1 |} (cache w);
     pendingLoads := JsMap.delete (l_cacheKey l) (pendingLoads w);
     bufferIdCounter := bufferIdCounter w;
     signals :=
       <[l_stateSignal l := {| riveFile := Some (l_file l); status := success |}]>
         (signals w);
     promises := alter settle (l_resolve l) (promises w);
     riveBufferId := riveBufferId w;
     listeners := listeners w;
     filesConstructed := filesConstructed w;
     trace := trace w ++ [GetInstance (l_file l)] |}.

(** The [loaderror] handler of listener [l] has run *)
Definition loadFailed (l : Listener) (w : World) : World :=
  {| cache := cache w;
     pendingLoads := JsMap.delete (l_cacheKey l) (pendingLoads w);
     bufferIdCounter := bufferIdCounter w;
     signals :=
       <[l_stateSignal l := {| riveFile := None; status := failed |}]> (signals w);
     promises := alter settle (l_resolve l) (promises w);
     riveBufferId := riveBufferId w;
     listeners := listeners w;
     filesConstructed := filesConstructed w;
     trace := trace w |}.

Definition handled (l : Listener) (w : World) : World :=
  match l_type l with
  | Load => loaded l w
  | LoadError => loadFailed l w
  end.

Definition listening (f : RiveFile) (ty : EventType) (w : World) : list Listener :=
  filter (λ l, l_file l = f ∧ l_type l = ty) (listeners w).

(** ** The invariant of reachable states *)

Definition settled_by (f : RiveFile) (w : World) : Prop :=
  ∃ ty, Notified f ty ∈ trace w.

Record Inv (w : World) : Prop := {
  (** a key is cached or pending, never both *)
  inv_disjoint : ∀ k,
    is_Some (JsMap.get k (cache w)) → JsMap.get k (pendingLoads w) = None;
  (** buffer ids are positive, at most the counter, and not shared *)
  inv_ids_bound : ∀ a n,
    riveBufferId w !! a = Some n → (1 ≤ n ≤ bufferIdCounter w)%N;
  inv_ids_inj : ∀ a a' n,
    riveBufferId w !! a = Some n → riveBufferId w !! a' = Some n → a = a';
  inv_keys_bound : ∀ n,
    is_Some (JsMap.get ("buffer:" +:+ pretty n) (cache w)) ∨
    is_Some (JsMap.get ("buffer:" +:+ pretty n) (pendingLoads w)) →
    (n ≤ bufferIdCounter w)%N;
  (** a cache entry holds a loaded file and the signal of its episode *)
  inv_cache_keys : NoDup (JsMap.keys (cache w));
  inv_entry_signal : ∀ k e,
    JsMap.get k (cache w) = Some e →
    signals w !! state e =
      Some {| riveFile := Some (file e); status := success |};
  inv_entry_refCount : ∀ k e,
    JsMap.get k (cache w) = Some e → (1 ≤ refCount e)%Z;
  inv_entry_loaded : ∀ k e,
    JsMap.get k (cache w) = Some e → GetInstance (file e) ∈ trace w;
  inv_entry_listener : ∀ k e l,
    JsMap.get k (cache w) = Some e → l ∈ listeners w →
    l_stateSignal l = state e → l_file l = file e;
  inv_files_NoDup : NoDup (file <$> JsMap.values (cache w));
  (** listeners belong to constructed files and allocated objects *)
  inv_listener_file : ∀ l, l ∈ listeners w → l_file l < filesConstructed w;
  inv_listener_signal : ∀ l, l ∈ listeners w → l_stateSignal l < length (signals w);
  inv_listener_promise : ∀ l, l ∈ listeners w → l_resolve l < length (promises w);
  inv_listener_on : ∀ l, l ∈ listeners w → On (l_file l) (l_type l) ∈ trace w;
  inv_listeners_NoDup : NoDup ((λ l, (l_file l, l_type l)) <$> listeners w);
  inv_listener_episode : ∀ l l',
    l ∈ listeners w → l' ∈ listeners w →
    l_stateSignal l = l_stateSignal l' → l_file l = l_file l';
  (** the listeners of a file that has not been notified belong to the
      PendingLoad of their key *)
  inv_inflight : ∀ l,
    l ∈ listeners w → ¬ settled_by (l_file l) w →
    JsMap.get (l_cacheKey l) (pendingLoads w) =
      Some {| stateSignal := l_stateSignal l; promise := l_resolve l |};
  (** no promise is ever rejected *)
  inv_promises : PromiseRejected ∉ promises w;
  (** the trace *)
  inv_trace_cleanup : ∀ f ok, Cleanup f ok ∈ trace w → GetInstance f ∈ trace w;
  inv_trace_instance : ∀ f,
    GetInstance f ∈ trace w → Notified f Load ∈ trace w ∧ On f Load ∈ trace w;
  inv_trace_on : ∀ f ty,
    On f ty ∈ trace w → f < filesConstructed w ∧ Init f false ∉ trace w;
  inv_trace_init : ∀ f ok, Init f ok ∈ trace w → f < filesConstructed w;
  inv_trace_once : ∀ f ty ty',
    Notified f ty ∈ trace w → Notified f ty' ∈ trace w → ty = ty';
}.

(** A key of the form [buffer:n] was made from an id that was handed out *)
Definition key_ok (k : string) (w : World) : Prop :=
  ∀ n, k = "buffer:" +:+ pretty n → (n ≤ bufferIdCounter w)%N.

(** Calls that the guarded clean-ups append to the trace *)
Definition cleanupLog (cs : list Call) (w : World) : Prop :=
  ∀ c, c ∈ cs →
    c = ConsoleWarn ∨ ∃ f ok, c = Cleanup f ok ∧ GetInstance f ∈ trace w.

(** ** Scenarios and statements

    Repeated calls, for the ref-counting scenario *)

Definition loads (n : nat) (params : RiveFileParams) (o : SetupOutcome)
    (w : World) : World :=
  Nat.iter n (run (loadFile params o)) w.

Definition releases (n : nat) (params : RiveFileParams) (thr : bool)
    (w : World) : World :=
  Nat.iter n (run (releaseFile params thr)) w.

(** [params] has been given the key [k]: computing the key is now free of
    effects *)
Definition keyed (params : RiveFileParams) (k : string) (w : World) : Prop :=
  ∀ w', riveBufferId w' = riveBufferId w → getCacheKey params w' = (Normal k, w').

(** The parameters an action passes to [getCacheKey] *)
Definition params_of (a : Action) : option RiveFileParams :=
  match a with
  | LoadFile params _ | ReleaseFile params _ => Some params
  | _ => None
  end.




(** The actions that take entries out of the cache map *)
Definition releases_entries (a : Action) : Prop :=
  match a with
  | ReleaseFile _ _ | ClearCache _ => True
  | _ => False
  end.

(** ** Inputs of the examples

    Two URLs, and two buffer objects with the same bytes. *)

Definition params_a : RiveFileParams := {| src := Some "a.riv"; buffer := None |}.

Definition params_b : RiveFileParams := {| src := Some "b.riv"; buffer := None |}.

Definition buffer_1 : ArrayBuffer :=
  {| addr := 1; bytes := [82; 73; 86; 69]%N; extensible := true |}.

Definition buffer_2 : ArrayBuffer :=
  {| addr := 2; bytes := [82; 73; 86; 69]%N; extensible := true |}.

Definition params_buffer_1 : RiveFileParams :=
  {| src := None; buffer := Some buffer_1 |}.


Definition params_buffer_2 : RiveFileParams :=
  {| src := None; buffer := Some buffer_2 |}.



(** ** Further observations, invariants and scenarios *)

(** The files [getInstance] was called on, in order *)
Definition instances (t : list Call) : list RiveFile :=
  omap (λ c, match c with GetInstance f => Some f | _ => None end) t.

(** The three values a state signal takes *)
Definition state_shape (v : RiveFileState) : Prop :=
  v = {| riveFile := None; status := loading |} ∨
  v = {| riveFile := None; status := failed |} ∨
  ∃ f, v = {| riveFile := Some f; status := success |}.

(** More of what holds in every reachable state: the book-keeping of
    signals, promises and calls into the runtime. *)
Record Ledger (w : World) : Prop := {
  (** signals *)
  led_signals : ∀ s v, signals w !! s = Some v → state_shape v;
  led_inflight_loading : ∀ l,
    l ∈ listeners w → ¬ settled_by (l_file l) w →
    signals w !! l_stateSignal l = Some {| riveFile := None; status := loading |};
  (** promises *)
  led_inflight_pending : ∀ l,
    l ∈ listeners w → ¬ settled_by (l_file l) w →
    promises w !! l_resolve l = Some PromisePending;
  led_promise_episode : ∀ l l',
    l ∈ listeners w → l' ∈ listeners w →
    l_resolve l = l_resolve l' → l_file l = l_file l';
  (** calls *)
  led_cleanups_NoDup : NoDup (cleanups (trace w));
  led_cleaned_gone : ∀ k e,
    JsMap.get k (cache w) = Some e → file e ∉ cleanups (trace w);
  led_instances_NoDup : NoDup (instances (trace w));
}.

(** A run of the service: [a.riv] is loaded and cached, [b.riv] fails to
    load, a buffer is being loaded, and [a.riv] is released. *)
Definition sample_run : list Action :=
  [LoadFile params_a SetupOk; Notify 0 Load;
   LoadFile params_b SetupOk; Notify 1 LoadError;
   LoadFile params_buffer_1 SetupOk; LoadFile params_a SetupOk;
   ReleaseFile params_a true].

Definition exec_all (acts : list Action) (w : World) : World :=
  foldl (λ w a, (exec a w).2) w acts.

Definition sample_world : World := exec_all sample_run initial.

(** Two parameter objects name the same resource: the same non-empty URL,
    or no URL and the same buffer object, or no URL and no buffer. *)
Definition same_resource (p1 p2 : RiveFileParams) : Prop :=
  match truthy (src p1), truthy (src p2) with
  | Some s1, Some s2 => s1 = s2
  | None, None =>
      match buffer p1, buffer p2 with
      | Some b1, Some b2 => addr b1 = addr b2
      | None, None => True
      | _, _ => False
      end
  | _, _ => False
  end.

(** The buffer that a call hands to the service, if any, is extensible *)
Definition extensible_call (a : Action) : Prop :=
  match params_of a with
  | Some params =>
      match buffer params with
      | Some b => extensible b = true
      | None => True
      end
  | None => True
  end.

(** The states the service reaches when no call brings a buffer that is
    not extensible *)
Inductive reachable_extensible : World → Prop :=
| reachable_extensible_initial : reachable_extensible initial
| reachable_extensible_step w a :
    reachable_extensible w → enabled a w → extensible_call a →
    reachable_extensible (exec a w).2.

(** Every number up to the counter is the id of some buffer *)
Definition ids_onto (w : World) : Prop :=
  ∀ n, (1 ≤ n ≤ bufferIdCounter w)%N → ∃ a, riveBufferId w !! a = Some n.

(** The episode of key [k] died in its set-up: the PendingLoad is still
    registered, its signal [s] says [failed], and no listener of the key
    waits for a notification. *)
Definition dead_episode (k : string) (s : SignalRef) (w : World) : Prop :=
  (∃ p, JsMap.get k (pendingLoads w) = Some {| stateSignal := s; promise := p |}) ∧
  JsMap.get k (cache w) = None ∧
  signals w !! s = Some {| riveFile := None; status := failed |} ∧
  ∀ l, l ∈ listeners w → l_cacheKey l = k → settled_by (l_file l) w.

(** A call of [loadFile] or [releaseFile] with the parameters [params] *)
Definition calls_for (params : RiveFileParams) (a : Action) : Prop :=
  match a with
  | LoadFile p _ | ReleaseFile p _ => p = params
  | _ => False
  end.

(** ** The earlier [RiveFileService]

    [services/rive-file.service.ts] holds the service as it was before
    [pendingLoads] and [bufferIdCounter] were added: a buffer is keyed by its
    length ([getCacheKey_byLength]), and a miss always starts a load.  Its
    handlers capture no promise: the field [l_resolve] of their listeners is
    not used. *)

Module Earlier.

(** The handler of [EventType.Load] *)
Definition onLoad (l : Listener) : M unit :=
  file_getInstance (l_file l) ;;
  signal_set (l_stateSignal l) {| riveFile := Some (l_file l); status := success |} ;;
  modify (with_cache (JsMap.set (l_cacheKey l)
    {| file := l_file l; state := l_stateSignal l; refCount := 1 |})).

(** The handler of [EventType.LoadError] *)
Definition onLoadError (l : Listener) : M unit :=
  signal_set (l_stateSignal l) {| riveFile := None; status := failed |}.

Definition handler (l : Listener) : M unit :=
  match l_type l with
  | Load => onLoad l
  | LoadError => onLoadError l
  end.

(** [private loadRiveFile(params, stateSignal, cacheKey)] *)
Definition loadRiveFile (params : RiveFileParams) (stateSignal : SignalRef)
    (cacheKey : string) (o : SetupOutcome) : M unit :=
  try_catch
    (f ← new_RiveFile params o;
     file_init f o ;;
     file_on {| l_file := f; l_type := Load; l_stateSignal := stateSignal;
                l_cacheKey := cacheKey; l_resolve := 0 |} ;;
     file_on {| l_file := f; l_type := LoadError; l_stateSignal := stateSignal;
                l_cacheKey := cacheKey; l_resolve := 0 |})
    (λ _,
     call ConsoleError ;;
     signal_set stateSignal {| riveFile := None; status := failed |}).

(** [public loadFile(params)] *)
Definition loadFile (params : RiveFileParams) (o : SetupOutcome) : M SignalRef :=
  let cacheKey := getCacheKey_byLength params in
  cached ← gets (λ w, JsMap.get cacheKey (cache w));
  match cached with
  | Some c =>
      modify (with_cache (JsMap.set cacheKey
        {| file := file c; state := state c; refCount := refCount c + 1 |})) ;;
      mret (state c)
  | None =>
      s ← new_signal {| riveFile := None; status := loading |};
      loadRiveFile params s cacheKey o ;;
      mret s
  end.

(** [public releaseFile(params)] *)
Definition releaseFile (params : RiveFileParams) (cleanupThrows : bool) : M unit :=
  let cacheKey := getCacheKey_byLength params in
  cached ← gets (λ w, JsMap.get cacheKey (cache w));
  match cached with
  | Some c =>
      let c' := {| file := file c; state := state c; refCount := refCount c - 1 |} in
      modify (with_cache (JsMap.set cacheKey c')) ;;
      if decide (refCount c' ≤ 0)%Z then
        try_catch (file_cleanup (file c') cleanupThrows) (λ _, call ConsoleWarn) ;;
        modify (with_cache (JsMap.delete cacheKey))
      else mret ()
  | None => mret ()
  end.

(** [public clearCache()] *)
Definition clearCache (cleanupThrows : RiveFile → bool) : M unit :=
  entries ← gets (λ w, JsMap.values (cache w));
  for_each entries (λ entry,
    try_catch (file_cleanup (file entry) (cleanupThrows (file entry)))
      (λ _, call ConsoleWarn)) ;;
  modify (with_cache (λ _, JsMap.empty)).

(** The runtime delivers the notification [ty] of [f] *)
Definition notify (f : RiveFile) (ty : EventType) : M unit :=
  call (Notified f ty) ;;
  ls ← gets listeners;
  for_each (filter (λ l, l_file l = f ∧ l_type l = ty) ls) handler.

Definition exec (a : Action) : M unit :=
  match a with
  | LoadFile params o => loadFile params o ;; mret ()
  | ReleaseFile params thr => releaseFile params thr
  | ClearCache thr => clearCache thr
  | Notify f ty => notify f ty
  end.

(** The states of the earlier service; nothing is assumed of the runtime *)
Inductive reachable : World → Prop :=
| earlier_initial : reachable initial
| earlier_step w a : reachable w → reachable (exec a w).2.

(** *** Outcomes *)

Definition listenerOf (w : World) (cacheKey : string) (ty : EventType) : Listener :=
  {| l_file := filesConstructed w; l_type := ty;
     l_stateSignal := length (signals w); l_cacheKey := cacheKey;
     l_resolve := 0 |}.

(** A miss whose set-up succeeds *)
Definition started (cacheKey : string) (params : RiveFileParams) (w : World) : World :=
  {| cache := cache w;
     pendingLoads := pendingLoads w;
     bufferIdCounter := bufferIdCounter w;
     signals := signals w ++ [{| riveFile := None; status := loading |}];
     promises := promises w;
     riveBufferId := riveBufferId w;
     listeners :=
       listeners w ++ [listenerOf w cacheKey Load; listenerOf w cacheKey LoadError];
     filesConstructed := S (filesConstructed w);
     trace :=
       trace w ++ [NewRiveFile params (Some (filesConstructed w));
                   Init (filesConstructed w) true;
                   On (filesConstructed w) Load;
                   On (filesConstructed w) LoadError] |}.

(** A miss whose set-up throws, in the constructor ([ctor]) or in [init] *)
Definition failedSetup (params : RiveFileParams) (ctor : bool) (w : World) : World :=
  {| cache := cache w;
     pendingLoads := pendingLoads w;
     bufferIdCounter := bufferIdCounter w;
     signals := signals w ++ [{| riveFile := None; status := failed |}];
     promises := promises w;
     riveBufferId := riveBufferId w;
     listeners := listeners w;
     filesConstructed :=
       if ctor then filesConstructed w else S (filesConstructed w);
     trace :=
       trace w ++
       (if ctor then [NewRiveFile params None]
        else [NewRiveFile params (Some (filesConstructed w));
              Init (filesConstructed w) false]) ++
       [ConsoleError] |}.

(** Listeners belong to files that were constructed *)
Definition listeners_bound (w : World) : Prop :=
  ∀ l, l ∈ listeners w → l_file l < filesConstructed w.

(** So do the files of cache entries and the files that were cleaned up *)
Definition files_bound (w : World) : Prop :=
  listeners_bound w ∧
  (∀ e, e ∈ JsMap.values (cache w) → file e < filesConstructed w) ∧
  (∀ f, f ∈ cleanups (trace w) → f < filesConstructed w).

(** Several steps in a row, when the runtime notifies each file at most
    once, as the newer service is taken to be used *)
Inductive steps : World → World → Prop :=
| earlier_steps_refl w : steps w w
| earlier_steps_step w a w' : enabled a w → steps (exec a w).2 w' → steps w w'.

(** File [f] has had its notification, no cache entry holds it, and it has
    not been cleaned up *)
Definition orphaned (f : RiveFile) (w : World) : Prop :=
  settled_by f w ∧ (f ∉ cleanups (trace w)) ∧
  ∀ e, e ∈ JsMap.values (cache w) → file e ≠ f.

End Earlier.

(** ** Tactics *)

(** Unfold the monad and the record updates down to the fields *)
Ltac wsimpl :=
  cbv [mret mbind M_ret M_bind gets modify call throw try_catch
       with_cache with_pendingLoads with_bufferId with_signals with_promises
       with_listeners with_filesConstructed with_trace
       new_signal signal_set new_promise resolve new_RiveFile file_init
       file_on file_getInstance file_cleanup] in *;
  simpl in *.

Ltac Inv_destruct H :=
  destruct H as [Hdisj Hidb Hidi Hkb Hck Hesig Herc Heload Helis Hfnd Hlf Hls
                 Hlp Hlon Hlnd Hlep Hinfl Hprom Htc Hti Hton Htinit Honce];
  unfold settled_by in *.

Tactic Notation "elems" :=
  rewrite ?elem_of_app, ?elem_of_cons, ?elem_of_nil.
Tactic Notation "elems" "in" hyp(H) :=
  rewrite ?elem_of_app, ?elem_of_cons, ?elem_of_nil in H.

Ltac Ledger_destruct H :=
  destruct H as [Lsig Lload Lpend Lpep Lcl Lgone Lins];
  unfold settled_by in *.

(** ** Facts about [JsMap] *)

Section JsMapFacts.
Context {V : Type}.
Implicit Types (m : JsMap.t V) (v : V) (k : string).

Lemma JsMap_get_set k v m k' :
  JsMap.get k' (JsMap.set k v m) = if decide (k = k') then Some v else JsMap.get k' m.
Proof.
  induction m as [|[k0 v0] m IH]; simpl.
  - repeat case_decide; congruence.
  - destruct (decide (k0 = k)) as [->|Hne]; simpl.
    + repeat case_decide; congruence.
    + rewrite IH. repeat case_decide; congruence.
Qed.

Lemma JsMap_get_set_eq k v m : JsMap.get k (JsMap.set k v m) = Some v.
Proof. rewrite JsMap_get_set. by rewrite decide_True. Qed.

Lemma JsMap_get_set_ne k v m k' : k ≠ k' → JsMap.get k' (JsMap.set k v m) = JsMap.get k' m.
Proof. intros. rewrite JsMap_get_set. by rewrite decide_False. Qed.

Lemma JsMap_get_delete k m k' :
  JsMap.get k' (JsMap.delete k m) = if decide (k = k') then None else JsMap.get k' m.
Proof.
  induction m as [|[k0 v0] m IH]; simpl.
  - by case_decide.
  - destruct (decide (k0 = k)) as [->|Hne]; simpl.
    + rewrite IH. repeat case_decide; congruence.
    + rewrite IH. repeat case_decide; congruence.
Qed.

Lemma JsMap_get_delete_eq k m : JsMap.get k (JsMap.delete k m) = None.
Proof. rewrite JsMap_get_delete. by rewrite decide_True. Qed.

Lemma JsMap_get_delete_ne k m k' : k ≠ k' → JsMap.get k' (JsMap.delete k m) = JsMap.get k' m.
Proof. intros. rewrite JsMap_get_delete. by rewrite decide_False. Qed.

Lemma JsMap_delete_absent k m : JsMap.get k m = None → JsMap.delete k m = m.
Proof.
  induction m as [|[k0 v0] m IH]; simpl; [done|].
  case_decide; [done|]. intros H'. by rewrite IH.
Qed.

Lemma JsMap_get_Some_elem k v m : JsMap.get k m = Some v → (k, v) ∈ m.
Proof.
  induction m as [|[k0 v0] m IH]; simpl; [done|].
  case_decide as Hk.
  - intros [= ->]. subst. left.
  - intros. right. auto.
Qed.

Lemma JsMap_elem_get_is_Some k v m : (k, v) ∈ m → is_Some (JsMap.get k m).
Proof.
  induction m as [|[k0 v0] m IH]; simpl.
  - by intros ?%elem_of_nil.
  - intros [[= -> ->]|Hin]%elem_of_cons.
    + rewrite decide_True; eauto.
    + case_decide; eauto.
Qed.

Lemma JsMap_elem_get k v m : NoDup (JsMap.keys m) → (k, v) ∈ m → JsMap.get k m = Some v.
Proof.
  unfold JsMap.keys. induction m as [|[k0 v0] m IH]; simpl.
  - by intros _ ?%elem_of_nil.
  - intros [Hnin Hnd]%NoDup_cons [[= -> ->]|Hin]%elem_of_cons.
    + by rewrite decide_True.
    + rewrite decide_False; [auto|].
      intros ->. apply Hnin. apply list_elem_of_fmap. by exists (k, v).
Qed.

Lemma JsMap_elem_delete k m k' v' :
  (k', v') ∈ JsMap.delete k m ↔ k' ≠ k ∧ (k', v') ∈ m.
Proof.
  induction m as [|[k0 v0] m IH]; simpl.
  - split; [by intros ?%elem_of_nil|by intros [_ ?%elem_of_nil]].
  - case_decide as Hk; subst.
    + rewrite IH, elem_of_cons. split; [tauto|]. intros [? [[=]|?]]; done.
    + rewrite !elem_of_cons, IH. split; [intros [[= -> ->]|[? ?]]; auto|].
      intros [? [?|?]]; auto.
Qed.

Lemma JsMap_keys_delete_NoDup k m : NoDup (JsMap.keys m) → NoDup (JsMap.keys (JsMap.delete k m)).
Proof.
  unfold JsMap.keys. induction m as [|[k0 v0] m IH]; simpl; [done|].
  intros [Hnin Hnd]%NoDup_cons. case_decide; [auto|].
  simpl. apply NoDup_cons. split; [|auto].
  intros [[k1 v1] [Heq Hin]]%list_elem_of_fmap. simpl in Heq. subst k1.
  apply JsMap_elem_delete in Hin as [_ Hin].
  apply Hnin. apply list_elem_of_fmap. by exists (k0, v1).
Qed.

Lemma JsMap_keys_set k v m :
  JsMap.keys (JsMap.set k v m) =
    match JsMap.get k m with Some _ => JsMap.keys m | None => JsMap.keys m ++ [k] end.
Proof.
  unfold JsMap.keys. induction m as [|[k0 v0] m IH]; simpl; [done|].
  case_decide; subst; simpl; [done|].
  fold (fmap (M:=list) (@fst string V)). rewrite IH. by destruct (JsMap.get k m).
Qed.

Lemma JsMap_get_None_keys k m : JsMap.get k m = None ↔ k ∉ JsMap.keys m.
Proof.
  unfold JsMap.keys. induction m as [|[k0 v0] m IH]; simpl.
  - split; [intros _ ?%elem_of_nil; done|done].
  - rewrite not_elem_of_cons.
    destruct (decide (k0 = k)) as [->|Hne].
    + split; [done|]. by intros [? _].
    + rewrite IH. split; [intros; split; [congruence|done]|by intros [_ ?]].
Qed.

Lemma JsMap_keys_set_NoDup k v m : NoDup (JsMap.keys m) → NoDup (JsMap.keys (JsMap.set k v m)).
Proof.
  intros Hnd. rewrite JsMap_keys_set. destruct (JsMap.get k m) eqn:Hg; [done|].
  apply NoDup_app. split_and!; [done| |apply NoDup_singleton].
  intros x Hx ->%list_elem_of_singleton. by apply JsMap_get_None_keys in Hg.
Qed.

End JsMapFacts.

(** ** How the operations run *)

Lemma assignBufferId_run b w :
  assignBufferId b w =
    if extensible b then (Normal (bufferIdCounter w + 1)%N, tagBuffer b w)
    else (Throw TypeError, skipId w).
Proof. done. Qed.

(** [getCacheKey] returns in one of the four ways of [KeyCase], or throws
    the [TypeError] of the assignment *)
Lemma getCacheKey_case params w :
  (∃ k w1, getCacheKey params w = (Normal k, w1) ∧ KeyCase params w k w1) ∨
  (getCacheKey params w = (Throw TypeError, skipId w) ∧ unkeyable params w).
Proof.
  unfold getCacheKey, unkeyable.
  destruct (truthy (src params)) as [s|] eqn:Hs.
  { left. eexists _, _. split; [done|]. by constructor. }
  destruct (buffer params) as [b|] eqn:Hb.
  2:{ left. eexists _, _. split; [done|]. by constructor. }
  unfold mbind, M_bind, gets, assignBufferId; simpl.
  destruct (riveBufferId w !! addr b) as [n|] eqn:Hid.
  - destruct (decide (n = 0%N)) as [->|Hn]; simpl.
    + destruct (extensible b) eqn:Hext.
      * left. eexists _, _. split; [done|]. eapply KeyFresh; eauto. by right.
      * right. split; [done|]. split; [done|]. exists b. split_and!; [done| |done].
        by right.
    + left. eexists _, _. split; [done|]. eapply KeyTagged; eauto.
  - simpl. destruct (extensible b) eqn:Hext.
    + left. eexists _, _. split; [done|]. eapply KeyFresh; eauto. by left.
    + right. split; [done|]. split; [done|]. exists b. split_and!; [done| |done].
      by left.
Qed.

(** A key that was returned came in one of the four ways *)
Lemma getCacheKey_Normal_case params w k w1 :
  getCacheKey params w = (Normal k, w1) → KeyCase params w k w1.
Proof.
  intros Hk. destruct (getCacheKey_case params w) as [(k' & w1' & Hk' & Hcase)|[Hk' _]].
  - rewrite Hk in Hk'. by injection Hk' as <- <-.
  - rewrite Hk in Hk'. discriminate Hk'.
Qed.

Lemma loadFile_unfold params o w k w1 :
  getCacheKey params w = (Normal k, w1) →
  loadFile params o w = loadFile_at k params o w1.
Proof. intros Hk. unfold loadFile, mbind, M_bind at 1. by rewrite Hk. Qed.

(** When the key cannot be computed the call ends with the [TypeError] *)
Lemma loadFile_throw params o w e w1 :
  getCacheKey params w = (Throw e, w1) →
  loadFile params o w = (Throw e, w1).
Proof. intros Hk. unfold loadFile, mbind, M_bind at 1. by rewrite Hk. Qed.

Lemma releaseFile_throw params thr w e w1 :
  getCacheKey params w = (Throw e, w1) →
  releaseFile params thr w = (Throw e, w1).
Proof. intros Hk. unfold releaseFile, mbind, M_bind at 1. by rewrite Hk. Qed.

Lemma exec_LoadFile_throw params o w e w1 :
  getCacheKey params w = (Throw e, w1) →
  exec (LoadFile params o) w = (Throw e, w1).
Proof.
  intros Hk. simpl. unfold mbind, M_bind at 1. by rewrite (loadFile_throw _ _ _ _ _ Hk).
Qed.

Lemma releaseFile_unfold params thr w k w1 :
  getCacheKey params w = (Normal k, w1) →
  releaseFile params thr w = releaseFile_at k thr w1.
Proof. intros Hk. unfold releaseFile, mbind, M_bind at 1. by rewrite Hk. Qed.

Lemma insert_snoc {A} (l : list A) (x y : A) :
  <[length l := y]> (l ++ [x]) = l ++ [y].
Proof. induction l as [|a l IH]; simpl; [done|]. by rewrite IH. Qed.

Lemma alter_snoc {A} (f : A → A) (l : list A) (x : A) :
  alter f (length l) (l ++ [x]) = l ++ [f x].
Proof. induction l as [|a l IH]; simpl; [done|]. by f_equal. Qed.

Lemma JsMap_delete_set {V} k (v : V) m :
  JsMap.delete k (JsMap.set k v m) = JsMap.delete k m.
Proof.
  induction m as [|[k0 v0] m IH]; simpl.
  - by rewrite decide_True.
  - destruct (decide (k0 = k)) as [->|Hne]; simpl.
    + by rewrite decide_True.
    + rewrite decide_False by done. by rewrite IH.
Qed.

Lemma JsMap_set_absent {V} k (v : V) m :
  JsMap.get k m = None → JsMap.set k v m = m ++ [(k, v)].
Proof.
  induction m as [|[k0 v0] m IH]; simpl; [done|].
  case_decide; [done|]. intros Hg. by rewrite IH.
Qed.

(** *** [loadFile] *)

Lemma loadFile_at_hit k params o w c :
  JsMap.get k (cache w) = Some c →
  loadFile_at k params o w = (Normal (state c), with_cache (JsMap.set k (bump c)) w).
Proof.
  intros Hc. unfold loadFile_at. wsimpl. by rewrite Hc.
Qed.

Lemma loadFile_at_join k params o w p :
  JsMap.get k (cache w) = None →
  JsMap.get k (pendingLoads w) = Some p →
  loadFile_at k params o w = (Normal (stateSignal p), w).
Proof.
  intros Hc Hp. unfold loadFile_at. wsimpl. by rewrite Hc, Hp.
Qed.

Lemma loadFile_at_miss k params o w :
  JsMap.get k (cache w) = None →
  JsMap.get k (pendingLoads w) = None →
  loadFile_at k params o w =
    (Normal (length (signals w)),
     match o with
     | SetupOk => started k params w
     | ConstructorThrows => failedSetup k params true w
     | InitThrows => failedSetup k params false w
     end).
Proof.
  intros Hc Hp. unfold loadFile_at, loadRiveFile. wsimpl.
  rewrite Hc, Hp. destruct w as [c pl ctr sg pr ids ls n tr]; simpl in *.
  destruct o; simpl; unfold started, failedSetup, listenerOf; simpl;
    rewrite <- ?(assoc_L (++)); simpl;
    rewrite ?insert_snoc, ?alter_snoc; done.
Qed.

(** *** [releaseFile] *)

Lemma guarded_cleanup f thr w :
  try_catch (file_cleanup f thr) (λ _, call ConsoleWarn) w =
    (Normal (), with_trace (λ t, t ++ cleanupCalls f thr) w).
Proof.
  destruct w as [c pl ctr sg pr ids ls n tr].
  destruct thr; unfold file_cleanup, cleanupCalls; wsimpl;
    rewrite <- ?(assoc_L (++)); done.
Qed.

Lemma releaseFile_at_absent k thr w :
  JsMap.get k (cache w) = None →
  releaseFile_at k thr w = (Normal (), w).
Proof. intros Hc. unfold releaseFile_at. wsimpl. by rewrite Hc. Qed.

Lemma releaseFile_at_keep k thr w c :
  JsMap.get k (cache w) = Some c →
  (0 < refCount c - 1)%Z →
  releaseFile_at k thr w = (Normal (), with_cache (JsMap.set k (unbump c)) w).
Proof.
  intros Hc Hpos. unfold releaseFile_at. wsimpl. rewrite Hc.
  rewrite decide_False by lia. done.
Qed.

Lemma releaseFile_at_last k thr w c :
  JsMap.get k (cache w) = Some c →
  (refCount c - 1 ≤ 0)%Z →
  releaseFile_at k thr w =
    (Normal (),
     with_cache (JsMap.delete k)
       (with_trace (λ t, t ++ cleanupCalls (file c) thr) w)).
Proof.
  intros Hc Hpos. unfold releaseFile_at.
  unfold mbind, M_bind at 1. unfold gets at 1. rewrite Hc.
  cbv zeta. simpl refCount. rewrite decide_True by done.
  unfold mbind, M_bind, modify. rewrite guarded_cleanup.
  destruct w as [c0 pl ctr sg pr ids ls n tr]. wsimpl.
  by rewrite JsMap_delete_set.
Qed.

(** *** [clearCache] *)

Lemma for_each_cleanup (thr : RiveFile → bool) (entries : list CacheEntry) w :
  for_each entries (λ entry,
    try_catch (file_cleanup (file entry) (thr (file entry)))
      (λ _, call ConsoleWarn)) w =
  (Normal (),
   with_trace (λ t, t ++ flat_map (λ e, cleanupCalls (file e) (thr (file e))) entries) w).
Proof.
  revert w. induction entries as [|e entries IH]; intros w; simpl.
  - destruct w. wsimpl. by rewrite (right_id_L [] (++)).
  - unfold mbind, M_bind. rewrite guarded_cleanup, IH.
    destruct w. wsimpl. by rewrite <- (assoc_L (++)).
Qed.

Lemma clearCache_run thr w :
  clearCache thr w =
    (Normal (),
     with_cache (λ _, JsMap.empty)
       (with_trace (λ t, t ++ flat_map (λ e, cleanupCalls (file e) (thr (file e)))
                                (JsMap.values (cache w))) w)).
Proof.
  unfold clearCache. unfold mbind, M_bind at 1. unfold gets at 1.
  unfold mbind, M_bind. rewrite for_each_cleanup. done.
Qed.

(** *** Notifications *)

Lemma handler_run l w : handler l w = (Normal (), handled l w).
Proof.
  unfold handler, handled, onLoad, onLoadError, loaded, loadFailed.
  destruct w. destruct (l_type l); wsimpl; done.
Qed.

Lemma for_each_handler ls w :
  for_each ls handler w = (Normal (), foldl (λ w l, handled l w) w ls).
Proof.
  revert w. induction ls as [|l ls IH]; intros w; simpl; [done|].
  unfold mbind, M_bind. by rewrite handler_run, IH.
Qed.

Lemma notify_run f ty w :
  notify f ty w =
    (Normal (),
     foldl (λ w l, handled l w) (with_trace (λ t, t ++ [Notified f ty]) w)
       (listening f ty w)).
Proof.
  unfold notify. unfold mbind, M_bind at 1. unfold call, modify at 1.
  unfold mbind, M_bind at 1. unfold gets. rewrite for_each_handler.
  by destruct w.
Qed.

(** ** The invariant holds in every reachable state *)

Lemma Inv_initial : Inv initial.
Proof.
  split; simpl; try (intros; by apply NoDup_nil); try set_solver.
  all: intros *; rewrite ?lookup_empty; try done.
  all: try by intros [[? [=]]|[? [=]]].
  all: try by intros [? [=]].
Qed.

Lemma buffer_key_inj (m n : N) :
  "buffer:" +:+ pretty m = "buffer:" +:+ pretty n → m = n.
Proof. simpl. intros [= H]. by apply (inj pretty). Qed.

Lemma Inv_tagBuffer b w : Inv w → untagged b w → Inv (tagBuffer b w).
Proof.
  intros HI Hun. destruct w as [c pl ctr sg pr ids ls n tr].
  Inv_destruct HI.
  unfold untagged in Hun. split; simpl in *; try done.
  - intros a m. rewrite lookup_insert. case_decide.
    + intros [= <-]. lia.
    + intros Hm. apply Hidb in Hm. lia.
  - intros a a' m. rewrite !lookup_insert. repeat case_decide; subst.
    + done.
    + intros [= <-] Hm. apply Hidb in Hm. lia.
    + intros Hm [= <-]. apply Hidb in Hm. lia.
    + eauto.
  - intros m Hm. apply Hkb in Hm. lia.
Qed.

Lemma Inv_skipId w : Inv w → Inv (skipId w).
Proof.
  intros HI. destruct w as [c pl ctr sg pr ids ls n tr].
  Inv_destruct HI. split; simpl in *; try done.
  - intros a m Hm. apply Hidb in Hm. lia.
  - intros m Hm. apply Hkb in Hm. lia.
Qed.

Lemma KeyCase_Inv params w k w1 :
  Inv w → KeyCase params w k w1 → Inv w1 ∧ key_ok k w1.
Proof.
  intros HI Hk. destruct Hk as [s Hs|Hs Hb|b n Hs Hb Hid Hn|b Hs Hb Hun].
  - split; [done|]. intros n. simpl. intros [=].
  - split; [done|]. intros n. simpl. intros [=].
  - split; [done|]. intros m Hm%buffer_key_inj. subst m.
    by apply (inv_ids_bound _ HI) in Hid as [_ ?].
  - split; [by apply Inv_tagBuffer|]. intros m Hm%buffer_key_inj. subst m.
    destruct w; simpl. lia.
Qed.

Lemma JsMap_values_set_present {V B} (g : V → B) k (c c' : V) m :
  JsMap.get k m = Some c → g c' = g c →
  g <$> JsMap.values (JsMap.set k c' m) = g <$> JsMap.values m.
Proof.
  unfold JsMap.values. induction m as [|[k0 v0] m IH]; simpl; [done|].
  case_decide; subst; simpl.
  - intros [= ->] ->. done.
  - intros Hg Hc. f_equal. by apply IH.
Qed.

Lemma JsMap_values_delete_sublist {V B} (g : V → B) k (m : JsMap.t V) :
  sublist (g <$> JsMap.values (JsMap.delete k m)) (g <$> JsMap.values m).
Proof.
  unfold JsMap.values. induction m as [|[k0 v0] m IH]; simpl; [done|].
  case_decide; simpl.
  - by apply sublist_cons.
  - by apply sublist_skip.
Qed.

Lemma JsMap_get_delete_Some {V} k k' (e : V) m :
  JsMap.get k' (JsMap.delete k m) = Some e → JsMap.get k' m = Some e.
Proof. rewrite JsMap_get_delete. by case_decide. Qed.

Lemma JsMap_keys_set_present {V} k (c c' : V) m :
  JsMap.get k m = Some c → JsMap.keys (JsMap.set k c' m) = JsMap.keys m.
Proof. intros H. rewrite JsMap_keys_set. by rewrite H. Qed.

Lemma Inv_update k c c' w :
  Inv w → JsMap.get k (cache w) = Some c →
  file c' = file c → state c' = state c → (1 ≤ refCount c')%Z →
  Inv (with_cache (JsMap.set k c') w).
Proof.
  intros HI Hc Hf Hs Hr. destruct w as [ca pl ctr sg pr ids ls n tr].
  Inv_destruct HI. simpl in *.
  assert (Hget : ∀ k' e, JsMap.get k' (JsMap.set k c' ca) = Some e →
            ∃ e0, JsMap.get k' ca = Some e0 ∧ file e = file e0 ∧ state e = state e0
                  ∧ (1 ≤ refCount e)%Z).
  { intros k' e. rewrite JsMap_get_set. case_decide; subst.
    - intros [= <-]. eauto.
    - intros He. exists e. eauto. }
  split; simpl; try done.
  - intros k' [e He]. apply Hget in He as (e0 & He0 & _). eauto.
  - intros m [[e He]|Hm].
    + apply Hget in He as (e0 & He0 & _). eauto.
    + eauto.
  - by erewrite JsMap_keys_set_present.
  - intros k' e He. apply Hget in He as (e0 & He0 & -> & -> & _). eauto.
  - intros k' e He. by apply Hget in He as (e0 & He0 & _ & _ & ?).
  - intros k' e He. apply Hget in He as (e0 & He0 & -> & _). eauto.
  - intros k' e l He. apply Hget in He as (e0 & He0 & -> & -> & _). eauto.
  - by erewrite JsMap_values_set_present.
Qed.

Lemma Inv_delete k w : Inv w → Inv (with_cache (JsMap.delete k) w).
Proof.
  intros HI. destruct w as [ca pl ctr sg pr ids ls n tr].
  Inv_destruct HI. simpl in *.
  split; simpl; try done; eauto using JsMap_get_delete_Some.
  - intros k' [e He]. eauto using JsMap_get_delete_Some.
  - intros m [[e He]|Hm]; eauto using JsMap_get_delete_Some.
  - by apply JsMap_keys_delete_NoDup.
  - eapply sublist_NoDup; [done|apply JsMap_values_delete_sublist].
Qed.

Lemma Inv_clear w : Inv w → Inv (with_cache (λ _, JsMap.empty) w).
Proof.
  intros HI. destruct w as [ca pl ctr sg pr ids ls n tr].
  Inv_destruct HI. simpl in *.
  split; unfold JsMap.empty; simpl; try done; eauto.
  all: try apply NoDup_nil_2.
  - intros m [[? [=]]|?]; eauto.
Qed.

Lemma Inv_log cs w :
  Inv w → cleanupLog cs w → Inv (with_trace (λ t, t ++ cs) w).
Proof.
  intros HI Hcs. destruct w as [ca pl ctr sg pr ids ls n tr].
  Inv_destruct HI. unfold cleanupLog in Hcs. simpl in *.
  assert (Hnot : ∀ f ty, Notified f ty ∈ tr ++ cs → Notified f ty ∈ tr).
  { intros f ty [?|Hin]%elem_of_app; [done|].
    apply Hcs in Hin as [?|(? & ? & ? & _)]; done. }
  split; simpl; try done.
  - intros. apply elem_of_app. eauto.
  - intros. apply elem_of_app. eauto.
  - intros l Hl Hns. apply Hinfl; [done|]. intros [ty Hty].
    apply Hns. exists ty. apply elem_of_app. eauto.
  - intros f ok [?|Hin]%elem_of_app; apply elem_of_app; [eauto|].
    apply Hcs in Hin as [?|(? & ? & [= -> ->] & ?)]; [done|eauto].
  - intros f [Hin|Hin]%elem_of_app.
    + rewrite !elem_of_app. naive_solver.
    + apply Hcs in Hin as [?|(? & ? & ? & _)]; done.
  - intros f ty [Hin|Hin]%elem_of_app.
    + split; [naive_solver|]. intros [?|Hin']%elem_of_app; [naive_solver|].
      apply Hcs in Hin' as [?|(? & ? & ? & _)]; done.
    + apply Hcs in Hin as [?|(? & ? & ? & _)]; done.
  - intros f ok [Hin|Hin]%elem_of_app; [eauto|].
    apply Hcs in Hin as [?|(? & ? & ? & _)]; done.
  - intros f ty ty' ?%Hnot ?%Hnot. eauto.
Qed.

Lemma Inv_started k params w :
  Inv w → key_ok k w →
  JsMap.get k (cache w) = None → JsMap.get k (pendingLoads w) = None →
  Inv (started k params w).
Proof.
  intros HI Hk Hc Hp. destruct w as [ca pl ctr sg pr ids ls n tr].
  Inv_destruct HI. unfold key_ok in Hk. simpl in *.
  assert (Hnew : ∀ l, l ∈ ls ++ [listenerOf {| cache := ca; pendingLoads := pl;
              bufferIdCounter := ctr; signals := sg; promises := pr;
              riveBufferId := ids; listeners := ls; filesConstructed := n;
              trace := tr |} k Load; listenerOf {| cache := ca; pendingLoads := pl;
              bufferIdCounter := ctr; signals := sg; promises := pr;
              riveBufferId := ids; listeners := ls; filesConstructed := n;
              trace := tr |} k LoadError] →
            l ∈ ls ∨ (l_file l = n ∧ l_stateSignal l = length sg ∧
                      l_resolve l = length pr ∧ l_cacheKey l = k ∧
                      (l_type l = Load ∨ l_type l = LoadError))).
  { intros l. unfold listenerOf. simpl. elems.
    intros [?|[->|[->|[]]]]; simpl; auto 10. }
  split; simpl.
  - intros k' Hk'. rewrite JsMap_get_set_ne; [eauto|].
    intros ->. rewrite Hc in Hk'. by destruct Hk'.
  - done.
  - done.
  - intros m. rewrite JsMap_get_set. case_decide; [eauto|]. eauto.
  - done.
  - intros k' e He. apply Hesig in He. by apply lookup_app_l_Some.
  - done.
  - intros k' e He. elems. eauto.
  - intros k' e l He [Hl|(? & Hs & _)]%Hnew; [eauto|].
    apply Hesig in He. apply lookup_lt_Some in He. lia.
  - done.
  - intros l [Hl|(-> & _)]%Hnew; [|lia]. apply Hlf in Hl. lia.
  - intros l [Hl|(_ & -> & _)]%Hnew; rewrite length_app; simpl; [|lia].
    apply Hls in Hl. lia.
  - intros l [Hl|(_ & _ & -> & _)]%Hnew; rewrite length_app; simpl; [|lia].
    apply Hlp in Hl. lia.
  - intros l [Hl|(Hf & _ & _ & _ & Hty)]%Hnew; elems; [eauto|].
    rewrite Hf. destruct Hty as [-> | ->]; auto 10.
  - rewrite fmap_app. apply NoDup_app. split_and!; [done| |].
    + intros [f ty] [l [[= -> ->] Hl]]%list_elem_of_fmap. simpl. elems.
      apply Hlf in Hl. intros [[=]|[[=]|[]]]; lia.
    + simpl. apply NoDup_cons. split; [|apply NoDup_singleton].
      elems. by intros [[=]|[]].
  - intros l l' [Hl|(Hf & Hs & _)]%Hnew [Hl'|(Hf' & Hs' & _)]%Hnew Heq.
    + eauto.
    + apply Hls in Hl. lia.
    + apply Hls in Hl'. lia.
    + congruence.
  - intros l [Hl|(Hf & Hs & Hr & Hkey & _)]%Hnew Hns.
    + assert (Hold : JsMap.get (l_cacheKey l) pl =
                Some {| stateSignal := l_stateSignal l; promise := l_resolve l |}).
      { apply Hinfl; [done|]. intros [ty Hty]. apply Hns. exists ty.
        simpl. elems. auto. }
      rewrite JsMap_get_set_ne; [done|]. intros Heq. rewrite <- Heq in Hold.
      congruence.
    + rewrite Hkey, Hs, Hr. apply JsMap_get_set_eq.
  - elems. intros [?|[[=]|[]]]. done.
  - intros f ok Hin. elems in Hin. destruct Hin as [Hin|[[=]|[[=]|[[=]|[[=]|[]]]]]].
    elems. eauto.
  - intros f Hin. elems in Hin. destruct Hin as [Hin|[[=]|[[=]|[[=]|[[=]|[]]]]]].
    apply Hti in Hin as [? ?]. elems. auto.
  - intros f ty Hin. elems in Hin.
    destruct Hin as [Hin|[[=]|[[=]|[[= -> ->]|[[= -> ->]|[]]]]]].
    + apply Hton in Hin as [? ?]. split; [lia|]. elems.
      intros [?|[[=]|[[=]|[[=]|[[=]|[]]]]]]. done.
    + split; [lia|]. elems. intros [Hin|[[=]|[[=]|[[=]|[[=]|[]]]]]].
      apply Htinit in Hin. lia.
    + split; [lia|]. elems. intros [Hin|[[=]|[[=]|[[=]|[[=]|[]]]]]].
      apply Htinit in Hin. lia.
  - intros f ok Hin. elems in Hin.
    destruct Hin as [Hin|[[=]|[[= -> ->]|[[=]|[[=]|[]]]]]]; [|lia].
    apply Htinit in Hin. lia.
  - intros f ty ty' Hin Hin'. elems in Hin. elems in Hin'.
    destruct Hin as [Hin|[[=]|[[=]|[[=]|[[=]|[]]]]]].
    destruct Hin' as [Hin'|[[=]|[[=]|[[=]|[[=]|[]]]]]]. eauto.
Qed.

Lemma Inv_failedSetup k params ctor w :
  Inv w → key_ok k w →
  JsMap.get k (cache w) = None → JsMap.get k (pendingLoads w) = None →
  Inv (failedSetup k params ctor w).
Proof.
  intros HI Hk Hc Hp. destruct w as [ca pl ctr sg pr ids ls n tr].
  Inv_destruct HI. unfold key_ok in Hk. simpl in *.
  assert (Hn : n ≤ if ctor then n else S n) by (destruct ctor; lia).
  assert (Htr : ∀ c, c ∈ tr ++ (if ctor then [NewRiveFile params None; ConsoleError]
                     else [NewRiveFile params (Some n); Init n false; ConsoleError]) →
            c ∈ tr ∨ (∃ r, c = NewRiveFile params r) ∨ c = ConsoleError ∨
            (ctor = false ∧ c = Init n false)).
  { intros c. destruct ctor; elems; naive_solver. }
  assert (Hsub : ∀ c, c ∈ tr → c ∈ tr ++ (if ctor then [NewRiveFile params None; ConsoleError]
                     else [NewRiveFile params (Some n); Init n false; ConsoleError])).
  { intros c ?. elems. auto. }
  unfold failedSetup; simpl. rewrite (JsMap_delete_absent _ _ Hp).
  split; simpl.
  - intros k' Hk'. rewrite JsMap_get_set_ne; [eauto|].
    intros ->. rewrite Hc in Hk'. by destruct Hk'.
  - done.
  - done.
  - intros m. rewrite JsMap_get_set. case_decide; [eauto|]. eauto.
  - done.
  - intros k' e He. apply Hesig in He. by apply lookup_app_l_Some.
  - done.
  - intros k' e He. eauto.
  - eauto.
  - done.
  - intros l Hl. apply Hlf in Hl. lia.
  - intros l Hl. rewrite length_app; simpl. apply Hls in Hl. lia.
  - intros l Hl. rewrite length_app; simpl. apply Hlp in Hl. lia.
  - intros l Hl. eauto.
  - done.
  - done.
  - intros l Hl Hns.
    assert (Hold : JsMap.get (l_cacheKey l) pl =
                Some {| stateSignal := l_stateSignal l; promise := l_resolve l |}).
    { apply Hinfl; [done|]. intros [ty Hty]. apply Hns. exists ty.
      simpl. auto. }
    rewrite JsMap_get_set_ne; [done|]. intros Heq. rewrite <- Heq in Hold.
    congruence.
  - elems. intros [?|[[=]|[]]]. done.
  - intros f ok [Hin|[[r [=]]|[[=]|[_ [=]]]]]%Htr. eauto.
  - intros f [Hin|[[r [=]]|[[=]|[_ [=]]]]]%Htr.
    apply Hti in Hin as [? ?]. auto.
  - intros f ty [Hin|[[r [=]]|[[=]|[_ [=]]]]]%Htr.
    apply Hton in Hin as [? ?]. split; [lia|].
    intros [?|[[r [=]]|[[=]|[_ [= ->]]]]]%Htr; [done|lia].
  - intros f ok [Hin|[[r [=]]|[[=]|[-> [= -> ->]]]]]%Htr; [|lia].
    apply Htinit in Hin. lia.
  - intros f ty ty' [Hin|[[r [=]]|[[=]|[_ [=]]]]]%Htr
      [Hin'|[[r' [=]]|[[=]|[_ [=]]]]]%Htr. eauto.
Qed.

Lemma listening_cases f ty w :
  NoDup ((λ l, (l_file l, l_type l)) <$> listeners w) →
  listening f ty w = [] ∨
  ∃ l, listening f ty w = [l] ∧ l ∈ listeners w ∧ l_file l = f ∧ l_type l = ty.
Proof.
  unfold listening. generalize (listeners w) as ls.
  induction ls as [|a ls IH]; simpl; [by left|].
  intros [Hnin Hnd]%NoDup_cons. rewrite filter_cons.
  destruct (IH Hnd) as [Hnil|(l & Hl & Hin & Hf & Hty)].
  - rewrite Hnil. case_decide as Ha; [|by left].
    right. exists a. destruct Ha. split_and!; [done|left|done|done].
  - rewrite Hl. rewrite decide_False.
    + right. exists l. split_and!; [done|by right|done|done].
    + intros [Hfa Htya]. apply Hnin. apply list_elem_of_fmap.
      exists l. split; [congruence|done].
Qed.

Lemma settle_not_rejected p (pr : list PromiseState) :
  PromiseRejected ∉ pr → PromiseRejected ∉ alter settle p pr.
Proof.
  revert p. induction pr as [|x pr IH]; intros p; simpl; [done|].
  rewrite not_elem_of_cons. intros [Hx Hpr]. destruct p as [|p]; simpl.
  - rewrite not_elem_of_cons. split; [by destruct x|done].
  - rewrite not_elem_of_cons. split; [done|by apply IH].
Qed.

Lemma elem_values_get {V} (e : V) (m : JsMap.t V) :
  NoDup (JsMap.keys m) → e ∈ JsMap.values m → ∃ k, JsMap.get k m = Some e.
Proof.
  intros Hnd [[k e'] [-> Hin]]%list_elem_of_fmap. exists k.
  by apply JsMap_elem_get.
Qed.

Lemma Inv_notified f ty w :
  Inv w → unsettled f w → Inv (with_trace (λ t, t ++ [Notified f ty]) w).
Proof.
  intros HI [Hf Hun]. destruct w as [ca pl ctr sg pr ids ls n tr].
  Inv_destruct HI. simpl in *.
  split; simpl; try done.
  - intros. elems. eauto.
  - intros. elems. eauto.
  - intros l Hl Hns. apply Hinfl; [done|]. intros [ty' Hty]. apply Hns.
    exists ty'. simpl. elems. auto.
  - intros f' ok Hin. elems in Hin. elems. destruct Hin as [?|[[=]|[]]]. eauto.
  - intros f' Hin. elems in Hin. elems. destruct Hin as [Hin|[[=]|[]]].
    apply Hti in Hin as [? ?]. auto.
  - intros f' ty' Hin. elems in Hin. elems. destruct Hin as [Hin|[[=]|[]]].
    apply Hton in Hin as [? ?]. split; [done|]. by intros [?|[[=]|[]]].
  - intros f' ok Hin. elems in Hin. destruct Hin as [Hin|[[=]|[]]]. eauto.
  - intros f' ty1 ty2 Hin1 Hin2. elems in Hin1. elems in Hin2.
    destruct Hin1 as [Hin1|[[= -> ->]|[]]].
    + destruct Hin2 as [Hin2|[[= -> ->]|[]]]; [eauto|]. by apply Hun in Hin1.
    + destruct Hin2 as [Hin2|[[= ->]|[]]]; [|done]. by apply Hun in Hin2.
Qed.

Lemma Inv_handled f ty l w :
  Inv w → unsettled f w → l ∈ listeners w → l_file l = f → l_type l = ty →
  Inv (handled l (with_trace (λ t, t ++ [Notified f ty]) w)).
Proof.
  intros HI [Hf Hun] Hl Hlf0 Hlty. pose proof HI as HI'.
  destruct w as [ca pl ctr sg pr ids ls n tr].
  Inv_destruct HI. simpl in *.
  destruct l as [f0 ty0 s0 k0 p0]. simpl in *. subst f0 ty0.
  assert (Hpl : JsMap.get k0 pl = Some {| stateSignal := s0; promise := p0 |}).
  { apply (Hinfl _ Hl). intros [ty' Hty']. by apply Hun in Hty'. }
  assert (Hca : JsMap.get k0 ca = None).
  { destruct (JsMap.get k0 ca) as [e|] eqn:He; [|done].
    rewrite Hdisj in Hpl; [done|]. rewrite He. eauto. }
  assert (Hs0 : s0 < length sg) by apply (Hls _ Hl).
  assert (Hfile : ∀ k e, JsMap.get k ca = Some e → file e ≠ f).
  { intros k e He%Heload Heq. apply Hti in He as [He _]. rewrite Heq in He.
    by apply Hun in He. }
  assert (Hstate : ∀ k e, JsMap.get k ca = Some e → state e ≠ s0).
  { intros k e He Heq. eapply Hfile; [done|]. symmetry.
    by apply (Helis _ _ _ He Hl). }
  assert (Hother : ∀ l', l' ∈ ls →
            ¬ (∃ ty', Notified (l_file l') ty' ∈ tr ++ [Notified f ty]) →
            JsMap.get (l_cacheKey l') (JsMap.delete k0 pl) =
              Some {| stateSignal := l_stateSignal l'; promise := l_resolve l' |}).
  { intros l' Hl' Hns.
    assert (Hne : l_file l' ≠ f).
    { intros Heq. apply Hns. exists ty. rewrite Heq. elems. auto. }
    assert (Hold : JsMap.get (l_cacheKey l') pl =
              Some {| stateSignal := l_stateSignal l'; promise := l_resolve l' |}).
    { apply Hinfl; [done|]. intros [ty' Hty']. apply Hns. exists ty'.
      elems. auto. }
    rewrite JsMap_get_delete_ne; [done|]. intros Heq. rewrite <- Heq in Hold.
    rewrite Hpl in Hold. injection Hold as Hs Hp. apply Hne.
    by apply (Hlep _ _ Hl' Hl). }
  unfold handled; simpl. destruct ty; unfold loaded, loadFailed; simpl.
  - (* load *)
    split; simpl.
    + intros k [e He]. rewrite JsMap_get_set in He. rewrite JsMap_get_delete.
      case_decide; [done|]. apply Hdisj. eauto.
    + done.
    + done.
    + intros m. rewrite JsMap_get_set, JsMap_get_delete.
      case_decide as Hm.
      * intros _. apply Hkb. right. rewrite <- Hm, Hpl. eauto.
      * exact (Hkb m).
    + by apply JsMap_keys_set_NoDup.
    + intros k e. rewrite JsMap_get_set. case_decide.
      * intros [= <-]. simpl. by apply list_lookup_insert_eq.
      * intros He. rewrite list_lookup_insert_ne; [eauto|].
        intros Heq. by eapply Hstate.
    + intros k e. rewrite JsMap_get_set. case_decide; [|eauto].
      intros [= <-]. simpl. lia.
    + intros k e. rewrite JsMap_get_set. elems. case_decide; [|eauto].
      intros [= <-]. simpl. auto.
    + intros k e l'. rewrite JsMap_get_set. case_decide; [|eauto].
      intros [= <-] Hl' Heq. simpl in *. by apply (Hlep _ _ Hl' Hl).
    + rewrite JsMap_set_absent by done. unfold JsMap.values.
      rewrite !fmap_app. simpl. apply NoDup_app. split_and!.
      * done.
      * intros x Hx ->%list_elem_of_singleton.
        apply list_elem_of_fmap in Hx as [e [Hfe He]].
        apply elem_values_get in He as [k He]; [|done].
        by eapply Hfile.
      * apply NoDup_singleton.
    + done.
    + intros l' Hl'. rewrite length_insert. eauto.
    + intros l' Hl'. rewrite length_alter. eauto.
    + intros l' Hl'. elems. eauto.
    + done.
    + done.
    + intros l' Hl' Hns. apply Hother; [done|]. intros [ty' Hty'].
      apply Hns. exists ty'. simpl. elems. elems in Hty'. tauto.
    + by apply settle_not_rejected.
    + intros f' ok Hin. elems in Hin. elems.
      destruct Hin as [[?|[[=]|[]]]|[[=]|[]]]. eauto.
    + intros f' Hin. elems in Hin. elems.
      destruct Hin as [[Hin|[[=]|[]]]|[[= ->]|[]]].
      * apply Hti in Hin as [? ?]. auto.
      * split; [auto|]. left. left. apply (Hlon _ Hl).
    + intros f' ty' Hin. elems in Hin. elems.
      destruct Hin as [[Hin|[[=]|[]]]|[[=]|[]]].
      apply Hton in Hin as [? ?]. split; [done|].
      by intros [[?|[[=]|[]]]|[[=]|[]]].
    + intros f' ok Hin. elems in Hin.
      destruct Hin as [[Hin|[[=]|[]]]|[[=]|[]]]. eauto.
    + intros f' ty1 ty2 Hin1 Hin2. elems in Hin1. elems in Hin2.
      destruct Hin1 as [[Hin1|[[= -> ->]|[]]]|[[=]|[]]].
      * destruct Hin2 as [[Hin2|[[= -> ->]|[]]]|[[=]|[]]]; [eauto|].
        by apply Hun in Hin1.
      * destruct Hin2 as [[Hin2|[[= ->]|[]]]|[[=]|[]]]; [|done].
        by apply Hun in Hin2.
  - (* loaderror *)
    split; simpl.
    + intros k He. rewrite JsMap_get_delete. case_decide; [done|]. eauto.
    + done.
    + done.
    + intros m. rewrite JsMap_get_delete. case_decide as Hm.
      * intros [?|[? [=]]]. apply Hkb. by left.
      * exact (Hkb m).
    + done.
    + intros k e He. rewrite list_lookup_insert_ne; [eauto|].
      intros Heq. by eapply Hstate.
    + done.
    + intros k e He. elems. eauto.
    + done.
    + done.
    + done.
    + intros l' Hl'. rewrite length_insert. eauto.
    + intros l' Hl'. rewrite length_alter. eauto.
    + intros l' Hl'. elems. eauto.
    + done.
    + done.
    + intros l' Hl' Hns. by apply Hother.
    + by apply settle_not_rejected.
    + intros f' ok Hin. elems in Hin. elems. destruct Hin as [?|[[=]|[]]]. eauto.
    + intros f' Hin. elems in Hin. elems. destruct Hin as [Hin|[[=]|[]]].
      apply Hti in Hin as [? ?]. auto.
    + intros f' ty' Hin. elems in Hin. elems. destruct Hin as [Hin|[[=]|[]]].
      apply Hton in Hin as [? ?]. split; [done|]. by intros [?|[[=]|[]]].
    + intros f' ok Hin. elems in Hin. destruct Hin as [Hin|[[=]|[]]]. eauto.
    + intros f' ty1 ty2 Hin1 Hin2. elems in Hin1. elems in Hin2.
      destruct Hin1 as [Hin1|[[= -> ->]|[]]].
      * destruct Hin2 as [Hin2|[[= -> ->]|[]]]; [eauto|]. by apply Hun in Hin1.
      * destruct Hin2 as [Hin2|[[= ->]|[]]]; [|done]. by apply Hun in Hin2.
Qed.

Lemma Inv_loadFile_at k params o w :
  Inv w → key_ok k w → Inv (run (loadFile_at k params o) w).
Proof.
  intros HI Hk. unfold run.
  destruct (JsMap.get k (cache w)) as [c|] eqn:Hc.
  { rewrite (loadFile_at_hit _ _ _ _ _ Hc). simpl.
    eapply Inv_update; eauto. simpl.
    pose proof (inv_entry_refCount _ HI _ _ Hc). lia. }
  destruct (JsMap.get k (pendingLoads w)) as [p|] eqn:Hp.
  { by rewrite (loadFile_at_join _ _ _ _ _ Hc Hp). }
  rewrite (loadFile_at_miss _ _ _ _ Hc Hp). simpl.
  destruct o; auto using Inv_started, Inv_failedSetup.
Qed.

Lemma Inv_releaseFile_at k thr w :
  Inv w → Inv (run (releaseFile_at k thr) w).
Proof.
  intros HI. unfold run.
  destruct (JsMap.get k (cache w)) as [c|] eqn:Hc.
  2:{ by rewrite (releaseFile_at_absent _ _ _ Hc). }
  destruct (decide (0 < refCount c - 1)%Z) as [Hpos|Hle].
  - rewrite (releaseFile_at_keep _ _ _ _ Hc Hpos). simpl.
    eapply Inv_update; eauto. simpl. lia.
  - rewrite (releaseFile_at_last _ _ _ _ Hc) by lia. simpl.
    apply Inv_delete, Inv_log; [done|].
    pose proof (inv_entry_loaded _ HI _ _ Hc).
    intros x Hx. unfold cleanupCalls in Hx. destruct thr; elems in Hx.
    + destruct Hx as [->|[->|[]]]; [right; eauto|by left].
    + destruct Hx as [->|[]]. right; eauto.
Qed.

Lemma Inv_clearCache thr w : Inv w → Inv (run (clearCache thr) w).
Proof.
  intros HI. unfold run. rewrite clearCache_run. simpl.
  apply Inv_clear, Inv_log; [done|].
  intros x Hx. apply list_elem_of_In, in_flat_map in Hx as [e [He Hx]].
  apply list_elem_of_In in He. apply list_elem_of_In in Hx.
  apply elem_values_get in He as [k He]; [|by apply inv_cache_keys].
  pose proof (inv_entry_loaded _ HI _ _ He).
  unfold cleanupCalls in Hx. destruct (thr (file e)); elems in Hx.
  - destruct Hx as [->|[->|[]]]; [right; eauto|by left].
  - destruct Hx as [->|[]]. right; eauto.
Qed.

Lemma Inv_notify f ty w : Inv w → unsettled f w → Inv (run (notify f ty) w).
Proof.
  intros HI Hun. unfold run. rewrite notify_run. simpl.
  destruct (listening_cases f ty w) as [->|(l & -> & Hl & Hf & Hty)].
  { by apply inv_listeners_NoDup. }
  - simpl. by apply Inv_notified.
  - simpl. by apply Inv_handled.
Qed.

Lemma Inv_exec a w : Inv w → enabled a w → Inv (exec a w).2.
Proof.
  intros HI Hen. destruct a as [params o|params thr|thr|f ty].
  - destruct (getCacheKey_case params w) as [(k & w1 & Hk & Hcase)|[Hk _]].
    2:{ rewrite (exec_LoadFile_throw _ _ _ _ _ Hk). by apply Inv_skipId. }
    simpl. unfold mbind, M_bind. rewrite (loadFile_unfold _ _ _ _ _ Hk).
    destruct (KeyCase_Inv _ _ _ _ HI Hcase) as [HI1 Hk1].
    pose proof (Inv_loadFile_at k params o w1 HI1 Hk1) as HI2.
    unfold run in HI2. by destruct (loadFile_at k params o w1) as [[s|e] w2].
  - simpl.
    destruct (getCacheKey_case params w) as [(k & w1 & Hk & Hcase)|[Hk _]].
    2:{ rewrite (releaseFile_throw _ _ _ _ _ Hk). by apply Inv_skipId. }
    rewrite (releaseFile_unfold _ _ _ _ _ Hk).
    destruct (KeyCase_Inv _ _ _ _ HI Hcase) as [HI1 Hk1].
    by apply Inv_releaseFile_at.
  - by apply Inv_clearCache.
  - by apply Inv_notify.
Qed.

Theorem reachable_Inv w : reachable w → Inv w.
Proof.
  induction 1 as [|w a Hw IH Hen]; [apply Inv_initial|by apply Inv_exec].
Qed.

(** ** Concurrent loads of one key share one episode *)

(** [getCacheKey] only ever changes the counter and the buffer ids *)
Lemma KeyCase_frame params w k w1 :
  KeyCase params w k w1 →
  cache w1 = cache w ∧ pendingLoads w1 = pendingLoads w ∧
  signals w1 = signals w ∧ promises w1 = promises w ∧
  listeners w1 = listeners w ∧ filesConstructed w1 = filesConstructed w ∧
  trace w1 = trace w.
Proof. intros []; by destruct w. Qed.

(** Once a key has been computed for [params], computing it again gives
    the same key and changes nothing, in any world with the same ids *)
Lemma KeyCase_again params w k w1 w2 :
  KeyCase params w k w1 →
  riveBufferId w2 = riveBufferId w1 →
  getCacheKey params w2 = (Normal k, w2).
Proof.
  intros Hk Hids. unfold getCacheKey.
  destruct Hk as [s Hs|Hs Hb|b n Hs Hb Hid Hn|b Hs Hb Hun]; rewrite Hs; try done.
  - by rewrite Hb.
  - rewrite Hb. wsimpl. rewrite Hids, Hid. by rewrite decide_False.
  - rewrite Hb. wsimpl. rewrite Hids. destruct w; simpl.
    rewrite lookup_insert_eq. rewrite decide_False by lia. done.
Qed.

Lemma getCacheKey_again params w k w1 w2 :
  getCacheKey params w = (Normal k, w1) →
  riveBufferId w2 = riveBufferId w1 →
  getCacheKey params w2 = (Normal k, w2).
Proof.
  intros Hk. pose proof (getCacheKey_Normal_case _ _ _ _ Hk) as Hcase. by eapply KeyCase_again.
Qed.

Lemma listening_started_old f ty ls :
  (∀ l, l ∈ ls → l_file l < f) →
  filter (λ l, l_file l = f ∧ l_type l = ty) ls = [].
Proof.
  intros Hlt. induction ls as [|a ls IH]; [done|].
  rewrite filter_cons. rewrite decide_False.
  - apply IH. intros l Hl. apply Hlt. by right.
  - intros [Hf _]. assert (l_file a < f) by (apply Hlt; left). lia.
Qed.

Lemma listening_started k params w ty :
  Inv w →
  listening (filesConstructed w) ty (started k params w) = [listenerOf w k ty].
Proof.
  intros HI. unfold listening, started. simpl. rewrite filter_app.
  rewrite listening_started_old by apply (inv_listener_file _ HI). simpl.
  rewrite !filter_cons, filter_nil. unfold listenerOf; simpl.
  destruct ty.
  - rewrite decide_True by done. rewrite decide_False; [done|]. by intros [_ [=]].
  - rewrite decide_False by (by intros [_ [=]]). by rewrite decide_True.
Qed.

Lemma loadFile_miss_run params o w k w0 :
  getCacheKey params w = (Normal k, w0) →
  JsMap.get k (cache w0) = None →
  JsMap.get k (pendingLoads w0) = None →
  loadFile params o w =
    (Normal (length (signals w0)),
     match o with
     | SetupOk => started k params w0
     | ConstructorThrows => failedSetup k params true w0
     | InitThrows => failedSetup k params false w0
     end).
Proof.
  intros Hk Hc Hp. rewrite (loadFile_unfold _ _ _ _ _ Hk).
  by apply loadFile_at_miss.
Qed.

Lemma getCacheKey_Inv params w k w0 :
  Inv w → getCacheKey params w = (Normal k, w0) →
  KeyCase params w k w0 ∧ Inv w0 ∧ key_ok k w0.
Proof.
  intros HI Hk. pose proof (getCacheKey_Normal_case _ _ _ _ Hk) as Hcase.
  split; [done|]. by eapply KeyCase_Inv.
Qed.

Lemma signal_after_notify k params w ty :
  Inv w →
  signal_get (length (signals w))
    (run (notify (filesConstructed w) ty) (started k params w)) =
  Some match ty with
       | Load => {| riveFile := Some (filesConstructed w); status := success |}
       | LoadError => {| riveFile := None; status := failed |}
       end.
Proof.
  intros HI. unfold run. rewrite notify_run.
  replace (filesConstructed w) with (pred (filesConstructed (started k params w)))
    at 2 by done.
  simpl pred.
  assert (Hl : listening (filesConstructed w) ty (started k params w) =
               [listenerOf w k ty]) by by apply listening_started.
  rewrite Hl. simpl. unfold handled, signal_get. simpl.
  destruct ty; simpl; rewrite insert_snoc; by apply list_lookup_middle.
Qed.

(** C1. Two [loadFile] calls with equal parameters, the second issued while
    the load started by the first is still in flight: one [RiveFile] is
    constructed and initialised once, both calls return the same signal, the
    joining call changes nothing (no ref count is touched), and when the
    load settles the shared signal reports [success], or [failed]. *)
Theorem loadFile_dedup w params k w0 o2 :
  reachable w →
  getCacheKey params w = (Normal k, w0) →
  JsMap.get k (cache w0) = None →
  JsMap.get k (pendingLoads w0) = None →
  let f := filesConstructed w in
  let first := loadFile params SetupOk w in
  let second := loadFile params o2 first.2 in
  ∃ s,
    first.1 = Normal s ∧ second.1 = Normal s ∧
    second.2 = first.2 ∧ cache second.2 = cache w ∧
    constructions (trace second.2) = constructions (trace w) ++ [Some f] ∧
    inits (trace second.2) = inits (trace w) ++ [f] ∧
    signal_get s second.2 = Some {| riveFile := None; status := loading |} ∧
    signal_get s (run (notify f Load) second.2) =
      Some {| riveFile := Some f; status := success |} ∧
    signal_get s (run (notify f LoadError) second.2) =
      Some {| riveFile := None; status := failed |}.
Proof.
  intros Hw%reachable_Inv Hk Hc Hp f first second.
  destruct (getCacheKey_Inv _ _ _ _ Hw Hk) as (Hcase & HI0 & _).
  destruct (KeyCase_frame _ _ _ _ Hcase) as (Hca & _ & _ & _ & _ & Hfc & Htr).
  assert (Hfirst : first = (Normal (length (signals w0)), started k params w0))
    by (unfold first; by rewrite (loadFile_miss_run _ SetupOk _ _ _ Hk)).
  assert (Hsecond : second = (Normal (length (signals w0)), started k params w0)).
  { unfold second. rewrite Hfirst. simpl.
    rewrite (loadFile_unfold params o2 _ k (started k params w0))
      by (by apply (KeyCase_again _ _ _ _ _ Hcase)).
    rewrite (loadFile_at_join k params o2 (started k params w0)
               {| stateSignal := length (signals w0);
                  promise := length (promises w0) |});
      [done|done|simpl; apply JsMap_get_set_eq]. }
  exists (length (signals w0)). rewrite Hsecond, Hfirst. simpl.
  unfold f. rewrite <- Hfc, <- Htr, <- Hca.
  split_and!; try done.
  - unfold constructions. by rewrite omap_app.
  - unfold inits. by rewrite omap_app.
  - unfold signal_get. simpl. by apply list_lookup_middle.
  - apply (signal_after_notify k params w0 Load HI0).
  - apply (signal_after_notify k params w0 LoadError HI0).
Qed.

Lemma loadFile_dedup_witness :
  let f := filesConstructed initial in
  let first := loadFile params_a SetupOk initial in
  let second := loadFile params_a SetupOk first.2 in
  ∃ s,
    first.1 = Normal s ∧ second.1 = Normal s ∧
    second.2 = first.2 ∧ cache second.2 = cache initial ∧
    constructions (trace second.2) = constructions (trace initial) ++ [Some f] ∧
    inits (trace second.2) = inits (trace initial) ++ [f] ∧
    signal_get s second.2 = Some {| riveFile := None; status := loading |} ∧
    signal_get s (run (notify f Load) second.2) =
      Some {| riveFile := Some f; status := success |} ∧
    signal_get s (run (notify f LoadError) second.2) =
      Some {| riveFile := None; status := failed |}.
Proof.
  apply (loadFile_dedup initial params_a "src:a.riv" initial SetupOk).
  - apply reachable_initial.
  - reflexivity.
  - reflexivity.
  - reflexivity.
Defined.

(** ** Pending or cached, never both *)

Lemma exclusive_handled l w : exclusive w → exclusive (handled l w).
Proof.
  intros Hex k. unfold handled. destruct (l_type l); simpl.
  - rewrite JsMap_get_set, JsMap_get_delete. case_decide; [done|]. apply Hex.
  - rewrite JsMap_get_delete. case_decide; [done|]. apply Hex.
Qed.

Lemma exclusive_handlers ls w :
  exclusive w → exclusive (foldl (λ w l, handled l w) w ls).
Proof.
  revert w. induction ls as [|l ls IH]; intros w Hex; simpl; [done|].
  by apply IH, exclusive_handled.
Qed.

Lemma exclusive_exec a w : exclusive w → exclusive (exec a w).2.
Proof.
  intros Hex. destruct a as [params o|params thr|thr|f ty]; simpl.
  - destruct (getCacheKey_case params w) as [(k & w1 & Hk & Hcase)|[Hk _]].
    2:{ unfold mbind, M_bind. rewrite (loadFile_throw _ _ _ _ _ Hk).
        by destruct w. }
    destruct (KeyCase_frame _ _ _ _ Hcase) as (Hca & Hpl & _).
    assert (Hex1 : exclusive w1) by (intros k'; rewrite Hca, Hpl; apply Hex).
    unfold mbind, M_bind. rewrite (loadFile_unfold _ _ _ _ _ Hk).
    destruct (JsMap.get k (cache w1)) as [c|] eqn:Hc.
    { rewrite (loadFile_at_hit _ _ _ _ _ Hc). simpl. intros k'. simpl.
      rewrite JsMap_get_set. case_decide as Hkk; [|apply Hex1].
      intros _. apply Hex1. rewrite <- Hkk, Hc. eauto. }
    destruct (JsMap.get k (pendingLoads w1)) as [p|] eqn:Hp.
    { by rewrite (loadFile_at_join _ _ _ _ _ Hc Hp). }
    rewrite (loadFile_at_miss _ _ _ _ Hc Hp). simpl.
    assert (Hne : ∀ k', is_Some (JsMap.get k' (cache w1)) → k ≠ k').
    { intros k' [e He] <-. congruence. }
    intros k' Hk'. destruct o; simpl in *;
      rewrite JsMap_get_set_ne by by apply Hne.
    + by apply Hex1.
    + rewrite JsMap_get_delete_ne by by apply Hne. by apply Hex1.
    + rewrite JsMap_get_delete_ne by by apply Hne. by apply Hex1.
  - destruct (getCacheKey_case params w) as [(k & w1 & Hk & Hcase)|[Hk _]].
    2:{ rewrite (releaseFile_throw _ _ _ _ _ Hk). by destruct w. }
    destruct (KeyCase_frame _ _ _ _ Hcase) as (Hca & Hpl & _).
    assert (Hex1 : exclusive w1) by (intros k'; rewrite Hca, Hpl; apply Hex).
    rewrite (releaseFile_unfold _ _ _ _ _ Hk).
    destruct (JsMap.get k (cache w1)) as [c|] eqn:Hc.
    2:{ by rewrite (releaseFile_at_absent _ _ _ Hc). }
    destruct (decide (0 < refCount c - 1)%Z) as [Hpos|Hle].
    + rewrite (releaseFile_at_keep _ _ _ _ Hc Hpos). simpl. intros k'. simpl.
      rewrite JsMap_get_set. case_decide as Hkk; [|apply Hex1].
      intros _. apply Hex1. rewrite <- Hkk, Hc. eauto.
    + rewrite (releaseFile_at_last _ _ _ _ Hc) by lia. simpl. intros k'. simpl.
      rewrite JsMap_get_delete. case_decide; [by intros [? [=]]|apply Hex1].
  - rewrite clearCache_run. simpl. intros k. simpl. by intros [? [=]].
  - rewrite notify_run. simpl. by apply exclusive_handlers.
Qed.

Lemma reachable_any_exclusive w : reachable_any w → exclusive w.
Proof.
  induction 1 as [|w a Hw IH]; [|by apply exclusive_exec].
  intros k. by intros [? [=]].
Qed.

Lemma reachable_reachable_any w : reachable w → reachable_any w.
Proof. induction 1; by constructor. Qed.

(** C8. In every state reached by any sequence of [loadFile],
    [releaseFile], [clearCache] and notifications, no key is both in the
    in-flight table and in the cache map. *)
Theorem pending_cached_exclusive w k :
  reachable_any w →
  ¬ (is_Some (JsMap.get k (pendingLoads w)) ∧ is_Some (JsMap.get k (cache w))).
Proof.
  intros Hw%reachable_any_exclusive [[p Hp] Hc].
  apply Hw in Hc. congruence.
Qed.

Lemma pending_cached_exclusive_witness :
  let w := (exec (LoadFile params_a SetupOk)
              (exec (Notify 0 Load)
                 (exec (LoadFile params_a SetupOk) initial).2).2).2 in
  ¬ (is_Some (JsMap.get "src:a.riv" (pendingLoads w)) ∧
     is_Some (JsMap.get "src:a.riv" (cache w))).
Proof.
  apply pending_cached_exclusive.
  do 3 apply reachable_any_step. apply reachable_any_initial.
Defined.

(** ** Reference counting *)

Lemma keyed_after params w k w0 :
  getCacheKey params w = (Normal k, w0) → keyed params k w0.
Proof. intros Hk w' Hids. by eapply getCacheKey_again. Qed.

Lemma keyed_same_ids params k w w' :
  keyed params k w → riveBufferId w' = riveBufferId w → keyed params k w'.
Proof. intros Hk Hids w'' Hids'. apply Hk. congruence. Qed.

Lemma loadFile_hit_run params o w k c :
  keyed params k w → JsMap.get k (cache w) = Some c →
  loadFile params o w = (Normal (state c), with_cache (JsMap.set k (bump c)) w).
Proof.
  intros Hk Hc. rewrite (loadFile_unfold params o w k w) by by apply Hk.
  by apply loadFile_at_hit.
Qed.

Lemma loads_hits n params o w k c :
  keyed params k w → JsMap.get k (cache w) = Some c →
  let w' := loads n params o w in
  JsMap.get k (cache w') =
    Some {| file := file c; state := state c; refCount := refCount c + Z.of_nat n |} ∧
  riveBufferId w' = riveBufferId w ∧ trace w' = trace w.
Proof.
  intros Hk Hc. induction n as [|n IH]; simpl.
  - rewrite Hc. destruct c; simpl. split; [|done]. do 2 f_equal. lia.
  - destruct IH as (Hc' & Hids & Htr).
    unfold loads in *. simpl.
    assert (Hrun : run (loadFile params o) (Nat.iter n (run (loadFile params o)) w) =
              with_cache (JsMap.set k (bump {| file := file c; state := state c;
                            refCount := refCount c + Z.of_nat n |}))
                (Nat.iter n (run (loadFile params o)) w)).
    { unfold run at 1.
      by rewrite (loadFile_hit_run _ _ _ k _ (keyed_same_ids _ _ _ _ Hk Hids) Hc'). }
    rewrite Hrun. simpl. rewrite JsMap_get_set_eq. unfold bump; simpl.
    split; [|done]. do 2 f_equal. lia.
Qed.

Lemma releaseFile_keep_run params thr w k c :
  keyed params k w → JsMap.get k (cache w) = Some c → (1 < refCount c)%Z →
  releaseFile params thr w = (Normal (), with_cache (JsMap.set k (unbump c)) w).
Proof.
  intros Hk Hc Hr. rewrite (releaseFile_unfold params thr w k w) by by apply Hk.
  apply releaseFile_at_keep; [done|lia].
Qed.

Lemma releaseFile_last_run params thr w k c :
  keyed params k w → JsMap.get k (cache w) = Some c → (refCount c ≤ 1)%Z →
  releaseFile params thr w =
    (Normal (),
     with_cache (JsMap.delete k)
       (with_trace (λ t, t ++ cleanupCalls (file c) thr) w)).
Proof.
  intros Hk Hc Hr. rewrite (releaseFile_unfold params thr w k w) by by apply Hk.
  apply releaseFile_at_last; [done|lia].
Qed.

Lemma releases_keep j params thr w k c :
  keyed params k w → JsMap.get k (cache w) = Some c → (Z.of_nat j < refCount c)%Z →
  let w' := releases j params thr w in
  JsMap.get k (cache w') =
    Some {| file := file c; state := state c; refCount := refCount c - Z.of_nat j |} ∧
  riveBufferId w' = riveBufferId w ∧ trace w' = trace w.
Proof.
  intros Hk Hc. induction j as [|j IH]; simpl; intros Hj.
  - rewrite Hc. destruct c; simpl. split; [|done]. do 2 f_equal. lia.
  - destruct IH as (Hc' & Hids & Htr); [lia|].
    unfold releases in *. simpl.
    assert (Hrun : run (releaseFile params thr)
                     (Nat.iter j (run (releaseFile params thr)) w) =
              with_cache (JsMap.set k (unbump {| file := file c; state := state c;
                            refCount := refCount c - Z.of_nat j |}))
                (Nat.iter j (run (releaseFile params thr)) w)).
    { unfold run at 1.
      by rewrite (releaseFile_keep_run _ _ _ k _
                    (keyed_same_ids _ _ _ _ Hk Hids) Hc') by (simpl; lia). }
    rewrite Hrun. simpl. rewrite JsMap_get_set_eq. unfold unbump; simpl.
    split; [|done]. do 2 f_equal. lia.
Qed.

Lemma cleanups_cleanupCalls f thr : cleanups (cleanupCalls f thr) = [f].
Proof. by destruct thr. Qed.

Lemma releases_all (n : nat) params thr w k c :
  keyed params k w → JsMap.get k (cache w) = Some c → refCount c = Z.of_nat (S n) →
  let w' := releases (S n) params thr w in
  JsMap.get k (cache w') = None ∧
  cleanups (trace w') = cleanups (trace w) ++ [file c].
Proof.
  intros Hk Hc Hn.
  destruct (releases_keep n params thr w k c Hk Hc) as (Hc' & Hids & Htr); [lia|].
  unfold releases in *. simpl.
  assert (Hrun : run (releaseFile params thr)
                   (Nat.iter n (run (releaseFile params thr)) w) =
            with_cache (JsMap.delete k)
              (with_trace (λ t, t ++ cleanupCalls (file c) thr)
                 (Nat.iter n (run (releaseFile params thr)) w))).
  { unfold run at 1.
    by rewrite (releaseFile_last_run _ _ _ k _
                  (keyed_same_ids _ _ _ _ Hk Hids) Hc') by (simpl; lia). }
  rewrite Hrun. simpl. rewrite JsMap_get_delete_eq. split; [done|].
  rewrite Htr. unfold cleanups. rewrite omap_app. f_equal.
  apply cleanups_cleanupCalls.
Qed.

Lemma notify_started k params w ty :
  Inv w →
  run (notify (filesConstructed w) ty) (started k params w) =
    handled (listenerOf w k ty)
      (with_trace (λ t, t ++ [Notified (filesConstructed w) ty])
         (started k params w)).
Proof.
  intros HI. unfold run. rewrite notify_run.
  assert (Hl : listening (filesConstructed w) ty (started k params w) =
               [listenerOf w k ty]) by by apply listening_started.
  simpl. by rewrite Hl.
Qed.

(** C2. A key is loaded and the load succeeds; with [N - 1] further
    [loadFile] calls the entry's [refCount] is [N].  Of [N] [releaseFile]
    calls, none before the [N]th invokes [cleanup], and the [N]th invokes it
    once and removes the entry. *)
Theorem releaseFile_refcount w params k w0 (N : nat) o thr :
  reachable w →
  getCacheKey params w = (Normal k, w0) →
  JsMap.get k (cache w0) = None →
  JsMap.get k (pendingLoads w0) = None →
  1 ≤ N →
  let f := filesConstructed w in
  let held :=
    loads (N - 1) params o (run (notify f Load) (run (loadFile params SetupOk) w)) in
  (∃ s, JsMap.get k (cache held) =
          Some {| file := f; state := s; refCount := Z.of_nat N |}) ∧
  (∀ j, j < N →
     cleanups (trace (releases j params thr held)) = cleanups (trace held) ∧
     ∃ s, JsMap.get k (cache (releases j params thr held)) =
            Some {| file := f; state := s; refCount := Z.of_nat (N - j) |}) ∧
  cleanups (trace (releases N params thr held)) = cleanups (trace held) ++ [f] ∧
  JsMap.get k (cache (releases N params thr held)) = None.
Proof.
  intros Hw%reachable_Inv Hk Hc Hp HN f held.
  destruct (getCacheKey_Inv _ _ _ _ Hw Hk) as (Hcase & HI0 & _).
  destruct (KeyCase_frame _ _ _ _ Hcase) as (_ & _ & _ & _ & _ & Hfc & _).
  pose proof (keyed_after _ _ _ _ Hk) as Hkeyed.
  set (w1 := run (notify f Load) (run (loadFile params SetupOk) w)) in *.
  assert (Hw1 : JsMap.get k (cache w1) =
                  Some {| file := f; state := length (signals w0); refCount := 1 |} ∧
                riveBufferId w1 = riveBufferId w0).
  { assert (Hrun : w1 = handled (listenerOf w0 k Load)
              (with_trace (λ t, t ++ [Notified (filesConstructed w0) Load])
                 (started k params w0))).
    { unfold w1, run at 2. rewrite (loadFile_miss_run _ SetupOk _ _ _ Hk Hc Hp).
      simpl. unfold f. rewrite <- Hfc. by rewrite notify_started. }
    rewrite Hrun. unfold handled; simpl. unfold f. rewrite Hfc.
    split; [|done]. apply JsMap_get_set_eq. }
  destruct Hw1 as [Hc1 Hids1].
  pose proof (keyed_same_ids _ _ _ _ Hkeyed Hids1) as Hkeyed1.
  destruct (loads_hits (N - 1) params o w1 k _ Hkeyed1 Hc1) as (Hch & Hidsh & _).
  fold held in Hch, Hidsh. simpl in Hch.
  pose proof (keyed_same_ids _ _ _ _ Hkeyed1 Hidsh) as Hkeyedh.
  replace (1 + Z.of_nat (N - 1))%Z with (Z.of_nat N) in Hch by lia.
  split_and!.
  - eauto.
  - intros j Hj.
    destruct (releases_keep j params thr held k _ Hkeyedh Hch) as (Hcj & _ & Htrj);
      [simpl; lia|].
    simpl in Hcj. rewrite Htrj. split; [done|].
    eexists. rewrite Hcj. do 2 f_equal. lia.
  - destruct N as [|n]; [lia|].
    by destruct (releases_all n params thr held k _ Hkeyedh Hch) as [_ ?].
  - destruct N as [|n]; [lia|].
    by destruct (releases_all n params thr held k _ Hkeyedh Hch) as [? _].
Qed.

Lemma releaseFile_refcount_witness :
  let f := filesConstructed initial in
  let held :=
    loads (3 - 1) params_a SetupOk
      (run (notify f Load) (run (loadFile params_a SetupOk) initial)) in
  (∃ s, JsMap.get "src:a.riv" (cache held) =
          Some {| file := f; state := s; refCount := Z.of_nat 3 |}) ∧
  (∀ j, j < 3 →
     cleanups (trace (releases j params_a true held)) = cleanups (trace held) ∧
     ∃ s, JsMap.get "src:a.riv" (cache (releases j params_a true held)) =
            Some {| file := f; state := s; refCount := Z.of_nat (3 - j) |}) ∧
  cleanups (trace (releases 3 params_a true held)) = cleanups (trace held) ++ [f] ∧
  JsMap.get "src:a.riv" (cache (releases 3 params_a true held)) = None.
Proof.
  apply (releaseFile_refcount initial params_a "src:a.riv" initial 3 SetupOk true).
  - apply reachable_initial.
  - reflexivity.
  - reflexivity.
  - reflexivity.
  - lia.
Defined.

(** ** Cache hits *)

(** C4. A [loadFile] whose key has a CacheEntry returns the entry's signal,
    which already reports [success]; the entry's [refCount] goes up by one
    and nothing else changes: no key is tagged, no file is constructed. *)
Theorem loadFile_cache_hit w params k w0 c o :
  reachable w →
  getCacheKey params w = (Normal k, w0) →
  JsMap.get k (cache w0) = Some c →
  loadFile params o w = (Normal (state c), with_cache (JsMap.set k (bump c)) w) ∧
  signal_get (state c) w =
    Some {| riveFile := Some (file c); status := success |} ∧
  JsMap.get k (cache (run (loadFile params o) w)) =
    Some {| file := file c; state := state c; refCount := refCount c + 1 |} ∧
  (∀ k', k' ≠ k →
     JsMap.get k' (cache (run (loadFile params o) w)) = JsMap.get k' (cache w)) ∧
  trace (run (loadFile params o) w) = trace w ∧
  filesConstructed (run (loadFile params o) w) = filesConstructed w.
Proof.
  intros Hw%reachable_Inv Hk Hc.
  destruct (getCacheKey_Inv _ _ _ _ Hw Hk) as (Hcase & HI0 & _).
  assert (w0 = w) as ->.
  { destruct Hcase as [| | |b Hs Hb Hun]; try done.
    exfalso. assert (Hc' : is_Some (JsMap.get
      ("buffer:" +:+ pretty (bufferIdCounter w + 1)%N) (cache w))).
    { destruct w; simpl in *. eauto. }
    pose proof (inv_keys_bound _ Hw _ (or_introl Hc')). lia. }
  assert (Hrun : loadFile params o w =
            (Normal (state c), with_cache (JsMap.set k (bump c)) w)).
  { rewrite (loadFile_unfold _ _ _ _ _ Hk). by apply loadFile_at_hit. }
  unfold run. rewrite Hrun. simpl. split_and!; try done.
  - apply (inv_entry_signal _ Hw _ _ Hc).
  - apply JsMap_get_set_eq.
  - intros k' Hne. by apply JsMap_get_set_ne.
Qed.

Lemma loadFile_cache_hit_witness :
  let w := (exec (Notify 0 Load) (exec (LoadFile params_a SetupOk) initial).2).2 in
  let c := {| file := 0; state := 0; refCount := 1 |} in
  loadFile params_a SetupOk w =
    (Normal (state c), with_cache (JsMap.set "src:a.riv" (bump c)) w) ∧
  signal_get (state c) w =
    Some {| riveFile := Some (file c); status := success |} ∧
  JsMap.get "src:a.riv" (cache (run (loadFile params_a SetupOk) w)) =
    Some {| file := file c; state := state c; refCount := refCount c + 1 |} ∧
  (∀ k', k' ≠ "src:a.riv" →
     JsMap.get k' (cache (run (loadFile params_a SetupOk) w)) =
     JsMap.get k' (cache w)) ∧
  trace (run (loadFile params_a SetupOk) w) = trace w ∧
  filesConstructed (run (loadFile params_a SetupOk) w) = filesConstructed w.
Proof.
  refine (loadFile_cache_hit
    (exec (Notify 0 Load) (exec (LoadFile params_a SetupOk) initial).2).2
    params_a "src:a.riv"
    (exec (Notify 0 Load) (exec (LoadFile params_a SetupOk) initial).2).2
    {| file := 0; state := 0; refCount := 1 |} SetupOk _ eq_refl eq_refl).
  apply reachable_step; [apply reachable_step; [apply reachable_initial|exact I]|].
  split; [simpl; lia|].
  intros ty Hin. vm_compute in Hin.
  repeat (apply elem_of_cons in Hin as [Hin|Hin]; [discriminate Hin|]).
  by apply elem_of_nil in Hin.
Defined.

(** ** Failed loads *)

(** A miss whose constructor or [init] throws: the signal is set to
    [failed], the promise is fulfilled and no CacheEntry is made; the
    PendingLoad is registered after the [catch] block has run its
    [pendingLoads.delete], so the key stays in the in-flight table. *)
Lemma loadFile_sync_failure params o w k w0 :
  o ≠ SetupOk →
  getCacheKey params w = (Normal k, w0) →
  JsMap.get k (cache w0) = None →
  JsMap.get k (pendingLoads w0) = None →
  let s := length (signals w0) in
  let p := length (promises w0) in
  let w' := run (loadFile params o) w in
  (loadFile params o w).1 = Normal s ∧
  signals w' = signals w0 ++ [{| riveFile := None; status := failed |}] ∧
  promises w' = promises w0 ++ [PromiseFulfilled] ∧
  cache w' = cache w0 ∧
  listeners w' = listeners w0 ∧
  JsMap.get k (pendingLoads w') = Some {| stateSignal := s; promise := p |}.
Proof.
  intros Ho Hk Hc Hp s p w'. unfold w', run.
  rewrite (loadFile_miss_run _ o _ _ _ Hk Hc Hp). simpl.
  assert (Hw' : ∃ ctor, match o with
     | SetupOk => started k params w0
     | ConstructorThrows => failedSetup k params true w0
     | InitThrows => failedSetup k params false w0
     end = failedSetup k params ctor w0) by (destruct o; eauto || done).
  destruct Hw' as [ctor ->]. simpl.
  split_and!; try done. apply JsMap_get_set_eq.
Qed.

(** C3. The first [loadFile] of [a.riv] on the fresh service, with a
    constructor that throws: the state is [failed] and no CacheEntry exists,
    yet the key is still in the in-flight table after [loadFile] returns, so
    that a later [loadFile] joins the dead episode instead of loading again.
    A [loaderror] notification, by contrast, does leave the table without
    the key. *)
Theorem loadFile_sync_throw_stays_pending :
  let w' := run (loadFile params_a ConstructorThrows) initial in
  signal_get 0 w' = Some {| riveFile := None; status := failed |} ∧
  JsMap.get "src:a.riv" (cache w') = None ∧
  JsMap.get "src:a.riv" (pendingLoads w') =
    Some {| stateSignal := 0; promise := 0 |} ∧
  loadFile params_a SetupOk w' = (Normal 0, w') ∧
  JsMap.get "src:a.riv"
    (pendingLoads (run (notify 0 LoadError)
                     (run (loadFile params_a SetupOk) initial))) = None.
Proof. by vm_compute. Qed.

(** A key is returned only when the parameters are not [unkeyable] *)
Lemma KeyCase_keyable params w k w1 : KeyCase params w k w1 → ¬ unkeyable params w.
Proof.
  intros Hcase (Hs & b & Hb & Hun & Hext).
  destruct Hcase as [s Hs'|Hs' Hb'|b' n Hs' Hb' Hid Hn|b' Hs' Hb' Hun' Hext'];
    try congruence.
  replace b' with b in * by congruence. destruct Hun; congruence.
Qed.


(** [releaseFile] throws when the key cannot be computed, and only then *)
Lemma releaseFile_completion params thr w :
  (unkeyable params w ∧ releaseFile params thr w = (Throw TypeError, skipId w)) ∨
  (¬ unkeyable params w ∧ (releaseFile params thr w).1 = Normal ()).
Proof.
  destruct (getCacheKey_case params w) as [(k & w1 & Hk & Hcase)|[Hk Hun]].
  2:{ left. split; [done|]. by apply releaseFile_throw. }
  right. split; [by eapply KeyCase_keyable|].
  rewrite (releaseFile_unfold _ _ _ _ _ Hk).
  destruct (JsMap.get k (cache w1)) as [c|] eqn:Hc.
  2:{ by rewrite (releaseFile_at_absent _ _ _ Hc). }
  destruct (decide (0 < refCount c - 1)%Z) as [Hpos|Hle].
  - by rewrite (releaseFile_at_keep _ _ _ _ Hc Hpos).
  - by rewrite (releaseFile_at_last _ _ _ _ Hc) by lia.
Qed.


(** The handler of an in-flight load, run for its notification *)
Lemma notify_inflight l w :
  Inv w → l ∈ listeners w →
  run (notify (l_file l) (l_type l)) w =
    handled l (with_trace (λ t, t ++ [Notified (l_file l) (l_type l)]) w).
Proof.
  intros HI Hl. unfold run. rewrite notify_run. simpl.
  destruct (listening_cases (l_file l) (l_type l) w)
    as [Hnil|(l' & Hl' & Hin & Hf & Hty)]; [by apply inv_listeners_NoDup| |].
  - exfalso. unfold listening in Hnil.
    assert (Hin : l ∈ filter (λ l0, l_file l0 = l_file l ∧ l_type l0 = l_type l)
                      (listeners w)) by by apply list_elem_of_filter.
    rewrite Hnil in Hin. by apply elem_of_nil in Hin.
  - rewrite Hl'. simpl.
    assert (Hin' : l ∈ listening (l_file l) (l_type l) w)
      by by apply list_elem_of_filter.
    rewrite Hl' in Hin'. apply list_elem_of_singleton in Hin'. by subst.
Qed.




(** ** Clearing the cache *)

Lemma cleanups_flat_map (thr : RiveFile → bool) (es : list CacheEntry) :
  cleanups (flat_map (λ e, cleanupCalls (file e) (thr (file e))) es) = file <$> es.
Proof.
  induction es as [|e es IH]; simpl; [done|].
  unfold cleanups in *. rewrite omap_app, IH.
  by destruct (thr (file e)).
Qed.

(** C6. [clearCache] runs [cleanup] once for each entry of the cache map, in
    the map's order, whatever the ref counts and whichever clean-ups throw;
    it returns normally with the cache map empty and the in-flight table as
    it was.  A load that was in flight then completes into the emptied
    cache: its [load] notification makes the one entry, with [refCount] 1. *)
Theorem clearCache_spec w thr :
  reachable w →
  let w' := run (clearCache thr) w in
  (clearCache thr w).1 = Normal () ∧
  cleanups (trace w') = cleanups (trace w) ++ (file <$> JsMap.values (cache w)) ∧
  NoDup (file <$> JsMap.values (cache w)) ∧
  cache w' = JsMap.empty ∧
  pendingLoads w' = pendingLoads w ∧
  signals w' = signals w ∧
  listeners w' = listeners w ∧
  ∀ l P,
    l ∈ listeners w → l_type l = Load → unsettled (l_file l) w →
    JsMap.get (l_cacheKey l) (pendingLoads w) = Some P →
    let w'' := run (notify (l_file l) Load) w' in
    cache w'' =
      [(l_cacheKey l,
        {| file := l_file l; state := stateSignal P; refCount := 1 |})] ∧
    JsMap.get (l_cacheKey l) (pendingLoads w'') = None ∧
    signal_get (stateSignal P) w'' =
      Some {| riveFile := Some (l_file l); status := success |}.
Proof.
  intros Hw w'. pose proof (reachable_Inv _ Hw) as HI.
  assert (Hw' : reachable w').
  { apply (reachable_step w (ClearCache thr)); [done|exact I]. }
  pose proof (reachable_Inv _ Hw') as HI'.
  assert (Hrun : w' = with_cache (λ _, JsMap.empty)
       (with_trace (λ t, t ++ flat_map (λ e, cleanupCalls (file e) (thr (file e)))
                                (JsMap.values (cache w))) w)).
  { unfold w', run. by rewrite clearCache_run. }
  split_and!.
  - by rewrite clearCache_run.
  - rewrite Hrun. simpl. unfold cleanups. rewrite omap_app. f_equal.
    apply cleanups_flat_map.
  - apply (inv_files_NoDup _ HI).
  - by rewrite Hrun.
  - by rewrite Hrun.
  - by rewrite Hrun.
  - by rewrite Hrun.
  - intros l P Hl Hty [Hf Hun] HP w''.
    assert (Hl' : l ∈ listeners w') by by rewrite Hrun.
    assert (HP' : P = {| stateSignal := l_stateSignal l; promise := l_resolve l |}).
    { rewrite (inv_inflight _ HI _ Hl) in HP; [congruence|].
      intros [ty Hin]. by apply Hun in Hin. }
    assert (Hrun' : w'' = handled l
              (with_trace (λ t, t ++ [Notified (l_file l) Load]) w')).
    { pose proof (notify_inflight l w' HI' Hl') as Hn. by rewrite Hty in Hn. }
    rewrite Hrun'. unfold handled. rewrite Hty. rewrite Hrun. simpl.
    rewrite HP'. simpl. split_and!; [done|apply JsMap_get_delete_eq|].
    unfold signal_get; simpl.
    apply list_lookup_insert_eq, (inv_listener_signal _ HI _ Hl).
Qed.

Lemma clearCache_spec_witness :
  let w := (exec (LoadFile params_b SetupOk)
             (exec (Notify 0 Load)
                (exec (LoadFile params_a SetupOk) initial).2).2).2 in
  let thr := λ _ : RiveFile, true in
  let l := listenerOf (exec (Notify 0 Load)
                (exec (LoadFile params_a SetupOk) initial).2).2 "src:b.riv" Load in
  let P := {| stateSignal := 1; promise := 1 |} in
  let w' := run (clearCache thr) w in
  (clearCache thr w).1 = Normal () ∧
  cleanups (trace w') = cleanups (trace w) ++ (file <$> JsMap.values (cache w)) ∧
  NoDup (file <$> JsMap.values (cache w)) ∧
  cache w' = JsMap.empty ∧
  pendingLoads w' = pendingLoads w ∧
  signals w' = signals w ∧
  listeners w' = listeners w ∧
  let w'' := run (notify (l_file l) Load) w' in
  cache w'' =
    [(l_cacheKey l,
      {| file := l_file l; state := stateSignal P; refCount := 1 |})] ∧
  JsMap.get (l_cacheKey l) (pendingLoads w'') = None ∧
  signal_get (stateSignal P) w'' =
    Some {| riveFile := Some (l_file l); status := success |}.
Proof.
  assert (Hw : reachable (exec (LoadFile params_b SetupOk)
             (exec (Notify 0 Load)
                (exec (LoadFile params_a SetupOk) initial).2).2).2).
  { apply reachable_step; [|exact I].
    apply reachable_step; [apply reachable_step; [apply reachable_initial|exact I]|].
    split; [vm_compute; lia|].
    intros ty Hin. vm_compute in Hin.
    repeat (apply elem_of_cons in Hin as [Hin|Hin]; [discriminate Hin|]).
    by apply elem_of_nil in Hin. }
  pose proof (clearCache_spec _ (λ _, true) Hw) as H.
  cbv zeta in H. destruct H as (H1 & H2 & H3 & H4 & H5 & H6 & H7 & H8).
  cbv zeta.
  do 7 (split; [assumption|]).
  refine (H8 (listenerOf (exec (Notify 0 Load)
                (exec (LoadFile params_a SetupOk) initial).2).2 "src:b.riv" Load)
             {| stateSignal := 1; promise := 1 |} _ _ _ _).
  - vm_compute. right. right. left.
  - vm_compute. reflexivity.
  - split; [vm_compute; lia|].
    intros ty Hin. vm_compute in Hin.
    repeat (apply elem_of_cons in Hin as [Hin|Hin]; [discriminate Hin|]).
    by apply elem_of_nil in Hin.
  - vm_compute. reflexivity.
Defined.

(** ** Buffer identity *)

Lemma handled_ids ls w :
  riveBufferId (foldl (λ w l, handled l w) w ls) = riveBufferId w.
Proof.
  revert w. induction ls as [|l ls IH]; intros w; simpl; [done|].
  rewrite IH. unfold handled. by destruct (l_type l).
Qed.

(** Only [getCacheKey] writes the buffer ids *)
Lemma exec_ids a w :
  riveBufferId (exec a w).2 =
    match params_of a with
    | Some params => riveBufferId (getCacheKey params w).2
    | None => riveBufferId w
    end.
Proof.
  destruct a as [params o|params thr|thr|f ty]; simpl.
  - destruct (getCacheKey_case params w) as [(k & w1 & Hk & _)|[Hk _]].
    2:{ unfold mbind, M_bind. by rewrite (loadFile_throw _ _ _ _ _ Hk), Hk. }
    unfold mbind, M_bind. rewrite (loadFile_unfold _ _ _ _ _ Hk), Hk. simpl.
    destruct (JsMap.get k (cache w1)) as [c|] eqn:Hc.
    { by rewrite (loadFile_at_hit _ _ _ _ _ Hc). }
    destruct (JsMap.get k (pendingLoads w1)) as [p|] eqn:Hp.
    { by rewrite (loadFile_at_join _ _ _ _ _ Hc Hp). }
    rewrite (loadFile_at_miss _ _ _ _ Hc Hp). by destruct o.
  - destruct (getCacheKey_case params w) as [(k & w1 & Hk & _)|[Hk _]].
    2:{ by rewrite (releaseFile_throw _ _ _ _ _ Hk), Hk. }
    rewrite (releaseFile_unfold _ _ _ _ _ Hk), Hk. simpl.
    destruct (JsMap.get k (cache w1)) as [c|] eqn:Hc.
    2:{ by rewrite (releaseFile_at_absent _ _ _ Hc). }
    destruct (decide (0 < refCount c - 1)%Z) as [Hpos|Hle].
    + by rewrite (releaseFile_at_keep _ _ _ _ Hc Hpos).
    + by rewrite (releaseFile_at_last _ _ _ _ Hc) by lia.
  - by rewrite clearCache_run.
  - rewrite notify_run. simpl. by rewrite handled_ids.
Qed.

(** An id, once given to a buffer, stays *)
Lemma getCacheKey_ids_mono params w a n :
  riveBufferId w !! a = Some n → n ≠ 0%N →
  riveBufferId (getCacheKey params w).2 !! a = Some n.
Proof.
  intros Ha Hn.
  destruct (getCacheKey_case params w) as [(k & w1 & Hk & Hcase)|[Hk _]].
  2:{ rewrite Hk. by destruct w. }
  rewrite Hk. simpl. destruct Hcase as [| | |b Hs Hb Hun]; try done.
  unfold untagged in Hun. destruct w; simpl in *.
  rewrite lookup_insert_ne; [done|].
  intros Heq. rewrite Heq in Hun. destruct Hun as [Hun|Hun]; congruence.
Qed.

Lemma exec_ids_mono act w a n :
  riveBufferId w !! a = Some n → n ≠ 0%N →
  riveBufferId (exec act w).2 !! a = Some n.
Proof.
  intros Ha Hn. rewrite exec_ids. destruct (params_of act); [|done].
  by apply getCacheKey_ids_mono.
Qed.

Lemma steps_ids_mono w w' a n :
  steps w w' → riveBufferId w !! a = Some n → n ≠ 0%N →
  riveBufferId w' !! a = Some n.
Proof.
  induction 1 as [|w act w' Hen Hsteps IH]; [done|].
  intros Ha Hn. apply IH; [|done]. by apply exec_ids_mono.
Qed.


(** The key of a buffer parameter whose buffer carries the id [n] *)
Lemma getCacheKey_tagged params b n w :
  truthy (src params) = None → buffer params = Some b →
  riveBufferId w !! addr b = Some n → n ≠ 0%N →
  getCacheKey params w = (Normal ("buffer:" +:+ pretty n), w).
Proof.
  intros Hs Hb Hid Hn. unfold getCacheKey. rewrite Hs, Hb. wsimpl.
  rewrite Hid. by rewrite decide_False.
Qed.

(** After its key has been computed a buffer carries the id in the key *)
Lemma KeyCase_buffer params b w k w1 :
  Inv w →
  truthy (src params) = None → buffer params = Some b →
  KeyCase params w k w1 →
  ∃ n, k = "buffer:" +:+ pretty n ∧ n ≠ 0%N ∧
       riveBufferId w1 !! addr b = Some n.
Proof.
  intros HI Hs Hb Hcase.
  destruct Hcase as [s Hs'|Hs' Hb'|b' n Hs' Hb' Hid Hn|b' Hs' Hb' Hun];
    try congruence.
  - exists n. replace b' with b in * by congruence. done.
  - exists (bufferIdCounter w + 1)%N. replace b' with b in * by congruence.
    split_and!; [done|lia|]. destruct w; simpl. apply lookup_insert_eq.
Qed.



(** The earlier key, by length, does not tell two buffers of one length
    apart. *)
Lemma getCacheKey_byLength_collides :
  addr buffer_1 ≠ addr buffer_2 ∧
  getCacheKey_byLength params_buffer_1 = getCacheKey_byLength params_buffer_2.
Proof. split; [discriminate|reflexivity]. Qed.

(** ** Releasing *)





(** ** Who is cleaned up *)

Lemma handled_trace ls w :
  ∃ new, trace (foldl (λ w l, handled l w) w ls) = trace w ++ new ∧
         ∀ f ok, Cleanup f ok ∉ new.
Proof.
  revert w. induction ls as [|l ls IH]; intros w; simpl.
  - exists []. split; [by rewrite (right_id_L [] (++))|].
    intros f ok. apply not_elem_of_nil.
  - destruct (IH (handled l w)) as (new & -> & Hnew).
    unfold handled. destruct (l_type l); simpl.
    + exists (GetInstance (l_file l) :: new).
      split; [by rewrite <- (assoc_L (++))|].
      intros f ok [[=]|?]%elem_of_cons. by eapply Hnew.
    + by exists new.
Qed.

(** What a step adds to the trace, and which clean-ups are in it *)
Lemma exec_cleanups a w :
  Inv w →
  ∃ new, trace (exec a w).2 = trace w ++ new ∧
    ∀ f ok, Cleanup f ok ∈ new →
      releases_entries a ∧ ∃ k e, JsMap.get k (cache w) = Some e ∧ file e = f.
Proof.
  intros HI. destruct a as [params o|params thr|thr|f ty]; simpl.
  - destruct (getCacheKey_case params w) as [(k & w1 & Hk & Hcase)|[Hk _]].
    2:{ unfold mbind, M_bind. rewrite (loadFile_throw _ _ _ _ _ Hk). exists [].
        split; [destruct w; simpl; by rewrite (right_id_L [] (++))|].
        by intros f ok ?%elem_of_nil. }
    destruct (KeyCase_frame _ _ _ _ Hcase) as (_ & _ & _ & _ & _ & Hfc & Htr).
    unfold mbind, M_bind. rewrite (loadFile_unfold _ _ _ _ _ Hk).
    destruct (JsMap.get k (cache w1)) as [c|] eqn:Hc.
    { rewrite (loadFile_at_hit _ _ _ _ _ Hc). simpl. exists [].
      split; [by rewrite (right_id_L [] (++))|]. by intros f ok ?%elem_of_nil. }
    destruct (JsMap.get k (pendingLoads w1)) as [p|] eqn:Hp.
    { rewrite (loadFile_at_join _ _ _ _ _ Hc Hp). simpl. exists [].
      split; [by rewrite (right_id_L [] (++))|]. by intros f ok ?%elem_of_nil. }
    rewrite (loadFile_at_miss _ _ _ _ Hc Hp). simpl. rewrite <- Htr.
    destruct o; simpl; eexists; (split; [done|]); intros f ok Hin;
      repeat (apply elem_of_cons in Hin as [[=]|Hin]);
      by apply elem_of_nil in Hin.
  - destruct (getCacheKey_case params w) as [(k & w1 & Hk & Hcase)|[Hk _]].
    2:{ rewrite (releaseFile_throw _ _ _ _ _ Hk). exists [].
        split; [destruct w; simpl; by rewrite (right_id_L [] (++))|].
        by intros f ok ?%elem_of_nil. }
    destruct (KeyCase_frame _ _ _ _ Hcase) as (Hca & _ & _ & _ & _ & _ & Htr).
    rewrite (releaseFile_unfold _ _ _ _ _ Hk).
    destruct (JsMap.get k (cache w1)) as [c|] eqn:Hc.
    2:{ rewrite (releaseFile_at_absent _ _ _ Hc). simpl. exists [].
        split; [by rewrite (right_id_L [] (++)), Htr|].
        by intros f ok ?%elem_of_nil. }
    destruct (decide (0 < refCount c - 1)%Z) as [Hpos|Hle].
    + rewrite (releaseFile_at_keep _ _ _ _ Hc Hpos). simpl. exists [].
      split; [by rewrite (right_id_L [] (++)), Htr|].
      by intros f ok ?%elem_of_nil.
    + rewrite (releaseFile_at_last _ _ _ _ Hc) by lia. simpl.
      exists (cleanupCalls (file c) thr). split; [by rewrite Htr|].
      intros f ok Hin. split; [done|]. exists k, c. rewrite <- Hca.
      split; [done|]. unfold cleanupCalls in Hin.
      destruct thr; repeat (apply elem_of_cons in Hin as [[=]|Hin]);
        try done; by apply elem_of_nil in Hin.
  - rewrite clearCache_run. simpl. eexists. split; [done|].
    intros f ok Hin. split; [done|].
    apply list_elem_of_In, in_flat_map in Hin as [e [He Hin]].
    apply list_elem_of_In in He. apply list_elem_of_In in Hin.
    apply elem_values_get in He as [k He]; [|by apply inv_cache_keys].
    exists k, e. split; [done|]. unfold cleanupCalls in Hin.
    destruct (thr (file e)); repeat (apply elem_of_cons in Hin as [[=]|Hin]);
      try done; by apply elem_of_nil in Hin.
  - rewrite notify_run. simpl.
    destruct (handled_trace (listening f ty w)
                (with_trace (λ t, t ++ [Notified f ty]) w)) as (new & -> & Hnew).
    simpl. exists (Notified f ty :: new).
    split; [by rewrite <- (assoc_L (++))|].
    intros f' ok [[=]|Hin]%elem_of_cons. by apply Hnew in Hin.
Qed.

(** C10. [cleanup] is called on cached files only.  Every clean-up in the
    trace of a reachable state is of a file whose [load] notification came
    and that took its instance; a file whose load failed, by a [loaderror]
    notification or by a throwing [init], is never cleaned up; and a step
    calls [cleanup] only from [releaseFile] or [clearCache], on files of
    entries that are in the cache map when the step starts. *)
Theorem cleanup_only_cached w :
  reachable w →
  (∀ f ok, Cleanup f ok ∈ trace w →
     GetInstance f ∈ trace w ∧ Notified f Load ∈ trace w) ∧
  (∀ f ok, Notified f LoadError ∈ trace w ∨ Init f false ∈ trace w →
     Cleanup f ok ∉ trace w) ∧
  (∀ a, ∃ new,
     trace (exec a w).2 = trace w ++ new ∧
     ∀ f ok, Cleanup f ok ∈ new →
       releases_entries a ∧
       ∃ k e, JsMap.get k (cache w) = Some e ∧ file e = f).
Proof.
  intros HI%reachable_Inv.
  assert (Hc : ∀ f ok, Cleanup f ok ∈ trace w →
     GetInstance f ∈ trace w ∧ Notified f Load ∈ trace w ∧ On f Load ∈ trace w).
  { intros f ok Hin%(inv_trace_cleanup _ HI).
    split; [done|]. by apply (inv_trace_instance _ HI). }
  split_and!.
  - intros f ok Hin. destruct (Hc _ _ Hin) as (? & ? & _). done.
  - intros f ok Hfail Hin. destruct (Hc _ _ Hin) as (_ & Hload & Hon).
    destruct Hfail as [Herr|Hinit].
    + by pose proof (inv_trace_once _ HI _ _ _ Hload Herr).
    + by apply (inv_trace_on _ HI) in Hon as [_ ?].
  - intros a. by apply exec_cleanups.
Qed.

Lemma cleanup_only_cached_witness :
  let w := (exec (ReleaseFile params_a false)
              (exec (Notify 1 LoadError)
                 (exec (LoadFile params_b SetupOk)
                    (exec (Notify 0 Load)
                       (exec (LoadFile params_a SetupOk) initial).2).2).2).2).2 in
  (GetInstance 0 ∈ trace w ∧ Notified 0 Load ∈ trace w) ∧
  Cleanup 1 true ∉ trace w.
Proof.
  assert (Hw : reachable
    (exec (ReleaseFile params_a false)
       (exec (Notify 1 LoadError)
          (exec (LoadFile params_b SetupOk)
             (exec (Notify 0 Load)
                (exec (LoadFile params_a SetupOk) initial).2).2).2).2).2).
  { apply reachable_step; [|exact I].
    apply reachable_step.
    - apply reachable_step; [|exact I].
      apply reachable_step; [apply reachable_step; [apply reachable_initial|exact I]|].
      split; [vm_compute; lia|].
      intros ty Hin. vm_compute in Hin.
      repeat (apply elem_of_cons in Hin as [Hin|Hin]; [discriminate Hin|]).
      by apply elem_of_nil in Hin.
    - split; [vm_compute; lia|].
      intros ty Hin. vm_compute in Hin.
      repeat (apply elem_of_cons in Hin as [Hin|Hin]; [discriminate Hin|]).
      by apply elem_of_nil in Hin. }
  destruct (cleanup_only_cached _ Hw) as (H1 & H2 & _).
  split.
  - apply (H1 0 true). vm_compute. do 11 right. left.
  - apply (H2 1 true). left. vm_compute. do 10 right. left.
Defined.

(** ** More invariants of reachable states *)

Lemma elem_of_cleanups f t : f ∈ cleanups t ↔ ∃ ok, Cleanup f ok ∈ t.
Proof.
  unfold cleanups. rewrite list_elem_of_omap. split.
  - intros (c & Hc & Hf). destruct c; try done. injection Hf as ->. eauto.
  - intros (ok & Hin). by exists (Cleanup f ok).
Qed.

Lemma elem_of_instances f t : f ∈ instances t ↔ GetInstance f ∈ t.
Proof.
  unfold instances. rewrite list_elem_of_omap. split.
  - intros (c & Hc & Hf). destruct c; try done. by injection Hf as ->.
  - intros Hin. by exists (GetInstance f).
Qed.

Lemma cleanups_app t1 t2 : cleanups (t1 ++ t2) = cleanups t1 ++ cleanups t2.
Proof. apply omap_app. Qed.

Lemma instances_app t1 t2 : instances (t1 ++ t2) = instances t1 ++ instances t2.
Proof. apply omap_app. Qed.

Lemma instances_cleanupCalls f thr : instances (cleanupCalls f thr) = [].
Proof. by destruct thr. Qed.

Lemma instances_flat_map (thr : RiveFile → bool) (es : list CacheEntry) :
  instances (flat_map (λ e, cleanupCalls (file e) (thr (file e))) es) = [].
Proof.
  induction es as [|e es IH]; simpl; [done|].
  by rewrite instances_app, IH, instances_cleanupCalls.
Qed.

(** Two keys of a map whose values differ under [g] hold different values *)
Lemma JsMap_NoDup_values_inj {V B} (g : V → B) k k' (c c' : V) m :
  NoDup (g <$> JsMap.values m) →
  JsMap.get k m = Some c → JsMap.get k' m = Some c' → g c = g c' → k = k'.
Proof.
  unfold JsMap.values. induction m as [|[k0 v0] m IH]; simpl; [done|].
  intros [Hnin Hnd]%NoDup_cons. repeat case_decide; subst.
  - done.
  - intros [= ->] Hc' Heq. exfalso. apply Hnin. rewrite Heq.
    apply list_elem_of_fmap. exists c'. split; [done|].
    apply list_elem_of_fmap. exists (k', c'). split; [done|].
    by apply JsMap_get_Some_elem.
  - intros Hc [= ->] Heq. exfalso. apply Hnin. rewrite <- Heq.
    apply list_elem_of_fmap. exists c. split; [done|].
    apply list_elem_of_fmap. exists (k, c). split; [done|].
    by apply JsMap_get_Some_elem.
  - by apply IH.
Qed.

Lemma Ledger_initial : Ledger initial.
Proof.
  split; simpl; try (intros; by apply NoDup_nil).
  - by intros s v.
  - by intros l ?%elem_of_nil.
  - by intros l ?%elem_of_nil.
  - by intros l l' ?%elem_of_nil.
  - by intros k e.
Qed.

Lemma Ledger_tagBuffer b w :
  Inv w → Ledger w → untagged b w → Ledger (tagBuffer b w).
Proof.
  intros HI HL Hun. destruct w as [c pl ctr sg pr ids ls n tr].
  Inv_destruct HI. Ledger_destruct HL. unfold untagged in Hun.
  split; simpl in *; done.
Qed.

Lemma Ledger_skipId w : Ledger w → Ledger (skipId w).
Proof.
  intros HL. destruct w as [c pl ctr sg pr ids ls n tr].
  Ledger_destruct HL. split; simpl in *; done.
Qed.

Lemma Ledger_update k c c' w :
  Ledger w → JsMap.get k (cache w) = Some c → file c' = file c →
  Ledger (with_cache (JsMap.set k c') w).
Proof.
  intros HL Hc Hf. destruct w as [ca pl ctr sg pr ids ls n tr].
  Ledger_destruct HL. split; simpl in *; try done.
  intros k' e. rewrite JsMap_get_set. case_decide; subst.
  - intros [= <-]. rewrite Hf. eauto.
  - eauto.
Qed.

Lemma Ledger_last k c thr w :
  Inv w → Ledger w → JsMap.get k (cache w) = Some c →
  Ledger (with_cache (JsMap.delete k)
            (with_trace (λ t, t ++ cleanupCalls (file c) thr) w)).
Proof.
  intros HI HL Hc. destruct w as [ca pl ctr sg pr ids ls n tr].
  Inv_destruct HI. Ledger_destruct HL. simpl in *.
  assert (Hnot : ∀ f, (∃ ty, Notified f ty ∈ tr ++ cleanupCalls (file c) thr) →
                      ∃ ty, Notified f ty ∈ tr).
  { intros f [ty Hin]. exists ty. apply elem_of_app in Hin as [?|Hin]; [done|].
    unfold cleanupCalls in Hin.
    destruct thr; repeat (apply elem_of_cons in Hin as [[=]|Hin]);
      by apply elem_of_nil in Hin. }
  split; simpl; try done.
  - intros l Hl Hns. apply Lload; [done|]. intros [ty Hty]. apply Hns.
    exists ty. apply elem_of_app. by left.
  - intros l Hl Hns. apply Lpend; [done|]. intros [ty Hty]. apply Hns.
    exists ty. apply elem_of_app. by left.
  - rewrite cleanups_app, cleanups_cleanupCalls. apply NoDup_app.
    split_and!; [done| |apply NoDup_singleton].
    intros f Hf ->%list_elem_of_singleton. by eapply Lgone.
  - intros k' e. rewrite JsMap_get_delete. case_decide as Hk; [done|].
    intros He. rewrite cleanups_app, cleanups_cleanupCalls.
    intros [Hin|Hin]%elem_of_app.
    + by eapply Lgone.
    + apply list_elem_of_singleton in Hin. apply Hk.
      by eapply (JsMap_NoDup_values_inj file).
  - by rewrite instances_app, instances_cleanupCalls, (right_id_L [] (++)).
Qed.

Lemma Ledger_clear thr w :
  Inv w → Ledger w →
  Ledger (with_cache (λ _, JsMap.empty)
            (with_trace
               (λ t, t ++ flat_map (λ e, cleanupCalls (file e) (thr (file e)))
                             (JsMap.values (cache w))) w)).
Proof.
  intros HI HL. destruct w as [ca pl ctr sg pr ids ls n tr].
  Inv_destruct HI. Ledger_destruct HL. simpl in *.
  assert (Hsub : ∀ c, c ∈ tr → c ∈ tr ++ flat_map
            (λ e, cleanupCalls (file e) (thr (file e))) (JsMap.values ca)).
  { intros c ?. apply elem_of_app. by left. }
  split; unfold JsMap.empty; simpl; try done.
  - intros l Hl Hns. apply Lload; [done|]. intros [ty Hty]. apply Hns. exists ty. by apply Hsub.
  - intros l Hl Hns. apply Lpend; [done|]. intros [ty Hty]. apply Hns. exists ty. by apply Hsub.
  - rewrite cleanups_app, cleanups_flat_map. apply NoDup_app.
    split_and!; [done| |done].
    intros f Hf [e [-> He]]%list_elem_of_fmap.
    apply elem_values_get in He as [k He]; [|done]. by eapply Lgone.
  - by rewrite instances_app, instances_flat_map, (right_id_L [] (++)).
Qed.

Lemma Ledger_started k params w :
  Inv w → Ledger w → Ledger (started k params w).
Proof.
  intros HI HL. destruct w as [ca pl ctr sg pr ids ls n tr].
  Inv_destruct HI. Ledger_destruct HL. simpl in *.
  assert (Hnew : ∀ l, l ∈ ls ++ [listenerOf {| cache := ca; pendingLoads := pl;
              bufferIdCounter := ctr; signals := sg; promises := pr;
              riveBufferId := ids; listeners := ls; filesConstructed := n;
              trace := tr |} k Load; listenerOf {| cache := ca; pendingLoads := pl;
              bufferIdCounter := ctr; signals := sg; promises := pr;
              riveBufferId := ids; listeners := ls; filesConstructed := n;
              trace := tr |} k LoadError] →
            l ∈ ls ∨ (l_file l = n ∧ l_stateSignal l = length sg ∧
                      l_resolve l = length pr)).
  { intros l. unfold listenerOf. simpl. elems.
    intros [?|[->|[->|[]]]]; simpl; auto 10. }
  assert (Hold : ∀ f, ¬ (∃ ty, Notified f ty ∈ tr ++
              [NewRiveFile params (Some n); Init n true; On n Load; On n LoadError]) →
            ¬ ∃ ty, Notified f ty ∈ tr).
  { intros f Hns [ty Hty]. apply Hns. exists ty. apply elem_of_app. by left. }
  split; simpl; try done.
  - intros s v [Hv|[_ Hv]]%lookup_app_Some; [eauto|].
    destruct (s - length sg); simpl in Hv; [|done].
    injection Hv as <-. by left.
  - intros l [Hl|(_ & -> & _)]%Hnew Hns.
    + apply lookup_app_l_Some. apply Lload; [done|by apply Hold].
    + by apply list_lookup_middle.
  - intros l [Hl|(_ & _ & ->)]%Hnew Hns.
    + apply lookup_app_l_Some. apply Lpend; [done|by apply Hold].
    + by apply list_lookup_middle.
  - intros l l' [Hl|(Hf & _ & Hp)]%Hnew [Hl'|(Hf' & _ & Hp')]%Hnew Heq.
    + eauto.
    + apply Hlp in Hl. lia.
    + apply Hlp in Hl'. lia.
    + congruence.
  - rewrite cleanups_app. simpl. by rewrite (right_id_L [] (++)).
  - intros k' e He. rewrite cleanups_app. simpl.
    rewrite (right_id_L [] (++)). eauto.
  - rewrite instances_app. simpl. by rewrite (right_id_L [] (++)).
Qed.

Lemma Ledger_failedSetup k params ctor w :
  Inv w → Ledger w → JsMap.get k (pendingLoads w) = None →
  Ledger (failedSetup k params ctor w).
Proof.
  intros HI HL Hp. destruct w as [ca pl ctr sg pr ids ls n tr].
  Inv_destruct HI. Ledger_destruct HL. simpl in *.
  assert (Hold : ∀ f, ¬ (∃ ty, Notified f ty ∈ tr ++
              (if ctor then [NewRiveFile params None; ConsoleError]
               else [NewRiveFile params (Some n); Init n false; ConsoleError])) →
            ¬ ∃ ty, Notified f ty ∈ tr).
  { intros f Hns [ty Hty]. apply Hns. exists ty. apply elem_of_app. by left. }
  unfold failedSetup; simpl.
  split; simpl; try done.
  - intros s v [Hv|[_ Hv]]%lookup_app_Some; [eauto|].
    destruct (s - length sg); simpl in Hv; [|done].
    injection Hv as <-. right. by left.
  - intros l Hl Hns. apply lookup_app_l_Some. apply Lload; [done|by apply Hold].
  - intros l Hl Hns. apply lookup_app_l_Some. apply Lpend; [done|by apply Hold].
  - rewrite cleanups_app. by destruct ctor; simpl; rewrite (right_id_L [] (++)).
  - intros k' e He. rewrite cleanups_app.
    destruct ctor; simpl; rewrite (right_id_L [] (++)); eauto.
  - rewrite instances_app. by destruct ctor; simpl; rewrite (right_id_L [] (++)).
Qed.

Lemma Ledger_notified f ty w :
  Ledger w → Ledger (with_trace (λ t, t ++ [Notified f ty]) w).
Proof.
  intros HL. destruct w as [ca pl ctr sg pr ids ls n tr].
  Ledger_destruct HL. simpl in *.
  split; simpl; try done.
  - intros l Hl Hns. apply Lload; [done|]. intros [ty' Hty]. apply Hns.
    exists ty'. apply elem_of_app. by left.
  - intros l Hl Hns. apply Lpend; [done|]. intros [ty' Hty]. apply Hns.
    exists ty'. apply elem_of_app. by left.
  - rewrite cleanups_app. simpl. by rewrite (right_id_L [] (++)).
  - intros k' e He. rewrite cleanups_app. simpl.
    rewrite (right_id_L [] (++)). eauto.
  - rewrite instances_app. simpl. by rewrite (right_id_L [] (++)).
Qed.

Lemma lookup_insert_shape (sg : list RiveFileState) s0 v0 s v :
  <[s0 := v0]> sg !! s = Some v → v = v0 ∨ sg !! s = Some v.
Proof.
  destruct (decide (s0 = s)) as [->|Hne].
  - destruct (decide (s < length sg)).
    + rewrite list_lookup_insert_eq by done. intros [= <-]. by left.
    + rewrite list_insert_ge by lia. by right.
  - rewrite list_lookup_insert_ne by done. by right.
Qed.

Lemma Ledger_handled f ty l w :
  Inv w → Ledger w → unsettled f w →
  l ∈ listeners w → l_file l = f → l_type l = ty →
  Ledger (handled l (with_trace (λ t, t ++ [Notified f ty]) w)).
Proof.
  intros HI HL [Hf Hun] Hl Hlf0 Hlty.
  destruct w as [ca pl ctr sg pr ids ls n tr].
  Inv_destruct HI. Ledger_destruct HL. simpl in *.
  destruct l as [f0 ty0 s0 k0 p0]. simpl in *. subst f0 ty0.
  assert (Hother : ∀ l', l' ∈ ls →
            ¬ (∃ ty', Notified (l_file l') ty' ∈ tr ++ [Notified f ty]) →
            l_file l' ≠ f ∧ ¬ ∃ ty', Notified (l_file l') ty' ∈ tr).
  { intros l' Hl' Hns. split.
    - intros Heq. apply Hns. exists ty. rewrite Heq. elems. auto.
    - intros [ty' Hty']. apply Hns. exists ty'. elems. auto. }
  assert (Hcl : ∀ ok, Cleanup f ok ∉ tr).
  { intros ok Hin%Htc%Hti. destruct Hin as [Hin _]. by apply Hun in Hin. }
  assert (Hgi : GetInstance f ∉ tr).
  { intros Hin%Hti. destruct Hin as [Hin _]. by apply Hun in Hin. }
  assert (Hsig : ∀ l', l' ∈ ls → l_file l' ≠ f → l_stateSignal l' ≠ s0).
  { intros l' Hl' Hne Heq. apply Hne. by apply (Hlep _ _ Hl' Hl). }
  assert (Hpr : ∀ l', l' ∈ ls → l_file l' ≠ f → l_resolve l' ≠ p0).
  { intros l' Hl' Hne Heq. apply Hne. by apply (Lpep _ _ Hl' Hl). }
  unfold handled; simpl. destruct ty; unfold loaded, loadFailed; simpl.
  - split; simpl; try done.
    + intros s v [->|Hv]%lookup_insert_shape; [|eauto]. right. right. eauto.
    + intros l' Hl' Hns. destruct (Hother l' Hl') as [Hne Hns'].
      { intros [ty' Hty']. apply Hns. exists ty'. simpl. elems. elems in Hty'.
        tauto. }
      rewrite list_lookup_insert_ne by (symmetry; by apply Hsig). eauto.
    + intros l' Hl' Hns. destruct (Hother l' Hl') as [Hne Hns'].
      { intros [ty' Hty']. apply Hns. exists ty'. simpl. elems. elems in Hty'.
        tauto. }
      rewrite list_lookup_alter_ne by (symmetry; by apply Hpr). eauto.
    + rewrite !cleanups_app. simpl. by rewrite !(right_id_L [] (++)).
    + intros k e. rewrite JsMap_get_set. rewrite !cleanups_app. simpl.
      rewrite !(right_id_L [] (++)). case_decide; [|eauto].
      intros [= <-]. simpl. intros [ok Hin]%elem_of_cleanups. by eapply Hcl.
    + rewrite !instances_app. simpl. rewrite (right_id_L [] (++)).
      apply NoDup_app. split_and!; [done| |apply NoDup_singleton].
      intros f' Hf' ->%list_elem_of_singleton. by apply elem_of_instances in Hf'.
  - split; simpl; try done.
    + intros s v [->|Hv]%lookup_insert_shape; [|eauto]. right. by left.
    + intros l' Hl' Hns. destruct (Hother l' Hl' Hns) as [Hne Hns'].
      rewrite list_lookup_insert_ne by (symmetry; by apply Hsig). eauto.
    + intros l' Hl' Hns. destruct (Hother l' Hl' Hns) as [Hne Hns'].
      rewrite list_lookup_alter_ne by (symmetry; by apply Hpr). eauto.
    + rewrite cleanups_app. simpl. by rewrite (right_id_L [] (++)).
    + intros k e He. rewrite cleanups_app. simpl.
      rewrite (right_id_L [] (++)). eauto.
    + rewrite instances_app. simpl. by rewrite (right_id_L [] (++)).
Qed.

Lemma Ledger_exec a w : Inv w → Ledger w → enabled a w → Ledger (exec a w).2.
Proof.
  intros HI HL Hen. destruct a as [params o|params thr|thr|f ty]; simpl.
  - destruct (getCacheKey_case params w) as [(k & w1 & Hk & Hcase)|[Hk _]].
    2:{ unfold mbind, M_bind. rewrite (loadFile_throw _ _ _ _ _ Hk).
        by apply Ledger_skipId. }
    unfold mbind, M_bind. rewrite (loadFile_unfold _ _ _ _ _ Hk).
    destruct (KeyCase_Inv _ _ _ _ HI Hcase) as [HI1 _].
    assert (HL1 : Ledger w1).
    { destruct Hcase; try done. by apply Ledger_tagBuffer. }
    destruct (JsMap.get k (cache w1)) as [c|] eqn:Hc.
    { rewrite (loadFile_at_hit _ _ _ _ _ Hc). simpl.
      by eapply Ledger_update. }
    destruct (JsMap.get k (pendingLoads w1)) as [p|] eqn:Hp.
    { by rewrite (loadFile_at_join _ _ _ _ _ Hc Hp). }
    rewrite (loadFile_at_miss _ _ _ _ Hc Hp). simpl.
    destruct o; auto using Ledger_started, Ledger_failedSetup.
  - destruct (getCacheKey_case params w) as [(k & w1 & Hk & Hcase)|[Hk _]].
    2:{ rewrite (releaseFile_throw _ _ _ _ _ Hk). by apply Ledger_skipId. }
    rewrite (releaseFile_unfold _ _ _ _ _ Hk).
    destruct (KeyCase_Inv _ _ _ _ HI Hcase) as [HI1 _].
    assert (HL1 : Ledger w1).
    { destruct Hcase; try done. by apply Ledger_tagBuffer. }
    destruct (JsMap.get k (cache w1)) as [c|] eqn:Hc.
    2:{ by rewrite (releaseFile_at_absent _ _ _ Hc). }
    destruct (decide (0 < refCount c - 1)%Z) as [Hpos|Hle].
    + rewrite (releaseFile_at_keep _ _ _ _ Hc Hpos). simpl.
      by eapply Ledger_update.
    + rewrite (releaseFile_at_last _ _ _ _ Hc) by lia. simpl.
      by apply Ledger_last.
  - rewrite clearCache_run. simpl. by apply Ledger_clear.
  - rewrite notify_run. simpl.
    destruct (listening_cases f ty w) as [->|(l & -> & Hl & Hf & Hty)].
    { by apply inv_listeners_NoDup. }
    + simpl. by apply Ledger_notified.
    + simpl. by apply Ledger_handled.
Qed.

Lemma reachable_Ledger w : reachable w → Ledger w.
Proof.
  induction 1 as [|w a Hw IH Hen]; [apply Ledger_initial|].
  apply Ledger_exec; [by apply reachable_Inv|done|done].
Qed.

(** ** Keys, signals and calls in reachable states *)

Lemma exec_LoadFile_run params o w :
  (exec (LoadFile params o) w).2 = run (loadFile params o) w.
Proof.
  simpl. unfold run, mbind, M_bind. by destruct (loadFile params o w) as [[s|e] w'].
Qed.

Lemma reachable_sample_world : reachable sample_world.
Proof.
  unfold sample_world, sample_run, exec_all. cbn [foldl].
  assert (Hun : ∀ f w, f < filesConstructed w →
            (∀ ty, Notified f ty ∉ trace w) → unsettled f w) by by split.
  repeat (apply reachable_step;
          [|first [exact I|apply Hun; [vm_compute; lia|
              intros ty Hin; vm_compute in Hin;
              repeat (apply elem_of_cons in Hin as [Hin|Hin]; [discriminate Hin|]);
              by apply elem_of_nil in Hin]]]).
  apply reachable_initial.
Qed.

(** X1. [getCacheKey] gives two parameter objects the same key exactly when
    they name the same resource: the same non-empty [src], or no [src] and
    the same buffer object, or neither a [src] nor a buffer.  The second
    key is computed after the first, as two calls of the service would. *)
Theorem getCacheKey_same_key_iff w p1 p2 k1 k2 w1 w2 :
  reachable w →
  getCacheKey p1 w = (Normal k1, w1) →
  getCacheKey p2 w1 = (Normal k2, w2) →
  k1 = k2 ↔ same_resource p1 p2.
Proof.
  intros HI%reachable_Inv Hk1 Hk2.
  destruct (getCacheKey_Inv _ _ _ _ HI Hk1) as (Hc1 & HI1 & _).
  destruct (getCacheKey_Inv _ _ _ _ HI1 Hk2) as (Hc2 & HI2 & _).
  unfold same_resource.
  destruct Hc1 as [s1 Hs1|Hs1 Hb1|b1 n1 Hs1 Hb1 Hid1 Hn1|b1 Hs1 Hb1 Hun1 Hext1];
    rewrite Hs1, ?Hb1.
  - destruct Hc2 as [s2 Hs2|Hs2 Hb2|b2 n2 Hs2 Hb2 Hid2 Hn2|b2 Hs2 Hb2 Hun2];
      rewrite Hs2; simpl.
    + split; [by intros [= ?]|by intros <-].
    + split; [by intros [=]|done].
    + split; [by intros [=]|done].
    + split; [by intros [=]|done].
  - destruct Hc2 as [s2 Hs2|Hs2 Hb2|b2 n2 Hs2 Hb2 Hid2 Hn2|b2 Hs2 Hb2 Hun2];
      rewrite Hs2, ?Hb2; simpl.
    + split; [by intros [=]|done].
    + done.
    + split; [by intros [=]|done].
    + split; [by intros [=]|done].
  - destruct Hc2 as [s2 Hs2|Hs2 Hb2|b2 n2 Hs2 Hb2 Hid2 Hn2|b2 Hs2 Hb2 Hun2];
      rewrite Hs2, ?Hb2.
    + simpl. split; [by intros [=]|done].
    + simpl. split; [by intros [=]|done].
    + split.
      * intros Heq%buffer_key_inj. subst n2. by apply (inv_ids_inj _ HI _ _ n1).
      * intros Heq. rewrite <- Heq in Hid2. congruence.
    + split.
      * intros Heq%buffer_key_inj. subst n1.
        pose proof (inv_ids_bound _ HI _ _ Hid1). lia.
      * intros Heq. unfold untagged in Hun2. rewrite <- Heq in Hun2.
        destruct Hun2; congruence.
  - pose proof (KeyCase_buffer _ _ _ _ _ HI Hs1 Hb1 (KeyFresh _ _ b1 Hs1 Hb1 Hun1 Hext1))
      as (n & Hkn & Hn & Hid).
    apply buffer_key_inj in Hkn. subst n.
    destruct Hc2 as [s2 Hs2|Hs2 Hb2|b2 n2 Hs2 Hb2 Hid2 Hn2|b2 Hs2 Hb2 Hun2];
      rewrite Hs2, ?Hb2.
    + simpl. split; [by intros [=]|done].
    + simpl. split; [by intros [=]|done].
    + split.
      * intros Heq%buffer_key_inj. rewrite <- Heq in Hid2.
        by apply (inv_ids_inj _ HI1 _ _ _ Hid Hid2).
      * intros Heq. rewrite <- Heq in Hid2. congruence.
    + split.
      * intros Heq%buffer_key_inj.
        assert (bufferIdCounter (tagBuffer b1 w) = (bufferIdCounter w + 1)%N)
          by by destruct w.
        lia.
      * intros Heq. unfold untagged in Hun2. rewrite <- Heq in Hun2.
        destruct Hun2; congruence.
Qed.

Lemma getCacheKey_same_key_iff_witness :
  "buffer:1" = "buffer:2" ↔ same_resource params_buffer_1 params_buffer_2.
Proof.
  exact (getCacheKey_same_key_iff initial params_buffer_1 params_buffer_2
           "buffer:1" "buffer:2" (tagBuffer buffer_1 initial)
           (tagBuffer buffer_2 (tagBuffer buffer_1 initial))
           reachable_initial eq_refl eq_refl).
Defined.

Lemma handled_bufferIdCounter ls w :
  bufferIdCounter (foldl (λ w l, handled l w) w ls) = bufferIdCounter w.
Proof.
  revert w. induction ls as [|l ls IH]; intros w; simpl; [done|].
  rewrite IH. unfold handled. by destruct (l_type l).
Qed.

(** Only [getCacheKey] moves the counter *)
Lemma exec_bufferIdCounter a w :
  bufferIdCounter (exec a w).2 =
    match params_of a with
    | Some params => bufferIdCounter (getCacheKey params w).2
    | None => bufferIdCounter w
    end.
Proof.
  destruct a as [params o|params thr|thr|f ty]; simpl.
  - destruct (getCacheKey_case params w) as [(k & w1 & Hk & _)|[Hk _]].
    2:{ unfold mbind, M_bind. by rewrite (loadFile_throw _ _ _ _ _ Hk), Hk. }
    unfold mbind, M_bind. rewrite (loadFile_unfold _ _ _ _ _ Hk), Hk. simpl.
    destruct (JsMap.get k (cache w1)) as [c|] eqn:Hc.
    { by rewrite (loadFile_at_hit _ _ _ _ _ Hc). }
    destruct (JsMap.get k (pendingLoads w1)) as [p|] eqn:Hp.
    { by rewrite (loadFile_at_join _ _ _ _ _ Hc Hp). }
    rewrite (loadFile_at_miss _ _ _ _ Hc Hp). by destruct o.
  - destruct (getCacheKey_case params w) as [(k & w1 & Hk & _)|[Hk _]].
    2:{ by rewrite (releaseFile_throw _ _ _ _ _ Hk), Hk. }
    rewrite (releaseFile_unfold _ _ _ _ _ Hk), Hk. simpl.
    destruct (JsMap.get k (cache w1)) as [c|] eqn:Hc.
    2:{ by rewrite (releaseFile_at_absent _ _ _ Hc). }
    destruct (decide (0 < refCount c - 1)%Z) as [Hpos|Hle].
    + by rewrite (releaseFile_at_keep _ _ _ _ Hc Hpos).
    + by rewrite (releaseFile_at_last _ _ _ _ Hc) by lia.
  - by rewrite clearCache_run.
  - rewrite notify_run. simpl. by rewrite handled_bufferIdCounter.
Qed.

Lemma ids_onto_tagBuffer b w : untagged b w → ids_onto w → ids_onto (tagBuffer b w).
Proof.
  intros Hun Honto m Hm. destruct w as [c pl ctr sg pr ids ls n tr].
  unfold untagged, ids_onto in *. simpl in *.
  destruct (decide (m = ctr + 1)%N) as [->|Hne].
  - exists (addr b). apply lookup_insert_eq.
  - destruct (Honto m) as [a Ha]; [lia|]. exists a.
    rewrite lookup_insert_ne; [done|]. intros <-.
    destruct Hun as [Hun|Hun]; rewrite Hun in Ha; [done|].
    injection Ha as <-. lia.
Qed.

(** A call with an extensible buffer leaves no gap in the ids *)
Lemma ids_onto_exec a w : extensible_call a → ids_onto w → ids_onto (exec a w).2.
Proof.
  intros Hext Honto. unfold ids_onto.
  rewrite exec_ids, exec_bufferIdCounter. unfold extensible_call in Hext.
  destruct (params_of a) as [params|]; [|done].
  destruct (getCacheKey_case params w) as [(k & w1 & Hk & Hcase)|[Hk Hun]].
  - rewrite Hk. simpl.
    destruct Hcase as [| | |b Hs Hb Hun _]; try done.
    by apply ids_onto_tagBuffer.
  - destruct Hun as (_ & b & Hb & _ & Hfalse). rewrite Hb in Hext. congruence.
Qed.

Lemma reachable_extensible_reachable w : reachable_extensible w → reachable w.
Proof.
  induction 1 as [|w a Hw IH Hen Hext]; [apply reachable_initial|].
  by apply reachable_step.
Qed.

Lemma reachable_extensible_onto w : reachable_extensible w → ids_onto w.
Proof.
  induction 1 as [|w a Hw IH Hen Hext].
  - intros n. simpl. lia.
  - by apply ids_onto_exec.
Qed.

Lemma reachable_extensible_sample_world : reachable_extensible sample_world.
Proof.
  unfold sample_world, sample_run, exec_all. cbn [foldl].
  assert (Hun : ∀ f w, f < filesConstructed w →
            (∀ ty, Notified f ty ∉ trace w) → unsettled f w) by by split.
  repeat (apply reachable_extensible_step;
          [|first [exact I|apply Hun; [vm_compute; lia|
              intros ty Hin; vm_compute in Hin;
              repeat (apply elem_of_cons in Hin as [Hin|Hin]; [discriminate Hin|]);
              by apply elem_of_nil in Hin]]
           |first [exact I|exact eq_refl]]).
  apply reachable_extensible_initial.
Qed.

(** X2. As long as no call brings a buffer that is not extensible, the ids
    carried by buffers are exactly the numbers 1 .. [bufferIdCounter], each
    carried by one buffer: the counter counts the buffers that were tagged.
    (A buffer that is not extensible and has no id makes the counter skip a
    number: see [skipId].) *)
Theorem buffer_ids_count w :
  reachable_extensible w →
  (∀ a n, riveBufferId w !! a = Some n → (1 ≤ n ≤ bufferIdCounter w)%N) ∧
  (∀ n, (1 ≤ n ≤ bufferIdCounter w)%N →
     ∃ a, riveBufferId w !! a = Some n ∧
          ∀ a', riveBufferId w !! a' = Some n → a' = a).
Proof.
  intros Hw. pose proof (reachable_Inv _ (reachable_extensible_reachable _ Hw)) as HI.
  pose proof (reachable_extensible_onto _ Hw) as Honto. split.
  - apply (inv_ids_bound _ HI).
  - intros n Hn. destruct (Honto n Hn) as [a Ha].
    exists a. split; [done|]. intros a' Ha'. by apply (inv_ids_inj _ HI _ _ n).
Qed.

Lemma buffer_ids_count_witness :
  (∀ a n, riveBufferId sample_world !! a = Some n →
     (1 ≤ n ≤ bufferIdCounter sample_world)%N) ∧
  (∀ n, (1 ≤ n ≤ bufferIdCounter sample_world)%N →
     ∃ a, riveBufferId sample_world !! a = Some n ∧
          ∀ a', riveBufferId sample_world !! a' = Some n → a' = a).
Proof.
  exact (buffer_ids_count sample_world reachable_extensible_sample_world).
Defined.

(** X6. No file is cleaned up twice, and no file held by a cache entry has
    been cleaned up: [releaseFile] and [clearCache] remove the entry in the
    same call that cleans its file. *)
Theorem cleanup_at_most_once w :
  reachable w →
  NoDup (cleanups (trace w)) ∧
  ∀ k e, JsMap.get k (cache w) = Some e → file e ∉ cleanups (trace w).
Proof.
  intros HL%reachable_Ledger. split.
  - apply (led_cleanups_NoDup _ HL).
  - apply (led_cleaned_gone _ HL).
Qed.

Lemma cleanup_at_most_once_witness :
  NoDup (cleanups (trace sample_world)) ∧
  ∀ k e, JsMap.get k (cache sample_world) = Some e →
         file e ∉ cleanups (trace sample_world).
Proof. exact (cleanup_at_most_once sample_world reachable_sample_world). Defined.

(** X7. [getInstance] is called once per file, only on a file whose [load]
    notification was delivered, and it has been called on the file of every
    cache entry. *)
Theorem getInstance_once_per_load w :
  reachable w →
  NoDup (instances (trace w)) ∧
  (∀ f, f ∈ instances (trace w) → Notified f Load ∈ trace w) ∧
  (∀ k e, JsMap.get k (cache w) = Some e → file e ∈ instances (trace w)).
Proof.
  intros Hw. pose proof (reachable_Inv _ Hw) as HI.
  pose proof (reachable_Ledger _ Hw) as HL. split_and!.
  - apply (led_instances_NoDup _ HL).
  - intros f Hf%elem_of_instances. by apply (inv_trace_instance _ HI).
  - intros k e He. apply elem_of_instances. by apply (inv_entry_loaded _ HI k).
Qed.

Lemma getInstance_once_per_load_witness :
  NoDup (instances (trace sample_world)) ∧
  (∀ f, f ∈ instances (trace sample_world) →
        Notified f Load ∈ trace sample_world) ∧
  (∀ k e, JsMap.get k (cache sample_world) = Some e →
          file e ∈ instances (trace sample_world)).
Proof.
  exact (getInstance_once_per_load sample_world reachable_sample_world).
Defined.

(** X3. A state signal made by the service holds one of three values:
    [{ null, loading }], [{ null, failed }] or [{ file, success }].  It is
    never [idle], and it carries a file exactly when its status is
    [success]. *)
Theorem signal_states w s v :
  reachable w →
  signal_get s w = Some v →
  status v ≠ idle ∧
  (status v = success ↔ is_Some (riveFile v)) ∧
  state_shape v.
Proof.
  intros HL%reachable_Ledger Hv.
  pose proof (led_signals _ HL s v Hv) as Hshape. split_and!; [| |done].
  - destruct Hshape as [->|[->|[f ->]]]; done.
  - destruct Hshape as [->|[->|[f ->]]]; simpl; split; try done;
      by intros [? [=]].
Qed.

Lemma signal_states_witness :
  let v := {| riveFile := None; status := failed |} in
  status v ≠ idle ∧
  (status v = success ↔ is_Some (riveFile v)) ∧
  state_shape v.
Proof.
  refine (signal_states sample_world 1 _ reachable_sample_world _).
  vm_compute. reflexivity.
Defined.

(** X4. For every handler registered through [file.on] whose file has not
    been notified yet: the signal the handler captured says [loading], the
    promise it captured is pending, the key it captured is registered in
    [pendingLoads] with that signal and promise, and the key has no cache
    entry.  (A file whose [init] threw has no handler, and the statement
    does not speak of it.) *)
Theorem in_flight_state w l :
  reachable w →
  l ∈ listeners w → unsettled (l_file l) w →
  signal_get (l_stateSignal l) w = Some {| riveFile := None; status := loading |} ∧
  promises w !! l_resolve l = Some PromisePending ∧
  JsMap.get (l_cacheKey l) (pendingLoads w) =
    Some {| stateSignal := l_stateSignal l; promise := l_resolve l |} ∧
  JsMap.get (l_cacheKey l) (cache w) = None.
Proof.
  intros Hw Hl [_ Hun]. pose proof (reachable_Inv _ Hw) as HI.
  pose proof (reachable_Ledger _ Hw) as HL.
  assert (Hns : ¬ settled_by (l_file l) w).
  { intros [ty Hty]. by apply Hun in Hty. }
  assert (Hp := inv_inflight _ HI _ Hl Hns).
  split_and!; [by apply (led_inflight_loading _ HL)|
               by apply (led_inflight_pending _ HL)|done|].
  destruct (JsMap.get (l_cacheKey l) (cache w)) as [e|] eqn:He; [|done].
  rewrite (inv_disjoint _ HI) in Hp; [done|]. rewrite He. eauto.
Qed.

Lemma in_flight_state_witness :
  let l := {| l_file := 2; l_type := Load; l_stateSignal := 2;
              l_cacheKey := "buffer:1"; l_resolve := 2 |} in
  signal_get (l_stateSignal l) sample_world =
    Some {| riveFile := None; status := loading |} ∧
  promises sample_world !! l_resolve l = Some PromisePending ∧
  JsMap.get (l_cacheKey l) (pendingLoads sample_world) =
    Some {| stateSignal := l_stateSignal l; promise := l_resolve l |} ∧
  JsMap.get (l_cacheKey l) (cache sample_world) = None.
Proof.
  refine (in_flight_state sample_world
            {| l_file := 2; l_type := Load; l_stateSignal := 2;
               l_cacheKey := "buffer:1"; l_resolve := 2 |}
            reachable_sample_world _ _).
  - vm_compute. do 4 right. left.
  - split; [vm_compute; lia|].
    intros ty Hin. vm_compute in Hin.
    repeat (apply elem_of_cons in Hin as [Hin|Hin]; [discriminate Hin|]).
    by apply elem_of_nil in Hin.
Defined.

Lemma steps_Ledger w w' : steps w w' → Inv w → Ledger w → Ledger w'.
Proof.
  induction 1 as [|w act w' Hen Hsteps IH]; [done|].
  intros HI HL. apply IH; [by apply Inv_exec|by apply Ledger_exec].
Qed.

(** A step writes no signal that has left [loading] *)
Lemma exec_signal_final a w s v :
  Inv w → Ledger w → enabled a w →
  signals w !! s = Some v → status v ≠ loading →
  signals (exec a w).2 !! s = Some v.
Proof.
  intros HI HL Hen Hv Hst. destruct a as [params o|params thr|thr|f ty]; simpl.
  - destruct (getCacheKey_case params w) as [(k & w1 & Hk & Hcase)|[Hk _]].
    2:{ unfold mbind, M_bind. rewrite (loadFile_throw _ _ _ _ _ Hk).
        by destruct w. }
    destruct (KeyCase_frame _ _ _ _ Hcase) as (_ & _ & Hsg & _).
    unfold mbind, M_bind. rewrite (loadFile_unfold _ _ _ _ _ Hk).
    rewrite <- Hsg in Hv.
    destruct (JsMap.get k (cache w1)) as [c|] eqn:Hc.
    { by rewrite (loadFile_at_hit _ _ _ _ _ Hc). }
    destruct (JsMap.get k (pendingLoads w1)) as [p|] eqn:Hp.
    { by rewrite (loadFile_at_join _ _ _ _ _ Hc Hp). }
    rewrite (loadFile_at_miss _ _ _ _ Hc Hp). simpl.
    destruct o; simpl; by apply lookup_app_l_Some.
  - destruct (getCacheKey_case params w) as [(k & w1 & Hk & Hcase)|[Hk _]].
    2:{ rewrite (releaseFile_throw _ _ _ _ _ Hk). by destruct w. }
    destruct (KeyCase_frame _ _ _ _ Hcase) as (_ & _ & Hsg & _).
    rewrite (releaseFile_unfold _ _ _ _ _ Hk). rewrite <- Hsg in Hv.
    destruct (JsMap.get k (cache w1)) as [c|] eqn:Hc.
    2:{ by rewrite (releaseFile_at_absent _ _ _ Hc). }
    destruct (decide (0 < refCount c - 1)%Z) as [Hpos|Hle].
    + by rewrite (releaseFile_at_keep _ _ _ _ Hc Hpos).
    + by rewrite (releaseFile_at_last _ _ _ _ Hc) by lia.
  - by rewrite clearCache_run.
  - rewrite notify_run. simpl.
    destruct (listening_cases f ty w) as [->|(l & -> & Hl & Hf & Hty)].
    { by apply inv_listeners_NoDup. }
    + done.
    + simpl.
      assert (Hload : signals w !! l_stateSignal l =
                Some {| riveFile := None; status := loading |}).
      { apply (led_inflight_loading _ HL _ Hl). subst f.
        intros [ty' Hin]. destruct Hen as [_ Hun]. by apply Hun in Hin. }
      assert (Hne : l_stateSignal l ≠ s).
      { intros Heq. rewrite Heq in Hload.
        pose proof (eq_trans (eq_sym Hv) Hload) as Hvl.
        injection Hvl as ->. by apply Hst. }
      unfold handled. destruct (l_type l); simpl;
        by rewrite list_lookup_insert_ne.
Qed.

(** X5. Once a signal has left [loading] it keeps its value, whatever the
    service is asked to do afterwards: in particular a signal that says
    [success] keeps saying so after its file was released and cleaned up. *)
Theorem terminal_status_is_final w w' s v :
  reachable w → steps w w' →
  signal_get s w = Some v → status v ≠ loading →
  signal_get s w' = Some v.
Proof.
  intros Hw Hsteps. pose proof (reachable_Inv _ Hw) as HI.
  pose proof (reachable_Ledger _ Hw) as HL. clear Hw.
  unfold signal_get.
  induction Hsteps as [|w act w' Hen Hsteps IH]; [done|].
  intros Hv Hst. apply IH; [by apply Inv_exec|by apply Ledger_exec| |done].
  by apply exec_signal_final.
Qed.

Lemma terminal_status_is_final_witness :
  signal_get 1
    (exec (ClearCache (λ _, false))
       (exec (LoadFile params_b SetupOk) sample_world).2).2 =
    Some {| riveFile := None; status := failed |}.
Proof.
  refine (terminal_status_is_final sample_world _ 1
            {| riveFile := None; status := failed |}
            reachable_sample_world _ _ _).
  - apply (steps_step _ (LoadFile params_b SetupOk)); [exact I|].
    apply (steps_step _ (ClearCache (λ _, false))); [exact I|].
    apply steps_refl.
  - vm_compute. reflexivity.
  - discriminate.
Defined.

(** X8. One [releaseFile] on a cached key, in any reachable state: the
    entry's [refCount] is at least 1; if it is 1 the file is cleaned up and
    the entry removed; otherwise the count goes down by one, stays at least
    1, and nothing is called. *)
Theorem releaseFile_tears_down_iff_last w params thr k w0 c :
  reachable w →
  getCacheKey params w = (Normal k, w0) →
  JsMap.get k (cache w0) = Some c →
  let w' := run (releaseFile params thr) w in
  (1 ≤ refCount c)%Z ∧
  (refCount c = 1%Z →
     JsMap.get k (cache w') = None ∧
     cleanups (trace w') = cleanups (trace w) ++ [file c]) ∧
  (refCount c ≠ 1%Z →
     JsMap.get k (cache w') = Some (unbump c) ∧
     (1 ≤ refCount (unbump c))%Z ∧
     trace w' = trace w).
Proof.
  intros HI%reachable_Inv Hk Hc w'.
  destruct (getCacheKey_Inv _ _ _ _ HI Hk) as (Hcase & HI0 & _).
  destruct (KeyCase_frame _ _ _ _ Hcase) as (_ & _ & _ & _ & _ & _ & Htr).
  pose proof (inv_entry_refCount _ HI0 _ _ Hc) as Hge.
  unfold w', run. rewrite (releaseFile_unfold _ _ _ _ _ Hk).
  split_and!; [done| |].
  - intros H1. rewrite (releaseFile_at_last _ _ _ _ Hc) by lia. simpl.
    rewrite JsMap_get_delete_eq. split; [done|].
    by rewrite cleanups_app, cleanups_cleanupCalls, Htr.
  - intros Hne. rewrite (releaseFile_at_keep _ _ _ _ Hc) by lia. simpl.
    rewrite JsMap_get_set_eq. split_and!; [done|simpl; lia|done].
Qed.

Lemma releaseFile_tears_down_iff_last_witness :
  let c := {| file := 0; state := 0; refCount := 1 |} in
  let w' := run (releaseFile params_a true) sample_world in
  (1 ≤ refCount c)%Z ∧
  (refCount c = 1%Z →
     JsMap.get "src:a.riv" (cache w') = None ∧
     cleanups (trace w') = cleanups (trace sample_world) ++ [file c]) ∧
  (refCount c ≠ 1%Z →
     JsMap.get "src:a.riv" (cache w') = Some (unbump c) ∧
     (1 ≤ refCount (unbump c))%Z ∧
     trace w' = trace sample_world).
Proof.
  refine (releaseFile_tears_down_iff_last sample_world params_a true
            "src:a.riv" sample_world {| file := 0; state := 0; refCount := 1 |}
            reachable_sample_world _ _).
  - vm_compute. reflexivity.
  - vm_compute. reflexivity.
Defined.

Lemma settled_by_mono f w w' :
  (∀ c, c ∈ trace w → c ∈ trace w') → settled_by f w → settled_by f w'.
Proof. intros Hsub [ty Hty]. exists ty. by apply Hsub. Qed.

Lemma exec_trace_mono a w c : Inv w → c ∈ trace w → c ∈ trace (exec a w).2.
Proof.
  intros HI Hc. destruct (exec_cleanups a w HI) as (new & -> & _).
  apply elem_of_app. by left.
Qed.

Lemma dead_episode_exec a w k s :
  Inv w → Ledger w → enabled a w →
  dead_episode k s w → dead_episode k s (exec a w).2.
Proof.
  intros HI HL Hen (Hp & Hc & Hs & Hls).
  assert (Hsig : signals (exec a w).2 !! s =
                   Some {| riveFile := None; status := failed |}).
  { by apply exec_signal_final. }
  assert (Hset : ∀ f, settled_by f w → settled_by f (exec a w).2).
  { intros f. apply settled_by_mono. intros c. by apply exec_trace_mono. }
  destruct Hp as [p Hp].
  destruct a as [params o|params thr|thr|f ty]; simpl in *.
  - destruct (getCacheKey_case params w) as [(k' & w1 & Hk & Hcase)|[Hk _]].
    2:{ unfold mbind, M_bind in *. rewrite (loadFile_throw _ _ _ _ _ Hk) in *.
        destruct w. (unfold dead_episode; simpl in *; split_and!); eauto. }
    destruct (KeyCase_frame _ _ _ _ Hcase) as (Hca & Hpl & Hsg & _ & Hlis & _).
    unfold mbind, M_bind in *. rewrite (loadFile_unfold _ _ _ _ _ Hk) in *.
    rewrite <- Hca in Hc. rewrite <- Hpl in Hp. rewrite <- Hlis in Hls.
    destruct (JsMap.get k' (cache w1)) as [c|] eqn:Hc'.
    { rewrite (loadFile_at_hit _ _ _ _ _ Hc') in *. simpl in *.
      (unfold dead_episode; simpl; split_and!); [eauto| |done|eauto].
      rewrite JsMap_get_set_ne; [done|]. intros ->. congruence. }
    destruct (JsMap.get k' (pendingLoads w1)) as [p'|] eqn:Hp'.
    { rewrite (loadFile_at_join _ _ _ _ _ Hc' Hp') in *. simpl in *.
      (unfold dead_episode; simpl; split_and!); eauto. }
    rewrite (loadFile_at_miss _ _ _ _ Hc' Hp') in *. simpl in *.
    assert (Hne : k' ≠ k) by (intros ->; congruence).
    destruct o; simpl in *.
    + (unfold dead_episode; simpl; split_and!); [|done|done|].
      * exists p. by rewrite JsMap_get_set_ne.
      * intros l [Hl|Hl]%elem_of_app Hkl; [eauto|].
        exfalso. apply Hne. rewrite <- Hkl.
        apply elem_of_cons in Hl as [->|Hl]; [done|].
        by apply list_elem_of_singleton in Hl as ->.
    + (unfold dead_episode; simpl; split_and!); [|done|done|eauto].
      exists p. rewrite JsMap_get_set_ne, JsMap_get_delete_ne; done.
    + (unfold dead_episode; simpl; split_and!); [|done|done|eauto].
      exists p. rewrite JsMap_get_set_ne, JsMap_get_delete_ne; done.
  - destruct (getCacheKey_case params w) as [(k' & w1 & Hk & Hcase)|[Hk _]].
    2:{ rewrite (releaseFile_throw _ _ _ _ _ Hk) in *.
        destruct w. (unfold dead_episode; simpl in *; split_and!); eauto. }
    destruct (KeyCase_frame _ _ _ _ Hcase) as (Hca & Hpl & Hsg & _ & Hlis & _).
    rewrite (releaseFile_unfold _ _ _ _ _ Hk) in *.
    rewrite <- Hca in Hc. rewrite <- Hpl in Hp. rewrite <- Hlis in Hls.
    destruct (JsMap.get k' (cache w1)) as [c|] eqn:Hc'.
    2:{ rewrite (releaseFile_at_absent _ _ _ Hc') in *. simpl in *.
        (unfold dead_episode; simpl; split_and!); eauto. }
    assert (Hne : k' ≠ k) by (intros ->; congruence).
    destruct (decide (0 < refCount c - 1)%Z) as [Hpos|Hle].
    + rewrite (releaseFile_at_keep _ _ _ _ Hc' Hpos) in *. simpl in *.
      (unfold dead_episode; simpl; split_and!); [eauto| |done|eauto]. by rewrite JsMap_get_set_ne.
    + rewrite (releaseFile_at_last _ _ _ _ Hc') in * by lia. simpl in *.
      (unfold dead_episode; simpl; split_and!); [eauto| |done|eauto]. by rewrite JsMap_get_delete_ne.
  - rewrite clearCache_run in *. simpl in *. (unfold dead_episode; simpl; split_and!); eauto.
  - rewrite notify_run in *. simpl in *.
    destruct (listening_cases f ty w) as [Hnil|(l & Hone & Hl & Hf & Hty)].
    { by apply inv_listeners_NoDup. }
    + rewrite Hnil in *. simpl in *. (unfold dead_episode; simpl; split_and!); eauto.
    + rewrite Hone in *. simpl in *.
      assert (Hne : l_cacheKey l ≠ k).
      { intros Hkl. destruct (Hls l Hl Hkl) as [ty' Hin].
        destruct Hen as [_ Hun]. rewrite Hf in Hin. by apply Hun in Hin. }
      unfold handled in *. destruct (l_type l); simpl in *.
      * (unfold dead_episode; simpl; split_and!); [|by rewrite JsMap_get_set_ne|done|eauto].
        exists p. by rewrite JsMap_get_delete_ne.
      * (unfold dead_episode; simpl; split_and!); [|done|done|eauto].
        exists p. by rewrite JsMap_get_delete_ne.
Qed.

Lemma settled_by_dec f w : settled_by f w ∨ ¬ settled_by f w.
Proof.
  unfold settled_by. induction (trace w) as [|c t IH].
  - right. intros [ty Hin]. by apply elem_of_nil in Hin.
  - destruct IH as [[ty Hin]|Hno].
    + left. exists ty. by right.
    + destruct c as [? ?|? ?|? ?|?|? ?| | |f' ty'];
        try (right; intros [ty1 Hin1];
             apply elem_of_cons in Hin1 as [Heq|Hin1];
             [discriminate Heq|apply Hno; eauto]).
      destruct (decide (f' = f)) as [->|Hne].
      * left. exists ty'. left.
      * right. intros [ty Hin]. apply elem_of_cons in Hin as [[= ? ?]|Hin].
        -- by subst.
        -- apply Hno. eauto.
Qed.

Lemma steps_dead_episode w w' k s :
  steps w w' → Inv w → Ledger w → dead_episode k s w → dead_episode k s w'.
Proof.
  induction 1 as [|w act w' Hen Hsteps IH]; [done|].
  intros HI HL Hd.
  apply IH; [by apply Inv_exec|by apply Ledger_exec|by apply dead_episode_exec].
Qed.

(** A key, once computed, is computed again the same wherever the ids given
    so far are kept *)
Lemma getCacheKey_stable params w k w1 w2 :
  KeyCase params w k w1 →
  (∀ a n, riveBufferId w1 !! a = Some n → n ≠ 0%N →
          riveBufferId w2 !! a = Some n) →
  getCacheKey params w2 = (Normal k, w2).
Proof.
  intros Hcase Hkeep.
  destruct Hcase as [s Hs|Hs Hb|b n Hs Hb Hid Hn|b Hs Hb Hun].
  - unfold getCacheKey. by rewrite Hs.
  - unfold getCacheKey. by rewrite Hs, Hb.
  - apply getCacheKey_tagged with b; auto.
  - apply getCacheKey_tagged with b; [done|done| |lia].
    apply Hkeep; [|lia]. destruct w. apply lookup_insert_eq.
Qed.

(** X13. After a miss whose set-up threw, the key stays registered in
    [pendingLoads] for good: whatever calls and notifications follow, every
    later [loadFile] for these parameters returns the failed signal of that
    first attempt and changes nothing; no new load is ever started. *)
Theorem sync_failure_is_permanent w params o k w0 w2 o' :
  reachable w →
  o ≠ SetupOk →
  getCacheKey params w = (Normal k, w0) →
  JsMap.get k (cache w0) = None →
  JsMap.get k (pendingLoads w0) = None →
  steps (exec (LoadFile params o) w).2 w2 →
  loadFile params o' w2 = (Normal (length (signals w)), w2) ∧
  signal_get (length (signals w)) w2 =
    Some {| riveFile := None; status := failed |}.
Proof.
  intros Hw Ho Hk Hc Hp Hsteps.
  pose proof (reachable_Inv _ Hw) as HI.
  destruct (getCacheKey_Inv _ _ _ _ HI Hk) as (Hcase & HI0 & _).
  destruct (KeyCase_frame _ _ _ _ Hcase) as (Hca & Hpl & Hsg & _ & Hlis & _ & Htr).
  assert (Hw1 : reachable (exec (LoadFile params o) w).2)
    by (by apply reachable_step).
  pose proof (reachable_Inv _ Hw1) as HI1.
  pose proof (reachable_Ledger _ Hw1) as HL1.
  assert (Hids : riveBufferId (exec (LoadFile params o) w).2 = riveBufferId w0).
  { rewrite exec_ids. simpl. by rewrite Hk. }
  assert (Hdead : dead_episode k (length (signals w))
                    (exec (LoadFile params o) w).2).
  { rewrite exec_LoadFile_run.
    destruct (loadFile_sync_failure params o w k w0 Ho Hk Hc Hp)
      as (_ & Hs' & _ & Hc' & Hl' & Hp').
    cbv zeta in *. rewrite <- Hsg. unfold dead_episode. split_and!.
    - eauto.
    - by rewrite Hc'.
    - rewrite Hs'. by apply list_lookup_middle.
    - intros l Hl Hkl. rewrite Hl', Hlis in Hl.
      assert (Hs0 : settled_by (l_file l) w).
      { destruct (settled_by_dec (l_file l) w) as [?|Hns]; [done|].
        pose proof (inv_inflight _ HI _ Hl Hns) as Hin.
        rewrite Hkl, <- Hpl, Hp in Hin. done. }
      rewrite <- exec_LoadFile_run.
      eapply settled_by_mono; [|done]. intros c. by apply exec_trace_mono. }
  pose proof (steps_dead_episode _ _ _ _ Hsteps HI1 HL1 Hdead)
    as ([p Hp2] & Hc2 & Hs2 & _).
  split; [|done].
  assert (Hk2 : getCacheKey params w2 = (Normal k, w2)).
  { apply (getCacheKey_stable _ _ _ _ _ Hcase). intros a n Ha Hn.
    apply (steps_ids_mono _ _ _ _ Hsteps); [|done]. by rewrite Hids. }
  rewrite (loadFile_unfold _ _ _ _ _ Hk2).
  by rewrite (loadFile_at_join _ _ _ _ _ Hc2 Hp2).
Qed.

Lemma sync_failure_is_permanent_witness :
  let w2 := (exec (ClearCache (λ _, false))
               (exec (ReleaseFile params_b false)
                  (exec (LoadFile params_b InitThrows) initial).2).2).2 in
  loadFile params_b SetupOk w2 = (Normal (length (signals initial)), w2) ∧
  signal_get (length (signals initial)) w2 =
    Some {| riveFile := None; status := failed |}.
Proof.
  refine (sync_failure_is_permanent initial params_b InitThrows "src:b.riv"
            initial _ SetupOk reachable_initial _ eq_refl eq_refl eq_refl _).
  - discriminate.
  - apply (steps_step _ (ReleaseFile params_b false)); [exact I|].
    apply (steps_step _ (ClearCache (λ _, false))); [exact I|].
    apply steps_refl.
Defined.

(** ** Load episodes and the holders of their signals *)

(** The key of an entry or of a load in flight was computed before:
    computing it again changes nothing *)
Lemma getCacheKey_known params w k w0 :
  Inv w → getCacheKey params w = (Normal k, w0) →
  is_Some (JsMap.get k (cache w0)) ∨ is_Some (JsMap.get k (pendingLoads w0)) →
  w0 = w.
Proof.
  intros HI Hk Hsome.
  destruct (getCacheKey_Inv _ _ _ _ HI Hk) as (Hcase & _ & _).
  destruct Hcase as [| | |b Hs Hb Hun]; try done.
  exfalso.
  assert (Hsome' :
    is_Some (JsMap.get ("buffer:" +:+ pretty (bufferIdCounter w + 1)%N) (cache w)) ∨
    is_Some (JsMap.get ("buffer:" +:+ pretty (bufferIdCounter w + 1)%N)
               (pendingLoads w))).
  { destruct w; simpl in *. done. }
  pose proof (inv_keys_bound _ HI _ Hsome'). lia.
Qed.

Lemma exec_all_cons a acts w : exec_all (a :: acts) w = exec_all acts (exec a w).2.
Proof. done. Qed.

(** While a load is in flight, calls for its key leave the service as it is *)
Lemma in_flight_call_noop params k w a P :
  keyed params k w →
  JsMap.get k (cache w) = None →
  JsMap.get k (pendingLoads w) = Some P →
  calls_for params a →
  (exec a w).2 = w.
Proof.
  intros Hkeyed Hc Hp Ha.
  pose proof (Hkeyed w eq_refl) as Hk.
  destruct a as [p o|p thr| |]; simpl in Ha; try done; subst p.
  - rewrite exec_LoadFile_run. unfold run.
    rewrite (loadFile_unfold _ _ _ _ _ Hk).
    by rewrite (loadFile_at_join _ _ _ _ _ Hc Hp).
  - simpl. rewrite (releaseFile_unfold _ _ _ _ _ Hk).
    by rewrite (releaseFile_at_absent _ _ _ Hc).
Qed.

Lemma in_flight_calls_noop params k w acts P :
  keyed params k w →
  JsMap.get k (cache w) = None →
  JsMap.get k (pendingLoads w) = Some P →
  Forall (calls_for params) acts →
  exec_all acts w = w.
Proof.
  intros Hkeyed Hc Hp Hacts. induction Hacts as [|a acts Ha _ IH]; [done|].
  rewrite exec_all_cons. by rewrite (in_flight_call_noop _ _ _ _ _ Hkeyed Hc Hp Ha).
Qed.

Lemma constructions_app t1 t2 :
  constructions (t1 ++ t2) = constructions t1 ++ constructions t2.
Proof. apply omap_app. Qed.

Lemma entry_file_bound w k e :
  Inv w → JsMap.get k (cache w) = Some e → file e < filesConstructed w.
Proof.
  intros HI He.
  pose proof (inv_entry_loaded _ HI _ _ He) as Hg.
  apply (inv_trace_instance _ HI) in Hg as [_ Hon].
  by apply (inv_trace_on _ HI) in Hon as [? _].
Qed.

Lemma entry_signal_bound w k e :
  Inv w → JsMap.get k (cache w) = Some e → state e < length (signals w).
Proof.
  intros HI He. pose proof (inv_entry_signal _ HI _ _ He) as Hs.
  by apply lookup_lt_Some in Hs.
Qed.

(** X10. While a load is in flight, [loadFile] and [releaseFile] calls for
    its key leave the service unchanged, in any number and order.  When the
    file has loaded the entry's [refCount] is 1 however many callers joined,
    so a single [releaseFile] cleans the file up and removes the entry,
    while the signal the callers hold still says [success]. *)
Theorem in_flight_calls_are_not_counted w params k w0 acts thr :
  reachable w →
  getCacheKey params w = (Normal k, w0) →
  JsMap.get k (cache w0) = None →
  JsMap.get k (pendingLoads w0) = None →
  Forall (calls_for params) acts →
  let f := filesConstructed w in
  let s := length (signals w) in
  let w1 := (exec (LoadFile params SetupOk) w).2 in
  let w2 := (exec (Notify f Load) (exec_all acts w1)).2 in
  let w3 := (exec (ReleaseFile params thr) w2).2 in
  exec_all acts w1 = w1 ∧
  JsMap.get k (cache w2) = Some {| file := f; state := s; refCount := 1 |} ∧
  JsMap.get k (cache w3) = None ∧
  cleanups (trace w3) = cleanups (trace w) ++ [f] ∧
  signal_get s w3 = Some {| riveFile := Some f; status := success |}.
Proof.
  intros Hw Hk Hc Hp Hacts. cbv zeta.
  pose proof (reachable_Inv _ Hw) as HI.
  destruct (getCacheKey_Inv _ _ _ _ HI Hk) as (Hcase & HI0 & _).
  destruct (KeyCase_frame _ _ _ _ Hcase) as (Hca & Hpl & Hsg & _ & Hlis & Hfc & Htr).
  assert (Hw1 : (exec (LoadFile params SetupOk) w).2 = started k params w0).
  { rewrite exec_LoadFile_run. unfold run.
    by rewrite (loadFile_miss_run _ _ _ _ _ Hk Hc Hp). }
  rewrite Hw1.
  assert (Hkeyed : keyed params k (started k params w0)).
  { eapply keyed_same_ids; [by eapply keyed_after|done]. }
  assert (Hnoop : exec_all acts (started k params w0) = started k params w0).
  { eapply in_flight_calls_noop; [done| | |done].
    - done.
    - simpl. apply JsMap_get_set_eq. }
  rewrite Hnoop. split; [done|].
  change ((exec (Notify (filesConstructed w) Load) (started k params w0)).2)
    with (run (notify (filesConstructed w) Load) (started k params w0)).
  rewrite <- Hfc, <- Hsg, <- Htr. rewrite (notify_started _ _ _ _ HI0).
  unfold handled. simpl l_type. cbv iota.
  set (w2 := loaded _ _).
  assert (Hc2 : JsMap.get k (cache w2) =
            Some {| file := filesConstructed w0; state := length (signals w0);
                    refCount := 1 |}).
  { unfold w2. simpl. apply JsMap_get_set_eq. }
  split; [done|].
  assert (Hkeyed2 : keyed params k w2).
  { eapply keyed_same_ids; [exact Hkeyed|done]. }
  change ((exec (ReleaseFile params thr) w2).2)
    with (run (releaseFile params thr) w2).
  unfold run. rewrite (releaseFile_last_run _ _ _ _ _ Hkeyed2 Hc2); [|simpl; lia].
  simpl. split_and!.
  - apply JsMap_get_delete_eq.
  - rewrite !cleanups_app, cleanups_cleanupCalls. simpl. by rewrite !app_nil_r.
  - unfold signal_get. simpl. apply list_lookup_insert_eq.
    rewrite length_app. simpl. lia.
Qed.

Lemma in_flight_calls_are_not_counted_witness :
  let f := filesConstructed initial in
  let s := length (signals initial) in
  let w1 := (exec (LoadFile params_a SetupOk) initial).2 in
  let w2 :=
    (exec (Notify f Load)
       (exec_all [LoadFile params_a InitThrows; ReleaseFile params_a false;
                  LoadFile params_a SetupOk] w1)).2 in
  let w3 := (exec (ReleaseFile params_a false) w2).2 in
  exec_all [LoadFile params_a InitThrows; ReleaseFile params_a false;
            LoadFile params_a SetupOk] w1 = w1 ∧
  JsMap.get "src:a.riv" (cache w2) =
    Some {| file := f; state := s; refCount := 1 |} ∧
  JsMap.get "src:a.riv" (cache w3) = None ∧
  cleanups (trace w3) = cleanups (trace initial) ++ [f] ∧
  signal_get s w3 = Some {| riveFile := Some f; status := success |}.
Proof.
  refine (in_flight_calls_are_not_counted initial params_a "src:a.riv" initial
            [LoadFile params_a InitThrows; ReleaseFile params_a false;
             LoadFile params_a SetupOk] false
            reachable_initial eq_refl eq_refl eq_refl _).
  repeat (apply Forall_cons_2; [exact eq_refl|]). apply Forall_nil_2.
Defined.

(** A miss for a key that is neither cached nor pending *)
Lemma loadFile_fresh params k w :
  keyed params k w →
  JsMap.get k (cache w) = None →
  JsMap.get k (pendingLoads w) = None →
  loadFile params SetupOk w = (Normal (length (signals w)), started k params w).
Proof.
  intros Hkeyed Hc Hp.
  by rewrite (loadFile_miss_run _ SetupOk _ _ _ (Hkeyed w eq_refl) Hc Hp).
Qed.

(** X11. After the release that removes an entry, [loadFile] with the same
    parameters is a miss: it constructs a new file and returns a new signal
    in state [loading].  The signal of the old episode still says [success]
    and still holds the file that was cleaned up. *)
Theorem reload_after_last_release w params k w0 c thr :
  reachable w →
  getCacheKey params w = (Normal k, w0) →
  JsMap.get k (cache w0) = Some c →
  refCount c = 1%Z →
  let released := (exec (ReleaseFile params thr) w).2 in
  let reloaded := loadFile params SetupOk released in
  reloaded.1 = Normal (length (signals w)) ∧
  state c < length (signals w) ∧
  file c < filesConstructed w ∧
  constructions (trace reloaded.2) =
    constructions (trace w) ++ [Some (filesConstructed w)] ∧
  cleanups (trace reloaded.2) = cleanups (trace w) ++ [file c] ∧
  signal_get (state c) reloaded.2 =
    Some {| riveFile := Some (file c); status := success |} ∧
  signal_get (length (signals w)) reloaded.2 =
    Some {| riveFile := None; status := loading |} ∧
  JsMap.get k (cache reloaded.2) = None.
Proof.
  intros Hw Hk Hc Hrc. cbv zeta.
  pose proof (reachable_Inv _ Hw) as HI.
  assert (w0 = w) as -> by (eapply getCacheKey_known; eauto).
  pose proof (keyed_after _ _ _ _ Hk) as Hkeyed.
  change ((exec (ReleaseFile params thr) w).2)
    with (run (releaseFile params thr) w).
  unfold run.
  rewrite (releaseFile_last_run _ _ _ _ _ Hkeyed Hc); [|lia].
  cbn [snd]. set (released := with_cache _ _).
  assert (Hkeyed' : keyed params k released)
    by (eapply keyed_same_ids; [exact Hkeyed|done]).
  assert (Hc' : JsMap.get k (cache released) = None)
    by apply JsMap_get_delete_eq.
  assert (Hp' : JsMap.get k (pendingLoads released) = None).
  { simpl. apply (inv_disjoint _ HI). eauto. }
  rewrite (loadFile_fresh _ _ _ Hkeyed' Hc' Hp').
  pose proof (entry_signal_bound _ _ _ HI Hc) as Hsb.
  simpl. split_and!; try done.
  - by eapply entry_file_bound.
  - rewrite !constructions_app. simpl.
    replace (constructions (cleanupCalls (file c) thr)) with (@nil (option RiveFile))
      by (by destruct thr).
    by rewrite app_nil_r.
  - rewrite !cleanups_app, cleanups_cleanupCalls. simpl. by rewrite app_nil_r.
  - unfold signal_get. simpl. rewrite lookup_app_l by done.
    apply (inv_entry_signal _ HI _ _ Hc).
  - unfold signal_get. simpl. by apply list_lookup_middle.
Qed.

Lemma reload_after_last_release_witness :
  let w := (exec (Notify 0 Load) (exec (LoadFile params_a SetupOk) initial).2).2 in
  let c := {| file := 0; state := 0; refCount := 1 |} in
  let released := (exec (ReleaseFile params_a true) w).2 in
  let reloaded := loadFile params_a SetupOk released in
  reloaded.1 = Normal (length (signals w)) ∧
  state c < length (signals w) ∧
  file c < filesConstructed w ∧
  constructions (trace reloaded.2) =
    constructions (trace w) ++ [Some (filesConstructed w)] ∧
  cleanups (trace reloaded.2) = cleanups (trace w) ++ [file c] ∧
  signal_get (state c) reloaded.2 =
    Some {| riveFile := Some (file c); status := success |} ∧
  signal_get (length (signals w)) reloaded.2 =
    Some {| riveFile := None; status := loading |} ∧
  JsMap.get "src:a.riv" (cache reloaded.2) = None.
Proof.
  refine (reload_after_last_release
            (exec (Notify 0 Load) (exec (LoadFile params_a SetupOk) initial).2).2
            params_a "src:a.riv"
            (exec (Notify 0 Load) (exec (LoadFile params_a SetupOk) initial).2).2
            {| file := 0; state := 0; refCount := 1 |} true _ _ _ eq_refl).
  - apply reachable_step; [apply reachable_step; [apply reachable_initial|exact I]|].
    split; [vm_compute; lia|]. intros ty Hin. vm_compute in Hin.
    repeat (apply elem_of_cons in Hin as [Hin|Hin]; [discriminate Hin|]).
    by apply elem_of_nil in Hin.
  - vm_compute. reflexivity.
  - vm_compute. reflexivity.
Defined.

(** X12. After a [loaderror] notification the key is neither cached nor
    pending, so the next [loadFile] for it tries again: a second file is
    constructed and a new signal returned, the first signal stays [failed],
    and the file that failed is not cleaned up. *)
Theorem retry_after_load_error w params k w0 :
  reachable w →
  getCacheKey params w = (Normal k, w0) →
  JsMap.get k (cache w0) = None →
  JsMap.get k (pendingLoads w0) = None →
  let f := filesConstructed w in
  let s := length (signals w) in
  let w2 := (exec (Notify f LoadError) (exec (LoadFile params SetupOk) w).2).2 in
  let retried := loadFile params SetupOk w2 in
  JsMap.get k (cache w2) = None ∧
  JsMap.get k (pendingLoads w2) = None ∧
  retried.1 = Normal (S s) ∧
  constructions (trace retried.2) =
    constructions (trace w) ++ [Some f; Some (S f)] ∧
  cleanups (trace retried.2) = cleanups (trace w) ∧
  signal_get s retried.2 = Some {| riveFile := None; status := failed |} ∧
  signal_get (S s) retried.2 = Some {| riveFile := None; status := loading |}.
Proof.
  intros Hw Hk Hc Hp. cbv zeta.
  pose proof (reachable_Inv _ Hw) as HI.
  destruct (getCacheKey_Inv _ _ _ _ HI Hk) as (Hcase & HI0 & _).
  destruct (KeyCase_frame _ _ _ _ Hcase) as (Hca & Hpl & Hsg & _ & Hlis & Hfc & Htr).
  assert (Hw1 : (exec (LoadFile params SetupOk) w).2 = started k params w0).
  { rewrite exec_LoadFile_run. unfold run.
    by rewrite (loadFile_miss_run _ _ _ _ _ Hk Hc Hp). }
  rewrite Hw1.
  change ((exec (Notify (filesConstructed w) LoadError) (started k params w0)).2)
    with (run (notify (filesConstructed w) LoadError) (started k params w0)).
  rewrite <- Hfc, <- Hsg, <- Htr. rewrite (notify_started _ _ _ _ HI0).
  unfold handled. simpl l_type. cbv iota.
  set (w2 := loadFailed _ _).
  assert (Hc2 : JsMap.get k (cache w2) = None) by done.
  assert (Hp2 : JsMap.get k (pendingLoads w2) = None)
    by apply JsMap_get_delete_eq.
  assert (Hkeyed2 : keyed params k w2).
  { eapply keyed_same_ids; [by eapply keyed_after|done]. }
  rewrite (loadFile_fresh _ _ _ Hkeyed2 Hc2 Hp2).
  assert (Hlen : length (signals w2) = S (length (signals w0))).
  { unfold w2. simpl. rewrite length_insert, length_app. simpl. lia. }
  cbn [fst snd]. split_and!; try done.
  - by rewrite Hlen.
  - unfold w2. simpl. rewrite !constructions_app. simpl.
    by rewrite app_nil_r, <- app_assoc.
  - unfold w2. simpl. rewrite !cleanups_app. simpl. by rewrite !app_nil_r.
  - unfold signal_get, w2. simpl. rewrite lookup_app_l.
    + apply list_lookup_insert_eq. rewrite length_app. simpl. lia.
    + rewrite length_insert, length_app. simpl. lia.
  - unfold signal_get. rewrite <- Hlen. simpl. by apply list_lookup_middle.
Qed.

Lemma retry_after_load_error_witness :
  let f := filesConstructed initial in
  let s := length (signals initial) in
  let w2 :=
    (exec (Notify f LoadError) (exec (LoadFile params_buffer_1 SetupOk) initial).2).2 in
  let retried := loadFile params_buffer_1 SetupOk w2 in
  JsMap.get "buffer:1" (cache w2) = None ∧
  JsMap.get "buffer:1" (pendingLoads w2) = None ∧
  retried.1 = Normal (S s) ∧
  constructions (trace retried.2) =
    constructions (trace initial) ++ [Some f; Some (S f)] ∧
  cleanups (trace retried.2) = cleanups (trace initial) ∧
  signal_get s retried.2 = Some {| riveFile := None; status := failed |} ∧
  signal_get (S s) retried.2 = Some {| riveFile := None; status := loading |}.
Proof.
  refine (retry_after_load_error initial params_buffer_1 "buffer:1"
            (tagBuffer buffer_1 initial) reachable_initial _ _ _).
  - vm_compute. reflexivity.
  - vm_compute. reflexivity.
  - vm_compute. reflexivity.
Defined.

(** X14. [clearCache] cleans up the file of every entry but writes to no
    signal: the signal of each entry still says [success] with the cleaned
    file.  A [loadFile] for a key that was cached then constructs a new file
    and returns a new signal. *)
Theorem clearCache_leaves_stale_signals w thr :
  reachable w →
  let cleared := (exec (ClearCache thr) w).2 in
  (∀ k e, JsMap.get k (cache w) = Some e →
     file e ∈ cleanups (trace cleared) ∧
     signal_get (state e) cleared =
       Some {| riveFile := Some (file e); status := success |}) ∧
  (∀ params k w0 e,
     getCacheKey params w = (Normal k, w0) →
     JsMap.get k (cache w0) = Some e →
     let again := loadFile params SetupOk cleared in
     again.1 = Normal (length (signals w)) ∧
     state e < length (signals w) ∧
     file e < filesConstructed w ∧
     constructions (trace again.2) =
       constructions (trace cleared) ++ [Some (filesConstructed w)] ∧
     signal_get (state e) again.2 =
       Some {| riveFile := Some (file e); status := success |}).
Proof.
  intros Hw. cbv zeta.
  pose proof (reachable_Inv _ Hw) as HI.
  change ((exec (ClearCache thr) w).2) with (run (clearCache thr) w).
  unfold run. rewrite clearCache_run. cbn [snd].
  set (cleared := with_cache _ _). split.
  - intros k e He. split.
    + unfold cleared. simpl. rewrite cleanups_app, cleanups_flat_map.
      apply elem_of_app. right. apply list_elem_of_fmap. exists e. split; [done|].
      apply list_elem_of_fmap. exists (k, e). split; [done|].
      by apply JsMap_get_Some_elem.
    + apply (inv_entry_signal _ HI _ _ He).
  - intros params k w0 e Hk He.
    assert (w0 = w) as -> by (eapply getCacheKey_known; eauto).
    assert (Hkeyed : keyed params k cleared).
    { eapply keyed_same_ids; [by eapply keyed_after|done]. }
    assert (Hp : JsMap.get k (pendingLoads cleared) = None).
    { simpl. apply (inv_disjoint _ HI). eauto. }
    rewrite (loadFile_fresh _ _ _ Hkeyed eq_refl Hp).
    pose proof (entry_signal_bound _ _ _ HI He) as Hsb.
    simpl. split_and!; try done.
    + by eapply entry_file_bound.
    + rewrite !constructions_app. simpl. done.
    + unfold signal_get. simpl. rewrite lookup_app_l by done.
      apply (inv_entry_signal _ HI _ _ He).
Qed.

Lemma clearCache_leaves_stale_signals_witness :
  let w := (exec (Notify 0 Load) (exec (LoadFile params_a SetupOk) initial).2).2 in
  let cleared := (exec (ClearCache (λ _, true)) w).2 in
  (∀ k e, JsMap.get k (cache w) = Some e →
     file e ∈ cleanups (trace cleared) ∧
     signal_get (state e) cleared =
       Some {| riveFile := Some (file e); status := success |}) ∧
  (∀ params k w0 e,
     getCacheKey params w = (Normal k, w0) →
     JsMap.get k (cache w0) = Some e →
     let again := loadFile params SetupOk cleared in
     again.1 = Normal (length (signals w)) ∧
     state e < length (signals w) ∧
     file e < filesConstructed w ∧
     constructions (trace again.2) =
       constructions (trace cleared) ++ [Some (filesConstructed w)] ∧
     signal_get (state e) again.2 =
       Some {| riveFile := Some (file e); status := success |}).
Proof.
  refine (clearCache_leaves_stale_signals
            (exec (Notify 0 Load) (exec (LoadFile params_a SetupOk) initial).2).2
            (λ _, true) _).
  apply reachable_step; [apply reachable_step; [apply reachable_initial|exact I]|].
  split; [vm_compute; lia|]. intros ty Hin. vm_compute in Hin.
  repeat (apply elem_of_cons in Hin as [Hin|Hin]; [discriminate Hin|]).
  by apply elem_of_nil in Hin.
Defined.

(** ** Hits and releases *)

Lemma JsMap_set_set {V} k (v v' : V) m :
  JsMap.set k v' (JsMap.set k v m) = JsMap.set k v' m.
Proof.
  induction m as [|[k0 v0] m IH]; simpl.
  - by rewrite decide_True.
  - case_decide as Hk; simpl.
    + by rewrite decide_True.
    + rewrite decide_False by done. by rewrite IH.
Qed.

Lemma JsMap_set_same {V} k (v : V) m :
  JsMap.get k m = Some v → JsMap.set k v m = m.
Proof.
  induction m as [|[k0 v0] m IH]; simpl; [done|].
  case_decide as Hk.
  - intros [= ->]. by subst.
  - intros Hg. by rewrite IH.
Qed.

Lemma unbump_bump c : unbump (bump c) = c.
Proof. destruct c as [f s n]. unfold unbump, bump. simpl. f_equal. lia. Qed.

Lemma bump_unbump c : bump (unbump c) = c.
Proof. destruct c as [f s n]. unfold unbump, bump. simpl. f_equal. lia. Qed.

Lemma with_cache_same w m : m = cache w → with_cache (λ _, m) w = w.
Proof. intros ->. by destruct w. Qed.

(** X9. On a cached key a [loadFile] followed by a [releaseFile] leaves the
    service exactly as it was; so does a [releaseFile] followed by a
    [loadFile] when the entry is held more than once. *)
Theorem hit_release_round_trip w params k w0 c o thr :
  reachable w →
  getCacheKey params w = (Normal k, w0) →
  JsMap.get k (cache w0) = Some c →
  run (releaseFile params thr) (run (loadFile params o) w) = w ∧
  ((1 < refCount c)%Z →
   run (loadFile params o) (run (releaseFile params thr) w) = w).
Proof.
  intros Hw Hk Hc.
  pose proof (reachable_Inv _ Hw) as HI.
  assert (w0 = w) as -> by (eapply getCacheKey_known; eauto).
  pose proof (keyed_after _ _ _ _ Hk) as Hkeyed.
  pose proof (inv_entry_refCount _ HI _ _ Hc) as Hrc.
  split.
  - unfold run at 2. rewrite (loadFile_hit_run _ _ _ _ _ Hkeyed Hc). cbn [snd].
    set (w1 := with_cache _ w).
    assert (Hkeyed1 : keyed params k w1)
      by (eapply keyed_same_ids; [exact Hkeyed|done]).
    assert (Hc1 : JsMap.get k (cache w1) = Some (bump c))
      by apply JsMap_get_set_eq.
    unfold run. rewrite (releaseFile_keep_run _ _ _ _ _ Hkeyed1 Hc1);
      [|simpl; lia].
    cbn [snd]. rewrite unbump_bump. unfold w1. destruct w; simpl in *.
    unfold with_cache. simpl. f_equal.
    rewrite JsMap_set_set. by apply JsMap_set_same.
  - intros Hgt. unfold run at 2.
    rewrite (releaseFile_keep_run _ _ _ _ _ Hkeyed Hc Hgt). cbn [snd].
    set (w1 := with_cache _ w).
    assert (Hkeyed1 : keyed params k w1)
      by (eapply keyed_same_ids; [exact Hkeyed|done]).
    assert (Hc1 : JsMap.get k (cache w1) = Some (unbump c))
      by apply JsMap_get_set_eq.
    unfold run. rewrite (loadFile_hit_run _ _ _ _ _ Hkeyed1 Hc1).
    cbn [snd]. rewrite bump_unbump. unfold w1. destruct w; simpl in *.
    unfold with_cache. simpl. f_equal.
    rewrite JsMap_set_set. by apply JsMap_set_same.
Qed.

Lemma hit_release_round_trip_witness :
  let w := (exec (LoadFile params_buffer_1 SetupOk)
              (exec (Notify 0 Load)
                 (exec (LoadFile params_buffer_1 SetupOk) initial).2).2).2 in
  run (releaseFile params_buffer_1 true)
    (run (loadFile params_buffer_1 InitThrows) w) = w ∧
  ((1 < refCount {| file := 0%nat; state := 0%nat; refCount := 2 |})%Z →
   run (loadFile params_buffer_1 InitThrows)
     (run (releaseFile params_buffer_1 true) w) = w).
Proof.
  refine (hit_release_round_trip
            (exec (LoadFile params_buffer_1 SetupOk)
               (exec (Notify 0 Load)
                  (exec (LoadFile params_buffer_1 SetupOk) initial).2).2).2
            params_buffer_1 "buffer:1"
            (exec (LoadFile params_buffer_1 SetupOk)
               (exec (Notify 0 Load)
                  (exec (LoadFile params_buffer_1 SetupOk) initial).2).2).2
            {| file := 0; state := 0; refCount := 2 |} InitThrows true _ _ _).
  - apply reachable_step; [|exact I].
    apply reachable_step; [apply reachable_step; [apply reachable_initial|exact I]|].
    split; [vm_compute; lia|]. intros ty Hin. vm_compute in Hin.
    repeat (apply elem_of_cons in Hin as [Hin|Hin]; [discriminate Hin|]).
    by apply elem_of_nil in Hin.
  - vm_compute. reflexivity.
  - vm_compute. reflexivity.
Defined.

(** ** The earlier service *)

Lemma earlier_loadFile_miss params o w :
  JsMap.get (getCacheKey_byLength params) (cache w) = None →
  Earlier.loadFile params o w =
    (Normal (length (signals w)),
     match o with
     | SetupOk => Earlier.started (getCacheKey_byLength params) params w
     | ConstructorThrows => Earlier.failedSetup params true w
     | InitThrows => Earlier.failedSetup params false w
     end).
Proof.
  intros Hc. unfold Earlier.loadFile, Earlier.loadRiveFile. wsimpl.
  rewrite Hc. destruct w as [c pl ctr sg pr ids ls n tr]; simpl in *.
  destruct o; simpl;
    unfold Earlier.started, Earlier.failedSetup, Earlier.listenerOf; simpl;
    rewrite <- ?(assoc_L (++)); simpl;
    rewrite ?insert_snoc; done.
Qed.

Lemma earlier_loadFile_hit params o w c :
  JsMap.get (getCacheKey_byLength params) (cache w) = Some c →
  Earlier.loadFile params o w =
    (Normal (state c),
     with_cache (JsMap.set (getCacheKey_byLength params) (bump c)) w).
Proof. intros Hc. unfold Earlier.loadFile. wsimpl. by rewrite Hc. Qed.

Lemma earlier_releaseFile_run params thr w :
  Earlier.releaseFile params thr w = releaseFile_at (getCacheKey_byLength params) thr w.
Proof. done. Qed.

Lemma earlier_clearCache_run thr w : Earlier.clearCache thr w = clearCache thr w.
Proof. done. Qed.

Lemma earlier_handler_frame l w :
  listeners (Earlier.handler l w).2 = listeners w ∧
  filesConstructed (Earlier.handler l w).2 = filesConstructed w.
Proof.
  unfold Earlier.handler, Earlier.onLoad, Earlier.onLoadError.
  destruct w. destruct (l_type l); wsimpl; done.
Qed.

Lemma earlier_handler_Normal l w : (Earlier.handler l w).1 = Normal ().
Proof.
  unfold Earlier.handler, Earlier.onLoad, Earlier.onLoadError.
  destruct w. destruct (l_type l); wsimpl; done.
Qed.

Lemma earlier_handlers_frame ls w :
  listeners (for_each ls Earlier.handler w).2 = listeners w ∧
  filesConstructed (for_each ls Earlier.handler w).2 = filesConstructed w.
Proof.
  revert w. induction ls as [|l ls IH]; intros w; simpl; [done|].
  unfold mbind, M_bind.
  pose proof (earlier_handler_Normal l w) as Hn.
  pose proof (earlier_handler_frame l w) as [Hl Hf].
  destruct (Earlier.handler l w) as [[[]|e] w']; simpl in *; [|done].
  destruct (IH w') as [-> ->]. done.
Qed.

Lemma earlier_listeners_bound w : Earlier.reachable w → Earlier.listeners_bound w.
Proof.
  induction 1 as [|w a Hw IH].
  - intros l Hl. by apply elem_of_nil in Hl.
  - destruct a as [params o|params thr|thr|f ty]; simpl.
    + unfold mbind, M_bind.
      destruct (JsMap.get (getCacheKey_byLength params) (cache w)) as [c|] eqn:Hc.
      * rewrite (earlier_loadFile_hit _ _ _ _ Hc). simpl. exact IH.
      * rewrite (earlier_loadFile_miss _ _ _ Hc). simpl.
        destruct o; simpl; intros l Hl; unfold Earlier.listeners_bound in IH.
        -- simpl in *. elems in Hl. destruct Hl as [Hl|[->|[->|[]]]]; simpl;
             [apply IH in Hl|..]; lia.
        -- simpl in *. by apply IH.
        -- simpl in *. apply IH in Hl. lia.
    + rewrite earlier_releaseFile_run. unfold releaseFile_at. wsimpl.
      destruct (JsMap.get _ _) as [c|]; simpl; [|exact IH].
      case_decide; simpl; [|exact IH].
      destruct thr; simpl; exact IH.
    + rewrite earlier_clearCache_run, clearCache_run. exact IH.
    + unfold Earlier.notify. unfold mbind, M_bind at 1. unfold call, modify at 1.
      unfold mbind, M_bind at 1. unfold gets.
      intros l Hl.
      destruct (earlier_handlers_frame
                  (filter (λ l, l_file l = f ∧ l_type l = ty)
                     (listeners (with_trace (λ t, t ++ [Notified f ty]) w)))
                  (with_trace (λ t, t ++ [Notified f ty]) w)) as [Hls Hfc].
      rewrite Hls in Hl. rewrite Hfc. destruct w; simpl in *. by apply IH.
Qed.

Lemma earlier_for_each_single l w :
  for_each [l] Earlier.handler w = Earlier.handler l w.
Proof.
  simpl. unfold mbind, M_bind.
  by destruct (Earlier.handler l w) as [[[]|e] w'].
Qed.

Lemma earlier_notify_single f ty w l :
  listening f ty w = [l] →
  Earlier.notify f ty w =
    Earlier.handler l (with_trace (λ t, t ++ [Notified f ty]) w).
Proof.
  intros Hl. unfold Earlier.notify. unfold mbind, M_bind at 1.
  unfold call, modify at 1. unfold mbind, M_bind at 1. unfold gets.
  rewrite <- earlier_for_each_single. f_equal.
  rewrite <- Hl. by destruct w.
Qed.

(** The listeners of the file that a miss constructs *)
Lemma earlier_listening_started k params w w' ty more :
  Earlier.listeners_bound w →
  listeners w' = listeners (Earlier.started k params w) ++ more →
  (∀ l, l ∈ more → l_file l ≠ filesConstructed w) →
  listening (filesConstructed w) ty w' = [Earlier.listenerOf w k ty].
Proof.
  intros Hb Hls Hmore. unfold listening. rewrite Hls. simpl.
  rewrite !filter_app.
  rewrite listening_started_old by exact Hb.
  assert (Hnil : filter (λ l, l_file l = filesConstructed w ∧ l_type l = ty) more = []).
  { clear Hls. induction more as [|a more IH]; [done|].
    rewrite filter_cons, decide_False.
    - apply IH. intros l Hl. apply Hmore. by right.
    - intros [Hf _]. apply (Hmore a); [left|done]. }
  rewrite Hnil, app_nil_r. simpl.
  rewrite !filter_cons, filter_nil. unfold Earlier.listenerOf; simpl.
  destruct ty.
  - rewrite decide_True by done. rewrite decide_False; [done|]. by intros [_ [=]].
  - rewrite decide_False by (by intros [_ [=]]). by rewrite decide_True.
Qed.

Lemma JsMap_values_set_elem {V} k (v e : V) m :
  e ∈ JsMap.values (JsMap.set k v m) → e = v ∨ e ∈ JsMap.values m.
Proof.
  unfold JsMap.values. induction m as [|[k0 v0] m IH]; simpl.
  - intros ->%list_elem_of_singleton. by left.
  - case_decide; simpl.
    + intros [->|Hin]%elem_of_cons; [by left|]. right. by right.
    + intros [->|Hin]%elem_of_cons; [right; left|].
      destruct (IH Hin) as [?|?]; [by left|]. right. by right.
Qed.

Lemma JsMap_values_delete_elem {V} k (e : V) m :
  e ∈ JsMap.values (JsMap.delete k m) → e ∈ JsMap.values m.
Proof.
  unfold JsMap.values. induction m as [|[k0 v0] m IH]; simpl; [done|].
  case_decide; simpl.
  - intros Hin. right. by apply IH.
  - intros [->|Hin]%elem_of_cons; [left|]. right. by apply IH.
Qed.

Lemma JsMap_get_values {V} k (v : V) m :
  JsMap.get k m = Some v → v ∈ JsMap.values m.
Proof.
  intros Hg. apply list_elem_of_fmap. exists (k, v). split; [done|].
  by apply JsMap_get_Some_elem.
Qed.

(** What a handler of the earlier service does *)
Lemma earlier_handler_effect l w :
  let w' := (Earlier.handler l w).2 in
  (Earlier.handler l w).1 = Normal () ∧
  listeners w' = listeners w ∧
  filesConstructed w' = filesConstructed w ∧
  cleanups (trace w') = cleanups (trace w) ∧
  (∀ c, c ∈ trace w → c ∈ trace w') ∧
  (∀ e, e ∈ JsMap.values (cache w') →
     e ∈ JsMap.values (cache w) ∨ file e = l_file l).
Proof.
  unfold Earlier.handler, Earlier.onLoad, Earlier.onLoadError.
  destruct w as [ca pl ctr sg pr ids ls n tr]. destruct (l_type l); wsimpl.
  - split_and!; try done.
    + rewrite cleanups_app. simpl. by rewrite (right_id_L [] (++)).
    + intros c Hc. apply elem_of_app. by left.
    + intros e [->|?]%JsMap_values_set_elem; [by right|by left].
  - split_and!; try done. intros e ?. by left.
Qed.

Lemma earlier_handlers_effect ls w :
  let w' := (for_each ls Earlier.handler w).2 in
  listeners w' = listeners w ∧
  filesConstructed w' = filesConstructed w ∧
  cleanups (trace w') = cleanups (trace w) ∧
  (∀ c, c ∈ trace w → c ∈ trace w') ∧
  (∀ e, e ∈ JsMap.values (cache w') →
     e ∈ JsMap.values (cache w) ∨ ∃ l, l ∈ ls ∧ file e = l_file l).
Proof.
  revert w. induction ls as [|l ls IH]; intros w; simpl.
  { split_and!; try done. intros e ?. by left. }
  unfold mbind, M_bind.
  destruct (earlier_handler_effect l w) as (Hn & Hl & Hf & Hcl & Htr & Hca).
  destruct (Earlier.handler l w) as [[[]|e] w1]; simpl in *; [|done].
  destruct (IH w1) as (Hl' & Hf' & Hcl' & Htr' & Hca').
  split_and!; try congruence.
  - intros c Hc. by apply Htr', Htr.
  - intros e He. destruct (Hca' e He) as [He1|(l' & Hl1 & He1)].
    + destruct (Hca e He1) as [?|?]; [by left|].
      right. exists l. split; [left|done].
    + right. exists l'. split; [by right|done].
Qed.

Lemma earlier_notify_run f ty w :
  Earlier.notify f ty w =
    for_each
      (filter (λ l, l_file l = f ∧ l_type l = ty)
         (listeners (with_trace (λ t, t ++ [Notified f ty]) w)))
      Earlier.handler (with_trace (λ t, t ++ [Notified f ty]) w).
Proof.
  unfold Earlier.notify. unfold mbind, M_bind at 1. unfold call, modify at 1.
  unfold mbind, M_bind at 1. unfold gets. done.
Qed.

(** What a step of the earlier service does to files *)
Lemma earlier_exec_effect a w :
  let w' := (Earlier.exec a w).2 in
  filesConstructed w ≤ filesConstructed w' ∧
  (∀ l, l ∈ listeners w' →
     l ∈ listeners w ∨
     (l_file l = filesConstructed w ∧ filesConstructed w < filesConstructed w')) ∧
  (∀ e, e ∈ JsMap.values (cache w') →
     (∃ e0, e0 ∈ JsMap.values (cache w) ∧ file e0 = file e) ∨
     (∃ l ty, a = Notify (file e) ty ∧ l ∈ listeners w ∧ l_file l = file e)) ∧
  (∃ new, cleanups (trace w') = cleanups (trace w) ++ new ∧
     ∀ f, f ∈ new → ∃ e, e ∈ JsMap.values (cache w) ∧ file e = f) ∧
  (∀ c, c ∈ trace w → c ∈ trace w').
Proof.
  assert (Hnil : ∀ t : list RiveFile, t = t ++ []) by (intros; by rewrite app_nil_r).
  assert (Hold : ∀ e, e ∈ JsMap.values (cache w) →
    (∃ e0, e0 ∈ JsMap.values (cache w) ∧ file e0 = file e) ∨
    (∃ l ty, a = Notify (file e) ty ∧ l ∈ listeners w ∧ l_file l = file e)).
  { intros e He. left. by exists e. }
  destruct a as [params o|params thr|thr|f ty]; simpl.
  - unfold mbind, M_bind.
    destruct (JsMap.get (getCacheKey_byLength params) (cache w)) as [c|] eqn:Hc.
    + rewrite (earlier_loadFile_hit _ _ _ _ Hc). simpl. split_and!; try done.
      * by left.
      * intros e [->|?]%JsMap_values_set_elem; [|by apply Hold].
        left. exists c. split; [by eapply JsMap_get_values|done].
      * exists []. split; [apply Hnil|]. by intros f ?%elem_of_nil.
    + rewrite (earlier_loadFile_miss _ _ _ Hc). simpl.
      destruct o; simpl.
      * split_and!; [lia| |done| |].
        -- intros l Hl. elems in Hl.
           destruct Hl as [Hl|[->|[->|[]]]]; [by left|right; simpl; lia..].
        -- exists []. split; [|by intros f ?%elem_of_nil].
           rewrite cleanups_app. simpl. done.
        -- intros c Hin. apply elem_of_app. by left.
      * split_and!; [lia|by left|done| |].
        -- exists []. split; [|by intros f ?%elem_of_nil].
           rewrite cleanups_app. simpl. done.
        -- intros c Hin. apply elem_of_app. by left.
      * split_and!; [lia|by left|done| |].
        -- exists []. split; [|by intros f ?%elem_of_nil].
           rewrite cleanups_app. simpl. done.
        -- intros c Hin. apply elem_of_app. by left.
  - rewrite earlier_releaseFile_run.
    destruct (JsMap.get (getCacheKey_byLength params) (cache w)) as [c|] eqn:Hc.
    2:{ rewrite (releaseFile_at_absent _ _ _ Hc). simpl. split_and!; try done.
        - by left.
        - exists []. split; [apply Hnil|]. by intros f ?%elem_of_nil. }
    destruct (decide (0 < refCount c - 1)%Z) as [Hpos|Hle].
    + rewrite (releaseFile_at_keep _ _ _ _ Hc Hpos). simpl. split_and!; try done.
      * by left.
      * intros e [->|?]%JsMap_values_set_elem; [|by apply Hold].
        left. exists c. split; [by eapply JsMap_get_values|done].
      * exists []. split; [apply Hnil|]. by intros f ?%elem_of_nil.
    + rewrite (releaseFile_at_last _ _ _ _ Hc) by lia. simpl. split_and!; try done.
      * by left.
      * intros e He%JsMap_values_delete_elem. by apply Hold.
      * exists [file c]. split; [by rewrite cleanups_app, cleanups_cleanupCalls|].
        intros f ->%list_elem_of_singleton. exists c.
        split; [by eapply JsMap_get_values|done].
      * intros c0 Hin. apply elem_of_app. by left.
  - rewrite earlier_clearCache_run, clearCache_run. simpl. split_and!; try done.
    + by left.
    + by intros e ?%elem_of_nil.
    + exists (file <$> JsMap.values (cache w)).
      split; [by rewrite cleanups_app, cleanups_flat_map|].
      intros f (e & -> & Hin)%list_elem_of_fmap. by exists e.
    + intros c Hin. apply elem_of_app. by left.
  - rewrite earlier_notify_run.
    set (w0 := with_trace (λ t, t ++ [Notified f ty]) w).
    destruct (earlier_handlers_effect
                (filter (λ l, l_file l = f ∧ l_type l = ty) (listeners w0)) w0)
      as (Hl & Hf & Hcl & Htr & Hca).
    split_and!.
    + rewrite Hf. by destruct w.
    + intros l Hin. rewrite Hl in Hin. left. by destruct w.
    + intros e He. destruct (Hca e He) as [He0|(l & Hin & Hfile)].
      * left. exists e. split; [by destruct w|done].
      * right. apply list_elem_of_filter in Hin as [[Hlf _] Hin].
        exists l, ty. rewrite Hfile, Hlf. split_and!; [done|by destruct w|done].
    + exists []. rewrite Hcl. split; [|by intros ? ?%elem_of_nil].
      destruct w; simpl. rewrite cleanups_app. simpl. done.
    + intros c Hin. apply Htr. destruct w; simpl. apply elem_of_app. by left.
Qed.

Lemma earlier_files_bound w : Earlier.reachable w → Earlier.files_bound w.
Proof.
  induction 1 as [|w a Hw (IHl & IHe & IHc)].
  - split_and!; simpl; intros ? ?; by apply elem_of_nil in H.
  - destruct (earlier_exec_effect a w) as (Hfc & Hls & Hes & (new & Hcl & Hnew) & _).
    split_and!.
    + intros l Hl. destruct (Hls l Hl) as [Hold|[-> ?]]; [|done].
      apply IHl in Hold. lia.
    + intros e He. destruct (Hes e He) as [(e0 & He0 & <-)|(l & ty & _ & Hl & <-)].
      * apply IHe in He0. lia.
      * apply IHl in Hl. lia.
    + intros f. rewrite Hcl. intros [Hin|Hin]%elem_of_app.
      * apply IHc in Hin. lia.
      * destruct (Hnew f Hin) as (e & He & <-). apply IHe in He. lia.
Qed.

(** A file that lost its cache entry is out of reach of [releaseFile] and
    [clearCache] *)
Lemma earlier_orphaned_exec a w f :
  enabled a w → Earlier.orphaned f w → Earlier.orphaned f (Earlier.exec a w).2.
Proof.
  intros Hen (Hset & Hcl & Hes).
  destruct (earlier_exec_effect a w) as (_ & _ & Hes' & (new & Hnew & Hfrom) & Htr).
  split_and!.
  - destruct Hset as [ty Hty]. exists ty. by apply Htr.
  - rewrite Hnew. intros [Hin|Hin]%elem_of_app; [done|].
    destruct (Hfrom f Hin) as (e & He & Hf). by apply (Hes e He).
  - intros e He Hf. destruct (Hes' e He) as [(e0 & He0 & Heq)|(l & ty & -> & _)].
    + apply (Hes e0 He0). congruence.
    + simpl in Hen. destruct Hen as [_ Hno]. destruct Hset as [ty' Hty'].
      rewrite Hf in Hno. by apply (Hno ty').
Qed.

Lemma earlier_steps_orphaned w w' f :
  Earlier.steps w w' → Earlier.orphaned f w → Earlier.orphaned f w'.
Proof.
  induction 1 as [|w a w' Hen Hsteps IH]; [done|].
  intros Ho. by apply IH, earlier_orphaned_exec.
Qed.

(** X15. The earlier service does not deduplicate: two [loadFile] calls for
    an uncached key construct two files and return two signals.  When both
    files have loaded, the entry of the second has overwritten that of the
    first; releasing the key cleans up the second file only, and the first,
    on which [getInstance] was called, is never cleaned up, whatever the
    service is asked to do afterwards (the runtime notifying each file at
    most once). *)
Theorem earlier_loadFile_not_deduplicated w params thr :
  Earlier.reachable w →
  JsMap.get (getCacheKey_byLength params) (cache w) = None →
  let k := getCacheKey_byLength params in
  let f := filesConstructed w in
  let s := length (signals w) in
  let first := Earlier.loadFile params SetupOk w in
  let second := Earlier.loadFile params SetupOk first.2 in
  let both :=
    run (Earlier.notify (S f) Load) (run (Earlier.notify f Load) second.2) in
  let released := run (Earlier.releaseFile params thr) both in
  first.1 = Normal s ∧ second.1 = Normal (S s) ∧
  constructions (trace second.2) =
    constructions (trace w) ++ [Some f; Some (S f)] ∧
  signal_get s both = Some {| riveFile := Some f; status := success |} ∧
  signal_get (S s) both = Some {| riveFile := Some (S f); status := success |} ∧
  JsMap.get k (cache both) =
    Some {| file := S f; state := S s; refCount := 1 |} ∧
  JsMap.get k (cache released) = None ∧
  cleanups (trace released) = cleanups (trace w) ++ [S f] ∧
  instances (trace released) = instances (trace w) ++ [f; S f] ∧
  ∀ w', Earlier.steps released w' → f ∉ cleanups (trace w').
Proof.
  intros Hreach Hc.
  pose proof (earlier_files_bound _ Hreach) as (Hw & Hbe & Hbc). cbv zeta.
  rewrite (earlier_loadFile_miss _ _ _ Hc). cbn [fst snd].
  set (k := getCacheKey_byLength params).
  set (w1 := Earlier.started k params w).
  assert (Hc1 : JsMap.get (getCacheKey_byLength params) (cache w1) = None) by done.
  rewrite (earlier_loadFile_miss _ _ _ Hc1). cbn [fst snd]. fold k.
  set (w2 := Earlier.started k params w1).
  assert (Hb1 : Earlier.listeners_bound w1).
  { intros l Hl. unfold w1 in *. simpl in *. elems in Hl.
    destruct Hl as [Hl|[->|[->|[]]]]; simpl; [apply Hw in Hl|..]; lia. }
  assert (Hl1 : listening (filesConstructed w) Load w2 = [Earlier.listenerOf w k Load]).
  { apply (earlier_listening_started k params w w2 Load
             [Earlier.listenerOf w1 k Load; Earlier.listenerOf w1 k LoadError]);
      [done|done|].
    intros l Hl. elems in Hl. destruct Hl as [->|[->|[]]]; simpl; lia. }
  unfold run. rewrite (earlier_notify_single _ _ _ _ Hl1).
  set (w3 := (Earlier.handler _ _).2).
  assert (Hw3 : w3 =
    with_cache (JsMap.set k {| file := filesConstructed w;
                               state := length (signals w); refCount := 1 |})
      (with_signals (λ l, <[length (signals w) :=
                             {| riveFile := Some (filesConstructed w);
                                status := success |}]> l)
         (with_trace (λ t, t ++ [Notified (filesConstructed w) Load;
                                 GetInstance (filesConstructed w)]) w2))).
  { unfold w3, Earlier.handler, Earlier.onLoad. destruct w. wsimpl.
    by rewrite <- !(assoc_L (++)). }
  clearbody w3.
  assert (Hl2 : listening (S (filesConstructed w)) Load w3 =
                [Earlier.listenerOf w1 k Load]).
  { apply (earlier_listening_started k params w1 w3 Load []); [done| |].
    - rewrite Hw3. simpl. by rewrite app_nil_r.
    - by intros l ?%elem_of_nil. }
  rewrite (earlier_notify_single _ _ _ _ Hl2).
  set (w4 := (Earlier.handler _ _).2).
  assert (Hw4 : w4 =
    with_cache (JsMap.set k {| file := S (filesConstructed w);
                               state := S (length (signals w)); refCount := 1 |})
      (with_signals (λ l, <[S (length (signals w)) :=
                             {| riveFile := Some (S (filesConstructed w));
                                status := success |}]> l)
         (with_trace (λ t, t ++ [Notified (S (filesConstructed w)) Load;
                                 GetInstance (S (filesConstructed w))]) w3))).
  { unfold w4, Earlier.handler, Earlier.onLoad. destruct w. wsimpl.
    rewrite <- !(assoc_L (++)). rewrite length_app. simpl.
    by rewrite Nat.add_1_r. }
  clearbody w4.
  assert (Hc4 : JsMap.get k (cache w4) =
            Some {| file := S (filesConstructed w);
                    state := S (length (signals w)); refCount := 1 |}).
  { rewrite Hw4. simpl. apply JsMap_get_set_eq. }
  rewrite earlier_releaseFile_run. fold k.
  rewrite (releaseFile_at_last _ _ _ _ Hc4) by (simpl; lia). cbn [snd].
  assert (Hlen : length (signals w1) = S (length (signals w))).
  { unfold w1. simpl. rewrite length_app. simpl. lia. }
  split_and!; try done.
  - by rewrite Hlen.
  - unfold w2, w1. simpl. rewrite !constructions_app. simpl.
    by rewrite <- app_assoc.
  - rewrite Hw4, Hw3. unfold signal_get, w2, w1. simpl.
    rewrite list_lookup_insert_ne by lia.
    apply list_lookup_insert_eq. rewrite !length_app. simpl. lia.
  - rewrite Hw4, Hw3. unfold signal_get, w2, w1. simpl.
    apply list_lookup_insert_eq.
    rewrite length_insert, !length_app. simpl. lia.
  - simpl. apply JsMap_get_delete_eq.
  - simpl. rewrite cleanups_app, cleanups_cleanupCalls.
    rewrite Hw4, Hw3. unfold w2, w1. simpl.
    rewrite !cleanups_app. simpl. by rewrite !app_nil_r.
  - simpl. rewrite instances_app, instances_cleanupCalls.
    rewrite Hw4, Hw3. unfold w2, w1. simpl.
    rewrite !instances_app. simpl. rewrite !app_nil_r.
    by rewrite <- app_assoc.
  - intros w' Hsteps.
    apply (earlier_steps_orphaned _ _ (filesConstructed w) Hsteps).
    split_and!.
    + exists Load. simpl. rewrite Hw4, Hw3. simpl. elems. auto.
    + simpl. rewrite cleanups_app, cleanups_cleanupCalls.
      rewrite Hw4, Hw3. unfold w2, w1. simpl.
      rewrite !cleanups_app. simpl. rewrite !app_nil_r.
      intros [Hin|Hin]%elem_of_app.
      * apply Hbc in Hin. lia.
      * apply list_elem_of_singleton in Hin. lia.
    + simpl. rewrite Hw4, Hw3. unfold w2, w1. simpl.
      rewrite !JsMap_delete_set.
      intros e He%JsMap_values_delete_elem Hf. apply Hbe in He. lia.
Qed.

Lemma earlier_loadFile_not_deduplicated_witness :
  let k := getCacheKey_byLength params_a in
  let f := filesConstructed initial in
  let s := length (signals initial) in
  let first := Earlier.loadFile params_a SetupOk initial in
  let second := Earlier.loadFile params_a SetupOk first.2 in
  let both :=
    run (Earlier.notify (S f) Load) (run (Earlier.notify f Load) second.2) in
  let released := run (Earlier.releaseFile params_a false) both in
  first.1 = Normal s ∧ second.1 = Normal (S s) ∧
  constructions (trace second.2) =
    constructions (trace initial) ++ [Some f; Some (S f)] ∧
  signal_get s both = Some {| riveFile := Some f; status := success |} ∧
  signal_get (S s) both = Some {| riveFile := Some (S f); status := success |} ∧
  JsMap.get k (cache both) =
    Some {| file := S f; state := S s; refCount := 1 |} ∧
  JsMap.get k (cache released) = None ∧
  cleanups (trace released) = cleanups (trace initial) ++ [S f] ∧
  instances (trace released) = instances (trace initial) ++ [f; S f] ∧
  ∀ w', Earlier.steps released w' → f ∉ cleanups (trace w').
Proof.
  exact (earlier_loadFile_not_deduplicated initial params_a false
           Earlier.earlier_initial eq_refl).
Defined.

(** X16. In the earlier service two buffers of equal length share a cache
    entry: once the first has loaded, [loadFile] with the second constructs
    nothing and returns the signal that holds the file made from the
    first. *)
Theorem earlier_equal_length_buffers_share_entry w p1 p2 b1 b2 o :
  Earlier.reachable w →
  truthy (src p1) = None → buffer p1 = Some b1 →
  truthy (src p2) = None → buffer p2 = Some b2 →
  length (bytes b1) = length (bytes b2) →
  JsMap.get (getCacheKey_byLength p1) (cache w) = None →
  let f := filesConstructed w in
  let s := length (signals w) in
  let w2 := run (Earlier.notify f Load) (run (Earlier.loadFile p1 SetupOk) w) in
  let second := Earlier.loadFile p2 o w2 in
  second.1 = Normal s ∧
  signal_get s second.2 = Some {| riveFile := Some f; status := success |} ∧
  constructions (trace second.2) = constructions (trace w) ++ [Some f] ∧
  NewRiveFile p1 (Some f) ∈ trace second.2 ∧
  JsMap.get (getCacheKey_byLength p2) (cache second.2) =
    Some {| file := f; state := s; refCount := 2 |}.
Proof.
  intros Hw%earlier_listeners_bound Hs1 Hb1 Hs2 Hb2 Hlen Hc. cbv zeta.
  assert (Hk : getCacheKey_byLength p2 = getCacheKey_byLength p1).
  { unfold getCacheKey_byLength. by rewrite Hs1, Hs2, Hb1, Hb2, Hlen. }
  unfold run. rewrite (earlier_loadFile_miss _ _ _ Hc). cbn [snd].
  set (k := getCacheKey_byLength p1) in *.
  set (w1 := Earlier.started k p1 w).
  assert (Hl1 : listening (filesConstructed w) Load w1 = [Earlier.listenerOf w k Load]).
  { apply (earlier_listening_started k p1 w w1 Load []); [done| |].
    - by rewrite app_nil_r.
    - by intros l ?%elem_of_nil. }
  rewrite (earlier_notify_single _ _ _ _ Hl1).
  set (w2 := (Earlier.handler _ _).2).
  assert (Hw2 : w2 =
    with_cache (JsMap.set k {| file := filesConstructed w;
                               state := length (signals w); refCount := 1 |})
      (with_signals (λ l, <[length (signals w) :=
                             {| riveFile := Some (filesConstructed w);
                                status := success |}]> l)
         (with_trace (λ t, t ++ [Notified (filesConstructed w) Load;
                                 GetInstance (filesConstructed w)]) w1))).
  { unfold w2, Earlier.handler, Earlier.onLoad. destruct w. wsimpl.
    by rewrite <- !(assoc_L (++)). }
  clearbody w2.
  assert (Hc2 : JsMap.get (getCacheKey_byLength p2) (cache w2) =
            Some {| file := filesConstructed w;
                    state := length (signals w); refCount := 1 |}).
  { rewrite Hk, Hw2. simpl. apply JsMap_get_set_eq. }
  rewrite (earlier_loadFile_hit _ _ _ _ Hc2). cbn [fst snd].
  rewrite Hw2. unfold w1. simpl. split_and!; try done.
  - unfold signal_get. simpl. apply list_lookup_insert_eq.
    rewrite length_app. simpl. lia.
  - rewrite !constructions_app. simpl. by rewrite app_nil_r.
  - elems. auto.
  - apply JsMap_get_set_eq.
Qed.

Lemma earlier_equal_length_buffers_share_entry_witness :
  let f := filesConstructed initial in
  let s := length (signals initial) in
  let w2 :=
    run (Earlier.notify f Load)
      (run (Earlier.loadFile params_buffer_1 SetupOk) initial) in
  let second := Earlier.loadFile params_buffer_2 SetupOk w2 in
  second.1 = Normal s ∧
  signal_get s second.2 = Some {| riveFile := Some f; status := success |} ∧
  constructions (trace second.2) = constructions (trace initial) ++ [Some f] ∧
  NewRiveFile params_buffer_1 (Some f) ∈ trace second.2 ∧
  JsMap.get (getCacheKey_byLength params_buffer_2) (cache second.2) =
    Some {| file := f; state := s; refCount := 2 |}.
Proof.
  exact (earlier_equal_length_buffers_share_entry initial
           params_buffer_1 params_buffer_2 buffer_1 buffer_2 SetupOk
           Earlier.earlier_initial eq_refl eq_refl eq_refl eq_refl eq_refl eq_refl).
Defined.

(** X17. In the earlier service a set-up that throws leaves no trace in the
    cache: the signal says [failed], and the next [loadFile] for the key
    starts a new load with a new signal. *)
Theorem earlier_loadFile_retries_after_failure w params o :
  o ≠ SetupOk →
  JsMap.get (getCacheKey_byLength params) (cache w) = None →
  let s := length (signals w) in
  let w1 := run (Earlier.loadFile params o) w in
  let retried := Earlier.loadFile params SetupOk w1 in
  signal_get s w1 = Some {| riveFile := None; status := failed |} ∧
  cache w1 = cache w ∧
  retried.1 = Normal (S s) ∧
  constructions (trace retried.2) =
    constructions (trace w1) ++ [Some (filesConstructed w1)] ∧
  signal_get s retried.2 = Some {| riveFile := None; status := failed |} ∧
  signal_get (S s) retried.2 = Some {| riveFile := None; status := loading |}.
Proof.
  intros Ho Hc. cbv zeta. unfold run.
  rewrite (earlier_loadFile_miss _ _ _ Hc). cbn [snd].
  set (w1 := match o with SetupOk => _ | _ => _ end).
  assert (Hw1 : ∃ ctor, w1 = Earlier.failedSetup params ctor w).
  { unfold w1. destruct o; [done|by exists true|by exists false]. }
  destruct Hw1 as [ctor Hw1]. clearbody w1. subst w1.
  assert (Hc1 : JsMap.get (getCacheKey_byLength params)
                  (cache (Earlier.failedSetup params ctor w)) = None) by done.
  rewrite (earlier_loadFile_miss _ _ _ Hc1). cbn [fst snd].
  unfold signal_get. simpl. rewrite length_app. simpl. split_and!; try done.
  - by apply list_lookup_middle.
  - f_equal. lia.
  - rewrite !constructions_app. simpl. done.
  - rewrite lookup_app_l by (rewrite length_app; simpl; lia).
    by apply list_lookup_middle.
  - apply list_lookup_middle. rewrite length_app. simpl. lia.
Qed.

Lemma earlier_loadFile_retries_after_failure_witness :
  let s := length (signals initial) in
  let w1 := run (Earlier.loadFile params_a ConstructorThrows) initial in
  let retried := Earlier.loadFile params_a SetupOk w1 in
  signal_get s w1 = Some {| riveFile := None; status := failed |} ∧
  cache w1 = cache initial ∧
  retried.1 = Normal (S s) ∧
  constructions (trace retried.2) =
    constructions (trace w1) ++ [Some (filesConstructed w1)] ∧
  signal_get s retried.2 = Some {| riveFile := None; status := failed |} ∧
  signal_get (S s) retried.2 = Some {| riveFile := None; status := loading |}.
Proof.
  refine (earlier_loadFile_retries_after_failure initial params_a
            ConstructorThrows _ eq_refl).
  discriminate.
Defined.
